(** * gostore: a bounded LRU cache with lazy TTL in front of a bolt store

    A shallow embedding of the Go package [gostore]: the cache ([lru]), the
    wire format of stored records ([valueT]) and the facade ([Store]) with
    [PutWithTTL], [UpdateWithTTL], [Load] and [MemoizeWithTTL].  The bolt
    engine, Go's [time], [bytes] and [encoding/binary] packages are
    collaborators of the package; the parts of their behaviour the package
    relies on are written out in the modules [binary], [time] and [bolt]. *)

From Stdlib Require Import ZArith Lia.
From Stdlib.Strings Require Import Byte.
From stdpp Require Import gmap strings list fin_maps.

#[local] Set Warnings "-clear-no-such-hyp".
Local Open Scope Z_scope.

(** ** Go errors

    [error] values are compared by identity in the package
    ([err != ErrKeyNotFound]), so the package-level singletons are
    constructors of their own. *)
Inductive error : Type :=
  | ErrKeyNotFound
  | ErrKeyExpired
  | ErrBadValue
  | EOF                                      (* io.EOF *)
  | ErrUnexpectedEOF                         (* io.ErrUnexpectedEOF *)
  | ErrPut (key : string) (cause : error)    (* fmt.Errorf("failed to put key %s: %w", key, err) *)
  | ErrEngine (msg : string)                 (* an error of the bolt engine *)
  | ErrUser (msg : string).                  (* an error of a caller's codec or compute function *)

#[global] Instance error_eq_dec : EqDecision error.
Proof. solve_decision. Defined.

(** A Go call either returns or panics. *)
Inductive outcome (A : Type) : Type :=
  | Returned (a : A)
  | Panicked (msg : string).
Arguments Returned {A} a.
Arguments Panicked {A} msg.

(** ** encoding/binary, little endian, and the integer conversions *)
Module binary.

Definition byte_of_Z (z : Z) : byte :=
  default x00 (Byte.of_N (Z.to_N (z mod 256))).

Definition Z_of_byte (b : byte) : Z := Z.of_N (Byte.to_N b).

(** [PutUint n z]: the [n] low bytes of [z], least significant first
    ([order.PutUint32] for [n = 4], [order.PutUint64] for [n = 8]). *)
Fixpoint PutUint (n : nat) (z : Z) : list byte :=
  match n with
  | O => []
  | S n' => byte_of_Z z :: PutUint n' (z / 256)
  end.

(** [Uint bs]: the unsigned number a little-endian byte string denotes. *)
Fixpoint Uint (bs : list byte) : Z :=
  match bs with
  | [] => 0
  | b :: bs' => Z_of_byte b + 256 * Uint bs'
  end.

(** Conversion to [int32] and [int64] wraps around. *)
Definition int32 (z : Z) : Z := (z + 2 ^ 31) mod 2 ^ 32 - 2 ^ 31.
Definition int64 (z : Z) : Z := (z + 2 ^ 63) mod 2 ^ 64 - 2 ^ 63.

(** [binary.Read] of a fixed-size integer of [n] bytes from a
    [bytes.Reader] whose unread part is [r]: [io.ReadFull] gives [io.EOF]
    when nothing is left and [io.ErrUnexpectedEOF] when fewer than [n]
    bytes are.  The result is the bytes read and the unread rest. *)
Definition Read (n : nat) (r : list byte) : (list byte * list byte) + error :=
  match r with
  | [] => inr EOF
  | _ => if (length r <? n)%nat then inr ErrUnexpectedEOF
         else inl (take n r, drop n r)
  end.

(** [bytes.Reader.Read(b)] with [b] the buffer to fill: [io.EOF] when
    nothing is left (even for an empty [b]), else [copy] of as many bytes
    as fit; the tail of [b] keeps its contents. *)
Definition Reader_Read (b r : list byte) : (list byte * list byte) + error :=
  match r with
  | [] => inr EOF
  | _ => let n := Nat.min (length b) (length r) in
         inl (take n r ++ drop n b, drop n r)
  end.

End binary.

(** ** Go's time package *)
Module time.

(** A [time.Time] is a number of seconds since January 1, year 1,
    00:00:00 UTC, and a nanosecond offset within the second.  Wall and
    monotonic clock are not distinguished. *)
Record Time : Type := mkTime { sec : Z; nsec : Z }.

(** [time.Time{}] *)
Definition zero : Time := mkTime 0 0.

(** Seconds from year 1 to the Unix epoch. *)
Definition unixToInternal : Z := (1969 * 365 + 1969 / 4 - 1969 / 100 + 1969 / 400) * 86400.
Definition internalToUnix : Z := - unixToInternal.

Definition IsZero (t : Time) : bool := (sec t =? 0) && (nsec t =? 0).

(** [t.After(u)] *)
Definition After (t u : Time) : bool :=
  (sec u <? sec t) || ((sec t =? sec u) && (nsec u <? nsec t)).

(** [t] is at or before [u]: [u.After(t)] fails. *)
Definition le (t u : Time) : Prop :=
  sec t < sec u ∨ (sec t = sec u ∧ nsec t <= nsec u).

(** The method [t.Unix()]. *)
Definition Time_Unix (t : Time) : Z := binary.int64 (sec t + internalToUnix).

(** The function [time.Unix(sec, nsec)]. *)
Definition Unix (s ns : Z) : Time :=
  let '(s, ns) :=
    if (ns <? 0) || (1000000000 <=? ns) then
      let n := Z.quot ns 1000000000 in
      let s := binary.int64 (s + n) in
      let ns := ns - n * 1000000000 in
      if ns <? 0 then (binary.int64 (s - 1), ns + 1000000000) else (s, ns)
    else (s, ns) in
  mkTime (binary.int64 (s + unixToInternal)) ns.

Definition Second : Z := 1000000000.

(** [time.Duration(ttl) * time.Second], an [int64] product. *)
Definition seconds (ttl : Z) : Z := binary.int64 (ttl * Second).

(** [t.Add(d)] *)
Definition Add (t : Time) (d : Z) : Time :=
  let dsec := Z.quot d 1000000000 in
  let ns := nsec t + Z.rem d 1000000000 in
  if 1000000000 <=? ns then mkTime (sec t + (dsec + 1)) (ns - 1000000000)
  else if ns <? 0 then mkTime (sec t + (dsec - 1)) (ns + 1000000000)
  else mkTime (sec t + dsec) ns.

End time.

(** ** Stored records: [valueT] and its wire format *)

Record valueT : Type := mkValueT { Value : list byte; Expire : time.Time }.

(** [v.isExpired()], the clock reading [now]. *)
Definition isExpired (now : time.Time) (v : valueT) : bool :=
  negb (time.IsZero (Expire v)) && time.After now (Expire v).

(** [newValueT(value, ttl)] *)
Definition newValueT (now : time.Time) (value : list byte) (ttl : Z) : valueT :=
  if ttl =? 0 then mkValueT value time.zero
  else mkValueT value (time.Add now (time.seconds ttl)).

(** [valueT.MarshalBinary]: writes to a [bytes.Buffer] do not fail. *)
Definition valueT_MarshalBinary (v : valueT) : list byte * option error :=
  (binary.PutUint 4 (binary.int32 (Z.of_nat (length (Value v))))
     ++ Value v
     ++ binary.PutUint 8 (time.Time_Unix (Expire v)),
   None).

(** [valueT.UnmarshalBinary] (pointer receiver): the record after the call and the error
    returned.  [make([]byte, length)] panics on a negative length. *)
Definition valueT_UnmarshalBinary (v : valueT) (data : list byte)
  : outcome (valueT * option error) :=
  match binary.Read 4 data with
  | inr err => Returned (v, Some err)
  | inl (bs, r1) =>
      let length := binary.int32 (binary.Uint bs) in
      if length <? 0 then Panicked "makeslice: len out of range"
      else
        let v1 := mkValueT (replicate (Z.to_nat length) x00) (Expire v) in
        match binary.Reader_Read (Value v1) r1 with
        | inr err => Returned (v1, Some err)
        | inl (val, r2) =>
            let v2 := mkValueT val (Expire v) in
            match binary.Read 8 r2 with
            | inr err => Returned (v2, Some err)
            | inl (bs8, _) =>
                let expire := binary.int64 (binary.Uint bs8) in
                Returned (mkValueT val (time.Unix expire 0), None)
            end
        end
  end.

(** ** The cache: [lru]

    [evictList] is the recency list, front first.  A [*list.Element] is
    known by the key of the entry it holds, and [items] maps a key to the
    entry its element holds: the entry is shared between the map and the
    list in the source, so a write to it shows in both. *)
Module LRU.

Record entry (V : Type) : Type :=
  mkEntry { key : string; expire : time.Time; value : V }.
Arguments mkEntry {V} key expire value.
Arguments key {V} e.
Arguments expire {V} e.
Arguments value {V} e.

Record lru (V : Type) : Type :=
  mkLRU { evictList : list (entry V); items : gmap string (entry V); size : Z }.
Arguments mkLRU {V} evictList items size.
Arguments evictList {V} l.
Arguments items {V} l.
Arguments size {V} l.

Section ops.
Context {V : Type}.

Definition newLRU (size : Z) : lru V := mkLRU [] ∅ size.

(** [list.Remove(e)] *)
Definition list_Remove (e : entry V) (es : list (entry V)) : list (entry V) :=
  filter (λ x, key x ≠ key e) es.

(** [list.MoveToFront(e)] *)
Definition list_MoveToFront (e : entry V) (es : list (entry V)) : list (entry V) :=
  e :: list_Remove e es.

(** [list.Len()] *)
Definition list_Len (es : list (entry V)) : Z := Z.of_nat (length es).

Definition removeElement (e : entry V) (l : lru V) : lru V :=
  mkLRU (list_Remove e (evictList l)) (delete (key e) (items l)) (size l).

Definition removeOldest (l : lru V) : lru V :=
  match last (evictList l) with
  | Some ent => removeElement ent l
  | None => l
  end.

Definition Add (k : string) (exp : time.Time) (v : V) (l : lru V) : lru V :=
  match items l !! k with
  | Some ent =>
      let ent' := mkEntry (key ent) (expire ent) v in
      mkLRU (list_MoveToFront ent' (evictList l)) (<[k := ent']> (items l)) (size l)
  | None =>
      let ent := mkEntry k exp v in
      let l1 := mkLRU (ent :: evictList l) (<[k := ent]> (items l)) (size l) in
      if size l1 <? list_Len (evictList l1) then removeOldest l1 else l1
  end.

(** [Get] at the clock reading [now]: the value, the flag and the cache
    after the call.  An element always holds an entry, so the [nil]
    test of the source never fires. *)
Definition Get (now : time.Time) (k : string) (l : lru V) : (option V * bool) * lru V :=
  match items l !! k with
  | Some ent =>
      let l1 := mkLRU (list_MoveToFront ent (evictList l)) (items l) (size l) in
      if time.IsZero (expire ent) || time.After (expire ent) now
      then ((Some (value ent), true), l1)
      else ((None, false), removeElement ent l1)
  | None => ((None, false), l)
  end.

Definition Delete (k : string) (l : lru V) : lru V :=
  match items l !! k with
  | Some ent => removeElement ent l
  | None => l
  end.

(** The keys in recency order, most recent first. *)
Definition keys (l : lru V) : list string := key <$> evictList l.

(** Map and list hold the same entries, one per key, and no more of
    them than the capacity. *)
Record wf (l : lru V) : Prop := mkWf {
  wf_nodup : NoDup (keys l);
  wf_items : ∀ k e, items l !! k = Some e ↔ e ∈ evictList l ∧ key e = k;
  wf_cap : list_Len (evictList l) <= Z.max 0 (size l)
}.

(** A run of [Add] calls, first call first. *)
Definition adds (puts : list (string * time.Time * V)) (l : lru V) : lru V :=
  foldl (λ acc p, Add p.1.1 p.1.2 p.2 acc) l puts.

End ops.
End LRU.

(** ** The bolt engine, as the package uses it

    A transaction works on the buckets: a map from bucket names to maps
    from keys to values.  Names and keys are byte strings. *)
Module bolt.

Abbreviation Tx := (gmap string (gmap string (list byte))).

Definition MaxKeySize : Z := 32768.
Definition MaxValueSize : Z := 2 ^ 31 - 2.

(** [tx.Bucket(name)] *)
Definition Bucket (tx : Tx) (name : string) : option (gmap string (list byte)) :=
  tx !! name.

(** [tx.CreateBucketIfNotExists(name)] *)
Definition CreateBucketIfNotExists (tx : Tx) (name : string) : Tx * option error :=
  if decide (name = "") then (tx, Some (ErrEngine "bucket name required"))
  else match tx !! name with
       | Some _ => (tx, None)
       | None => (<[name := ∅]> tx, None)
       end.

(** [bucket.Put(key, value)] on the bucket [name] *)
Definition Put (tx : Tx) (name key : string) (value : list byte) : Tx * option error :=
  if decide (key = "") then (tx, Some (ErrEngine "key required"))
  else if MaxKeySize <? Z.of_nat (String.length key) then (tx, Some (ErrEngine "key too large"))
  else if MaxValueSize <? Z.of_nat (length value) then (tx, Some (ErrEngine "value too large"))
  else (<[name := <[key := value]> (default ∅ (tx !! name))]> tx, None).

(** [bucket.Get(key)]: [None] is the [nil] slice. *)
Definition Get (b : gmap string (list byte)) (key : string) : option (list byte) :=
  b !! key.

(** [bucket.Delete(key)] on the bucket [name] *)
Definition Delete (tx : Tx) (name key : string) : Tx * option error :=
  (<[name := delete key (default ∅ (tx !! name))]> tx, None).

(** The database: its buckets, and what the next transactions meet.
    [Some err] at the head of [faults] makes the next transaction fail
    with [err] before its function runs; [None], or an empty list, lets
    it run. *)
Record DB : Type := mkDB { buckets : Tx; faults : list (option error) }.

End bolt.

(** ** The facade: [Store]

    Values implement [encoding.BinaryMarshaler], targets
    [encoding.BinaryUnmarshaler]; the test type [T1] implements both. *)
Class BinaryMarshaler (T : Type) : Type :=
  MarshalBinary : T → list byte * option error.

(** [obj.UnmarshalBinary(data)]: the target after the call, and the error. *)
Class BinaryUnmarshaler (T : Type) : Type :=
  UnmarshalBinary : T → list byte → T * option error.

(** What a compute function returns as [any]: [nil], a value that
    implements [encoding.BinaryMarshaler], or a value that does not. *)
Inductive any (T : Type) : Type :=
  | AnyNil
  | AnyMarshaler (v : T)
  | AnyOther.
Arguments AnyNil {T}.
Arguments AnyMarshaler {T} v.
Arguments AnyOther {T}.

Record option_ : Type :=
  mkOption { numRetries : Z; readOnly : bool; maxCacheSize : Z }.

Definition _defaultBucket : string := "default".
Definition _defaultNumRetries : Z := 3.

Record Store : Type :=
  mkStore { opt : option_; db : bolt.DB; lru : option (LRU.lru (list byte)) }.

(** What a run leaves behind for an observer: read transactions, write
    transactions (every attempt) and calls of a compute function. *)
Inductive event : Type :=
  | EvView
  | EvUpdate
  | EvCompute (key : string).

(** The store, the clock and the events so far, the latest first.  The
    clock does not advance within one call of the facade. *)
Record World : Type :=
  mkWorld { store : Store; now : time.Time; trace : list event }.

(** Computations on the world that return or panic. *)
Definition M (A : Type) : Type := World → outcome (A * World).

#[global] Instance M_ret : MRet M := λ A a w, Returned (a, w).
#[global] Instance M_bind : MBind M := λ A B f m w,
  match m w with
  | Returned (a, w') => f a w'
  | Panicked msg => Panicked msg
  end.

Definition lift {A : Type} (o : outcome A) : M A := λ w,
  match o with
  | Returned a => Returned (a, w)
  | Panicked msg => Panicked msg
  end.

Definition time_Now : M time.Time := λ w, Returned (now w, w).
Definition emit (e : event) : M unit := λ w,
  Returned (tt, mkWorld (store w) (now w) (e :: trace w)).
Definition get_store : M Store := λ w, Returned (store w, w).
Definition set_lru (l : option (LRU.lru (list byte))) : M unit := λ w,
  Returned (tt, mkWorld (mkStore (opt (store w)) (db (store w)) l) (now w) (trace w)).
Definition set_db (d : bolt.DB) : M unit := λ w,
  Returned (tt, mkWorld (mkStore (opt (store w)) d (lru (store w))) (now w) (trace w)).

(** The next entry of the fault schedule, consumed. *)
Definition next_fault : M (option error) :=
  s ← get_store;
  match bolt.faults (db s) with
  | [] => mret None
  | f :: fs => _ ← set_db (bolt.mkDB (bolt.buckets (db s)) fs); mret f
  end.

(** [db.Update(fn)]: a read-only database refuses; the changes of [fn] are
    committed when it returns no error and dropped otherwise. *)
Definition db_Update (fn : bolt.Tx → M (bolt.Tx * option error)) : M (option error) :=
  _ ← emit EvUpdate;
  s ← get_store;
  if readOnly (opt s) then mret (Some (ErrEngine "database is in read-only mode"))
  else
    fault ← next_fault;
    match fault with
    | Some err => mret (Some err)
    | None =>
        s ← get_store;
        '(tx, err) ← fn (bolt.buckets (db s));
        match err with
        | Some e => mret (Some e)
        | None => _ ← set_db (bolt.mkDB tx (bolt.faults (db s))); mret None
        end
    end.

(** [db.View(fn)]: the result carries the state of the variables [fn]
    assigns to, which is [init] when [fn] does not run. *)
Definition db_View {A : Type} (init : A) (fn : bolt.Tx → M (A * option error))
  : M (A * option error) :=
  _ ← emit EvView;
  fault ← next_fault;
  match fault with
  | Some err => mret (init, Some err)
  | None => s ← get_store; fn (bolt.buckets (db s))
  end.

(** The retry loop of [PutWithTTL]: [n] attempts are left and [err] is
    the error of the last one. *)
Fixpoint retry (n : nat) (attempt : M (option error)) (err : option error)
  : M (option error) :=
  match n with
  | O => mret err
  | S n' =>
      e ← attempt;
      match e with
      | None => mret None
      | Some _ => retry n' attempt e
      end
  end.

(** The function [PutWithTTL] passes to [db.Update]. *)
Definition PutWithTTL_fn (namespace key : string) (value : list byte) (ttl : Z)
  : bolt.Tx → M (bolt.Tx * option error) := λ tx,
  let '(tx, err) := bolt.CreateBucketIfNotExists tx namespace in
  match err with
  | Some e => mret (tx, Some e)
  | None =>
      t ← time_Now;
      let newvalue := newValueT t value ttl in
      let '(buf, err) := valueT_MarshalBinary newvalue in
      match err with
      | Some e => mret (tx, Some e)
      | None => mret (bolt.Put tx namespace key buf)
      end
  end.

Definition PutWithTTL (namespace key : string) (value : list byte) (ttl : Z)
  : M (option error) :=
  s ← get_store;
  err ← retry (Z.to_nat (numRetries (opt s)))
    (db_Update (PutWithTTL_fn namespace key value ttl)) None;
  match err with
  | Some e => mret (Some (ErrPut key e))
  | None => mret None
  end.

Definition Put (namespace key : string) (value : list byte) : M (option error) :=
  PutWithTTL namespace key value 0.

(** The unexported [get].  The function passed to [View] assigns the
    decoder's error to [err] and returns [nil]; the assignment of the
    result of [View] to [err] comes last. *)
Definition get (namespace key : string) : M (valueT * option error) :=
  let value := mkValueT [] time.zero in
  '((value, _), err) ← db_View (value, None) (λ tx,
     match bolt.Bucket tx namespace with
     | None => mret ((value, None), Some ErrKeyNotFound)
     | Some bucket =>
         match bolt.Get bucket key with
         | None => mret ((value, None), Some ErrKeyNotFound)
         | Some val =>
             '(value, err) ← lift (valueT_UnmarshalBinary value val);
             mret ((value, err), None)
         end
     end);
  mret (value, err).

Definition Get (namespace key : string) : M (option (list byte) * option error) :=
  '(valT, err) ← get namespace key;
  match err with
  | Some e => mret (None, Some e)
  | None =>
      if time.IsZero (Expire valT) then mret (Some (Value valT), None)
      else
        t ← time_Now;
        if time.After t (Expire valT) then mret (None, Some ErrKeyExpired)
        else mret (Some (Value valT), err)
  end.

Definition Delete (namespace key : string) : M (option error) :=
  db_Update (λ tx,
    match bolt.Bucket tx namespace with
    | None => mret (tx, None)
    | Some _ => mret (bolt.Delete tx namespace key)
    end).

Definition tryAddToLRU (key : string) (value : list byte) (ttl : Z) : M unit :=
  s ← get_store;
  match lru s with
  | None => mret tt
  | Some l =>
      t ← time_Now;
      let expire := if 0 <? ttl then time.Add t (time.seconds ttl) else time.zero in
      set_lru (Some (LRU.Add key expire value l))
  end.

(** [s.lru.Get(key)] on the store's cache. *)
Definition lru_Get (l : LRU.lru (list byte)) (key : string) : M (option (list byte) * bool) :=
  t ← time_Now;
  let '(r, l') := LRU.Get t key l in
  _ ← set_lru (Some l'); mret r.

(** [singleflight.Group.Do(key, fn)] with no call for [key] in flight, as
    in every sequential run: [fn] runs and its result is returned. *)
Definition group_Do {A : Type} (key : string) (fn : M A) : M A := fn.

Section facade.
Context {T : Type} `{!BinaryMarshaler T} `{!BinaryUnmarshaler T}.

(** A [nil] value or target is [None]. *)
Definition UpdateWithTTL (key : string) (value : option T) (ttl : Z) : M (option error) :=
  match value with
  | None => mret (Some ErrBadValue)
  | Some v =>
      let '(buf, err) := MarshalBinary v in
      match err with
      | Some e => mret (Some e)
      | None =>
          err ← PutWithTTL _defaultBucket key buf ttl;
          match err with
          | Some e => mret (Some e)
          | None => _ ← tryAddToLRU key buf ttl; mret None
          end
      end
  end.

Definition Update (key : string) (value : option T) : M (option error) :=
  UpdateWithTTL key value 0.

(** The part of [Load] after the cache: the read of the persistent
    engine, the expiry test and the decoding into the target [o]. *)
Definition Load_persistent (key : string) (o : T) : M (option T * option error) :=
  '(valT, err) ← get _defaultBucket key;
  match err with
  | Some e => mret (Some o, Some e)
  | None =>
      t ← time_Now;
      if isExpired t valT then mret (Some o, Some ErrKeyExpired)
      else let '(o, err) := UnmarshalBinary o (Value valT) in mret (Some o, err)
  end.

(** [Load]: the target after the call, and the error. *)
Definition Load (key : string) (obj : option T) : M (option T * option error) :=
  match obj with
  | None => mret (None, Some ErrBadValue)
  | Some o =>
      s ← get_store;
      hit ← match lru s with
            | None => mret (None, false)
            | Some l => lru_Get l key
            end;
      match hit with
      | (v, true) =>
          let '(o, err) := UnmarshalBinary o (default [] v) in mret (Some o, err)
      | (_, false) => Load_persistent key o
      end
  end.

Definition Remove (key : string) : M (option error) :=
  s ← get_store;
  _ ← match lru s with
      | None => mret tt
      | Some l => set_lru (Some (LRU.Delete key l))
      end;
  Delete _defaultBucket key.

(** [MemoizeWithTTL]: [f] is the compute function. *)
Definition MemoizeWithTTL (key : string) (obj : option T)
    (f : unit → any T * option error) (ttl : Z) : M (option T * option error) :=
  '(obj, err) ← Load key obj;
  match err with
  | None => mret (obj, None)
  | Some e =>
      if bool_decide (e ≠ ErrKeyNotFound) && bool_decide (e ≠ ErrKeyExpired)
      then mret (obj, Some e)
      else
        group_Do key (
          _ ← emit (EvCompute key);
          let '(data, innerErr) := f tt in
          match innerErr with
          | Some e => mret (obj, Some e)
          | None =>
              match data, obj with
              | AnyMarshaler v, Some o =>
                  let '(buf, err) := MarshalBinary v in
                  match err with
                  | Some e => mret (obj, Some e)
                  | None =>
                      err ← PutWithTTL _defaultBucket key buf ttl;
                      match err with
                      | Some e => mret (obj, Some e)
                      | None =>
                          _ ← tryAddToLRU key buf ttl;
                          let '(o, err) := UnmarshalBinary o buf in mret (Some o, err)
                      end
                  end
              | _, _ => mret (obj, Some ErrBadValue)
              end
          end)
  end.

Definition Memoize (key : string) (obj : option T) (f : unit → any T * option error)
  : M (option T * option error) :=
  MemoizeWithTTL key obj f 0.

End facade.

(** ** Opening a store *)

(** An [Option] assigns to the [option] it is given: the record after the
    assignment comes with the error. *)
Definition OptionFn : Type := option_ → option_ * option error.


Definition WithMaxCacheSize (maxCacheSize : Z) : OptionFn :=
  λ o, (mkOption (numRetries o) (readOnly o) maxCacheSize, None).


Fixpoint apply_opts (opts : list OptionFn) (o : option_) : option_ + error :=
  match opts with
  | [] => inl o
  | f :: opts' =>
      match f o with
      | (_, Some err) => inr err
      | (o', None) => apply_opts opts' o'
      end
  end.

(** [Open(DbPath, opts...)]: [file] is what [bolt.Open] makes of the path,
    a database or an error. *)
Definition Open (file : bolt.DB + error) (opts : list OptionFn) : Store + error :=
  match apply_opts opts (mkOption 0 false 0) with
  | inr err => inr err
  | inl o =>
      let o := if numRetries o =? 0
               then mkOption _defaultNumRetries (readOnly o) (maxCacheSize o) else o in
      let l := if 0 <? maxCacheSize o then Some (LRU.newLRU (maxCacheSize o)) else None in
      match file with
      | inr err => inr err
      | inl d => inl (mkStore o d l)
      end
  end.

(** What [Open] guarantees of a store, and every call of the facade keeps:
    at least one write attempt, a [uint8] count of them, and a cache of
    positive capacity when there is one. *)
Record opened (s : Store) : Prop := mkOpened {
  opened_retries : 1 <= numRetries (opt s) <= 255;
  opened_lru : ∀ l, lru s = Some l → LRU.wf l ∧ 0 < LRU.size l
}.

(** The record the engine holds for [key] in the bucket [namespace]. *)
Definition stored (w : World) (namespace key : string) : option (list byte) :=
  bolt.buckets (db (store w)) !! namespace ≫= (λ b, b !! key).

(** The signed number in the last eight bytes of a stored record. *)
Definition expiry_field (rec : list byte) : Z :=
  binary.int64 (binary.Uint (drop (length rec - 8) rec)).

(** The world at a later clock reading. *)
Definition at_time (t : time.Time) (w : World) : World :=
  mkWorld (store w) t (trace w).

(** The record [PutWithTTL] writes at the clock reading of [w]. *)
Definition record_of (w : World) (value : list byte) (ttl : Z) : list byte :=
  (valueT_MarshalBinary (newValueT (now w) value ttl)).1.

(** How often a compute function was called. *)
Fixpoint computes (tr : list event) : nat :=
  match tr with
  | [] => 0
  | EvCompute _ :: tr' => S (computes tr')
  | _ :: tr' => computes tr'
  end.

(** [w'] is [w] but for the engine and the transactions in the trace. *)
Definition frame (w w' : World) : Prop :=
  opt (store w') = opt (store w) ∧ lru (store w') = lru (store w) ∧ now w' = now w ∧
  computes (trace w') = computes (trace w).

(** The world after the bookkeeping of one read transaction. *)
Definition after_view (w : World) : World :=
  mkWorld (mkStore (opt (store w))
             (bolt.mkDB (bolt.buckets (db (store w))) (tail (bolt.faults (db (store w)))))
             (lru (store w)))
          (now w) (EvView :: trace w).

(** The world with another cache. *)
Definition with_lru (l : option (LRU.lru (list byte))) (w : World) : World :=
  mkWorld (mkStore (opt (store w)) (db (store w)) l) (now w) (trace w).

(** The expiry [tryAddToLRU] gives a cache entry. *)
Definition cache_expiry (now : time.Time) (ttl : Z) : time.Time :=
  if 0 <? ttl then time.Add now (time.seconds ttl) else time.zero.

(** The buckets [b'] are [b] with [rec] put under [key] in [namespace],
    which the engine accepted. *)
Definition written (namespace key : string) (rec : list byte) (b b' : bolt.Tx) : Prop :=
  b' = <[namespace := <[key := rec]> (default ∅ (b !! namespace))]> b ∧
  Z.of_nat (length rec) <= bolt.MaxValueSize.

(** The cache has no live entry for [key], or there is no cache: the
    lookup [Load] starts with does not hit. *)
Definition cache_miss (w : World) (key : string) : Prop :=
  match lru (store w) with
  | None => True
  | Some l => (LRU.Get (now w) key l).1.2 = false
  end.

(** The next transaction meets no fault of the engine. *)
Definition no_fault (w : World) : Prop :=
  hd None (bolt.faults (db (store w))) = None.

(** ** The gob revision of the store

    An earlier revision of the package encodes with [encoding/gob], keeps
    in the cache what its callers passed, and assigns it to the target by
    reflection.  Its [Load] is embedded here, in state-passing style, with
    the functions of the revision it calls.  A target is a pointer to an
    object of the type [T]. *)
Module Gob.

(** What the cache holds, an [any]: [Update] adds the value it was given,
    [Load] adds its target [obj], which is a pointer.  [Object v] is an
    object [v] of the type [T]; [Pointer v] is a pointer to an object of a
    caller that held [v] when it was added. *)
Inductive cached (T : Type) : Type :=
  | Object (v : T)
  | Pointer (v : T).
Arguments Object {T} v.
Arguments Pointer {T} v.

Record Store (T : Type) : Type :=
  mkStore { opt : option_; db : bolt.DB; lru : option (LRU.lru (cached T)) }.
Arguments mkStore {T} opt db lru.
Arguments opt {T} s.
Arguments db {T} s.
Arguments lru {T} s.

Section gob.
Context {T : Type}.

(** [gob.NewDecoder(bytes.NewReader(val)).Decode(&value)] for a
    [valueT]: the record after the call, and the error. *)
Variable decode_valueT : list byte → valueT * option error.

(** The same for a caller's object [obj]. *)
Variable decode : T → list byte → T * option error.

(** [assign(dst, src)] for a [src] that is not [nil]: a
    [reflect.Value.Set], which panics when the types do not fit.  What
    fits depends on the type of the target; [assign] below is the one for
    a target of a struct type. *)
Variable assign : T → cached T → outcome (T * option error).

(** [int64(expire.Sub(now).Seconds())], a [float64] computation. *)
Variable remaining : time.Time → time.Time → Z.

(** The unexported [get] of the revision. *)
Definition get (namespace key : string) (s : Store T)
  : (valueT * option error) * Store T :=
  let value := mkValueT [] time.zero in
  let s' := mkStore (opt s)
              (bolt.mkDB (bolt.buckets (db s)) (tail (bolt.faults (db s)))) (lru s) in
  match hd None (bolt.faults (db s)) with
  | Some err => ((value, Some err), s')
  | None =>
      match bolt.Bucket (bolt.buckets (db s)) namespace with
      | None => ((value, Some ErrKeyNotFound), s')
      | Some bucket =>
          match bolt.Get bucket key with
          | None => ((value, Some ErrKeyNotFound), s')
          | Some val => (decode_valueT val, s')
          end
      end
  end.

Definition tryAddToLRU (now : time.Time) (key : string) (value : cached T) (ttl : Z)
    (s : Store T) : Store T :=
  match lru s with
  | None => s
  | Some l =>
      let expire := if 0 <? ttl then time.Add now (time.seconds ttl) else time.zero in
      mkStore (opt s) (db s) (Some (LRU.Add key expire value l))
  end.

(** [Load] of the revision at the clock reading [now]. *)
Definition Load (now : time.Time) (key : string) (obj : option T) (s : Store T)
  : outcome ((option T * option error) * Store T) :=
  match obj with
  | None => Returned ((None, Some ErrBadValue), s)
  | Some o =>
      let '(hit, s1) :=
        match lru s with
        | None => ((None, false), s)
        | Some l =>
            let '(r, l') := LRU.Get now key l in
            (r, mkStore (opt s) (db s) (Some l'))
        end in
      match hit with
      | (Some v, true) =>
          match assign o v with
          | Returned (o', err) => Returned ((Some o', err), s1)
          | Panicked msg => Panicked msg
          end
      | (None, true) => Returned ((Some o, Some ErrBadValue), s1)
      | (_, false) =>
          let '((valT, err), s2) := get _defaultBucket key s1 in
          match err with
          | Some e => Returned ((Some o, Some e), s2)
          | None =>
              if negb (time.IsZero (Expire valT)) && time.After now (Expire valT)
              then Returned ((Some o, Some ErrKeyExpired), s2)
              else
                let '(o', err) := decode o (Value valT) in
                match err with
                | Some e => Returned ((Some o', Some e), s2)
                | None =>
                    Returned ((Some o', None),
                              tryAddToLRU now key (Pointer o')
                                (remaining (Expire valT) now) s2)
                end
          end
      end
  end.

End gob.

(** [assign(dst, src)] for a target that points to an object of a struct
    type [T] and a [src] that is not [nil]: [Elem().Set] takes a value of
    the type [T] and panics on a pointer to one. *)
Definition assign {T : Type} (o : T) (src : cached T) : outcome (T * option error) :=
  match src with
  | Object v => Returned (v, None)
  | Pointer _ =>
      Panicked "reflect.Set: value of type *T is not assignable to type T"
  end.

End Gob.

(** ** Example stores

    Byte strings with the identity codec, stores as [Open] makes them, and
    the worlds of the scenarios below. *)
Module Ex.

#[export] Instance bytes_marshaler : BinaryMarshaler (list byte) :=
  λ v, (v, None).
#[export] Instance bytes_unmarshaler : BinaryUnmarshaler (list byte) :=
  λ _ data, (data, None).

Definition t0 : time.Time := time.mkTime 63900000000 0.
Definition disk_full : error := ErrEngine "disk full".

(** [Open] on the database [d] with [WithMaxCacheSize(cache)]. *)
Definition opened_on (d : bolt.DB) (cache : Z) : Store :=
  match Open (inl d) [WithMaxCacheSize cache] with
  | inl s => s
  | inr _ => mkStore (mkOption _defaultNumRetries false 0) d None
  end.

Definition world (cache : Z) (faults : list (option error)) : World :=
  mkWorld (opened_on (bolt.mkDB ∅ faults) cache) t0 [].

(** The world a computation leaves. *)
Definition run {A : Type} (m : M A) (w : World) : World :=
  match m w with
  | Returned (_, w') => w'
  | Panicked _ => w
  end.

(** A cache of capacity 1 that holds ["k"], and an engine that refuses
    the next three write transactions. *)
Definition cached : World :=
  run (Update "k" (Some [x01]))
      (world 1 [None; Some disk_full; Some disk_full; Some disk_full]).

(** The same after an [Update] of ["k"] that failed. *)
Definition failed : World := run (Update "k" (Some [x02])) cached.

(** A record written without a cache, and the database opened again
    with a cache of capacity 2. *)
Definition persisted : World := run (Update "k" (Some [x01])) (world 0 []).
Definition reopened : World :=
  mkWorld (opened_on (db (store persisted)) 2) t0 [].

(** The same database, read by the gob revision's [Load] with a decoder
    that takes the value bytes as they are. *)
Definition gob_store : Gob.Store (list byte) :=
  Gob.mkStore (mkOption 3 false 2) (db (store persisted)) (Some (LRU.newLRU 2)).
Definition gob_decode_valueT (val : list byte) : valueT * option error :=
  (mkValueT (take (length val - 12) (drop 4 val)) time.zero, None).
Definition gob_decode (o data : list byte) : list byte * option error := (data, None).
Definition gob_remaining (expire now : time.Time) : Z := 0.

(** The store the gob revision's [Load] leaves. *)
Definition run_gob (s : Gob.Store (list byte)) : Gob.Store (list byte) :=
  match Gob.Load gob_decode_valueT gob_decode Gob.assign gob_remaining t0 "k" (Some []) s with
  | Returned (_, s') => s'
  | Panicked _ => s
  end.

(** A bucket with a record of four bytes 0xff under ["k"]. *)
Definition corrupt : World :=
  mkWorld (opened_on (bolt.mkDB {[ "default" := {[ "k" := [xff; xff; xff; xff] ]} ]} []) 0)
          t0 [].

(** A write of one byte with [ttl = 0]. *)
Definition put_ttl0 : World := run (PutWithTTL "default" "k" [x01] 0) (world 0 []).

(** An engine whose next read transaction fails. *)
Definition read_fault : World := world 0 [Some disk_full].

(** A cache that holds ["a"] with an expiry one second after [t0], and
    a cache of capacity 2 that holds ["a"] and ["b"]. *)
Definition expiring : LRU.lru nat :=
  LRU.Add "a" (time.Add t0 (time.seconds 1)) 1%nat (LRU.newLRU 2).
Definition full : LRU.lru nat :=
  LRU.adds [("a", time.zero, 1%nat); ("b", time.zero, 2%nat)] (LRU.newLRU 2).

(** A cache that holds ["k"] with an expiry, in an opened store. *)
Definition resident : LRU.lru (list byte) :=
  LRU.Add "k" (time.Add t0 (time.seconds 60)) [x01] (LRU.newLRU 2).
Definition with_resident : World :=
  mkWorld (mkStore (mkOption 3 false 2) (bolt.mkDB ∅ []) (Some resident)) t0 [].

End Ex.

(** ** Callers of [MemoizeWithTTL] that run at the same time

    [group.Do(key, fn)] of [singleflight]: a caller that finds no call for
    the key in flight registers one, runs [fn], and hands what [fn]
    returned to the callers that joined meanwhile; a caller that finds a
    call in flight waits for it and gets what its [fn] returned, and its
    own [fn] does not run.  [MemoizeWithTTL] drops the value it gets from
    [group.Do] and keeps the error.

    A caller takes three steps: its [Load], its entry into [group.Do],
    and, when its function is the one that runs, the run of the function,
    at the end of which the call is no longer in flight.  A schedule says
    whose step is next.  A step is taken as a whole, so the schedules here
    are among the ones the goroutines of a burst can take. *)
Module Burst.
Section burst.
Context {T : Type} `{!BinaryMarshaler T} `{!BinaryUnmarshaler T}.

(** The function [MemoizeWithTTL] passes to [group.Do], for a caller
    whose target holds [o] after its [Load]: the target and the error
    after the call. *)
Definition Memoize_fn (key : string) (o : T) (f : unit → any T * option error)
    (ttl : Z) : M (T * option error) :=
  _ ← emit (EvCompute key);
  let '(data, innerErr) := f tt in
  match innerErr with
  | Some e => mret (o, Some e)
  | None =>
      match data with
      | AnyMarshaler v =>
          let '(buf, err) := MarshalBinary v in
          match err with
          | Some e => mret (o, Some e)
          | None =>
              err ← PutWithTTL _defaultBucket key buf ttl;
              match err with
              | Some e => mret (o, Some e)
              | None =>
                  _ ← tryAddToLRU key buf ttl;
                  mret (UnmarshalBinary o buf)
              end
          end
      | _ => mret (o, Some ErrBadValue)
      end
  end.

(** Where a caller is, with what its target holds: before its [Load];
    after a [Load] that failed with [ErrKeyNotFound] or [ErrKeyExpired];
    in [group.Do] with its function to run; in [group.Do] waiting for the
    call in flight; returned, with the error it returned. *)
Inductive caller : Type :=
  | Calling (o : T)
  | Missed (o : T)
  | Owner (o : T)
  | Joined (o : T)
  | Finished (o : T) (err : option error).

(** The world, whether a call for the key is in flight, and the callers. *)
Record state : Type :=
  mkState { world : World; in_flight : bool; callers : list caller }.

(** A caller that waited gets the error of the call; its target is not
    touched. *)
Definition wake (err : option error) (c : caller) : caller :=
  match c with
  | Joined o => Finished o err
  | _ => c
  end.

(** The next step of caller [i]. *)
Definition step (key : string) (f : unit → any T * option error) (ttl : Z)
    (i : nat) (st : state) : outcome state :=
  match callers st !! i with
  | Some (Calling o) =>
      match Load key (Some o) (world st) with
      | Returned ((obj, err), w) =>
          let o := default o obj in
          let c := match err with
                   | None => Finished o None
                   | Some e =>
                       if bool_decide (e ≠ ErrKeyNotFound) && bool_decide (e ≠ ErrKeyExpired)
                       then Finished o (Some e)
                       else Missed o
                   end in
          Returned (mkState w (in_flight st) (<[i := c]> (callers st)))
      | Panicked msg => Panicked msg
      end
  | Some (Missed o) =>
      Returned (mkState (world st) true
                  (<[i := if in_flight st then Joined o else Owner o]> (callers st)))
  | Some (Owner o) =>
      match Memoize_fn key o f ttl (world st) with
      | Returned ((o', err), w) =>
          Returned (mkState w false (wake err <$> <[i := Finished o' err]> (callers st)))
      | Panicked msg => Panicked msg
      end
  | _ => Returned st
  end.

(** The steps of a schedule, first step first. *)
Fixpoint run (key : string) (f : unit → any T * option error) (ttl : Z)
    (schedule : list nat) (st : state) : outcome state :=
  match schedule with
  | [] => Returned st
  | i :: rest =>
      match step key f ttl i st with
      | Returned st' => run key f ttl rest st'
      | Panicked msg => Panicked msg
      end
  end.

(** The callers with the given targets before their calls. *)
Definition burst (targets : list T) (w : World) : state :=
  mkState w false (Calling <$> targets).

End burst.

(** How many write transactions the engine saw. *)
Fixpoint updates (tr : list event) : nat :=
  match tr with
  | [] => 0
  | EvUpdate :: tr' => S (updates tr')
  | _ :: tr' => updates tr'
  end.

End Burst.

(** ** More of the package: caches a run can reach, namespaces *)

(** The test [Get] makes of an expiry at the clock reading [now]: the
    entry has no expiry, or one after [now]. *)
Definition live (now exp : time.Time) : bool :=
  time.IsZero exp || time.After exp now.

(** The caches [newLRU(n)] and the exported calls lead to. *)
Inductive reachable {V : Type} (n : Z) : LRU.lru V → Prop :=
  | reach_newLRU : reachable n (LRU.newLRU n)
  | reach_Add l k exp v : reachable n l → reachable n (LRU.Add k exp v l)
  | reach_Get l now k : reachable n l → reachable n (LRU.Get now k l).2
  | reach_Delete l k : reachable n l → reachable n (LRU.Delete k l).

(** [tx.DeleteBucket(name)]: an error when there is no such bucket. *)
Definition tx_DeleteBucket (tx : bolt.Tx) (name : string) : bolt.Tx * option error :=
  match tx !! name with
  | None => (tx, Some (ErrEngine "bucket not found"))
  | Some _ => (delete name tx, None)
  end.

Definition DeleteNamespace (namespace : string) : M (option error) :=
  db_Update (λ tx, mret (tx_DeleteBucket tx namespace)).

(** The function [Delete] passes to [db.Update]. *)
Definition Delete_fn (namespace key : string) : bolt.Tx → M (bolt.Tx * option error) :=
  λ tx, match bolt.Bucket tx namespace with
        | None => mret (tx, None)
        | Some _ => mret (bolt.Delete tx namespace key)
        end.

(** The world after [n] write transactions that changed no bucket. *)
Definition after_updates (n : nat) (w : World) : World :=
  mkWorld (mkStore (opt (store w))
             (bolt.mkDB (bolt.buckets (db (store w))) (drop n (bolt.faults (db (store w)))))
             (lru (store w)))
          (now w) (replicate n EvUpdate ++ trace w).

(** The world with other buckets. *)
Definition with_buckets (tx : bolt.Tx) (w : World) : World :=
  mkWorld (mkStore (opt (store w)) (bolt.mkDB tx (bolt.faults (db (store w)))) (lru (store w)))
          (now w) (trace w).

(** What the function of [PutWithTTL] does to the buckets at the clock
    reading [now]. *)
Definition put_tx (now : time.Time) (namespace key : string) (value : list byte) (ttl : Z)
    (tx : bolt.Tx) : bolt.Tx * option error :=
  let '(tx, err) := bolt.CreateBucketIfNotExists tx namespace in
  match err with
  | Some e => (tx, Some e)
  | None => bolt.Put tx namespace key (valueT_MarshalBinary (newValueT now value ttl)).1
  end.

(** What the function of [Delete] does to the buckets. *)
Definition delete_tx (namespace key : string) (tx : bolt.Tx) : bolt.Tx * option error :=
  match bolt.Bucket tx namespace with
  | None => (tx, None)
  | Some _ => bolt.Delete tx namespace key
  end.

(** What [Get] makes of a decoded record at the clock reading [now]. *)
Definition Get_result (now : time.Time) (valT : valueT) : option (list byte) * option error :=
  if time.IsZero (Expire valT) then (Some (Value valT), None)
  else if time.After now (Expire valT) then (None, Some ErrKeyExpired)
  else (Some (Value valT), None).

(** The buckets with [rec] under [key] in [namespace]. *)
Definition put_record (namespace key : string) (rec : list byte) (b : bolt.Tx) : bolt.Tx :=
  <[namespace := <[key := rec]> (default ∅ (b !! namespace))]> b.

(** The world after the call of a compute function for [key]. *)
Definition computed (key : string) (w : World) : World :=
  mkWorld (store w) (now w) (EvCompute key :: trace w).


(** The error of the engine for a write transaction on a database opened
    read-only. *)
Definition ErrDatabaseReadOnly : error := ErrEngine "database is in read-only mode".

(** The world after [n] write transactions that a read-only database
    refused. *)
Definition refused (n : nat) (w : World) : World :=
  mkWorld (store w) (now w) (replicate n EvUpdate ++ trace w).

(** ** More worlds for the scenarios *)
Module Ex2.
Import Ex.

(** A clock reading after [t0]. *)
Definition t1 : time.Time := time.mkTime 64000000000 0.

(** A record of one byte, too short for its length prefix. *)
Definition truncated : World :=
  mkWorld (opened_on (bolt.mkDB {[ "default" := {[ "k" := [x01] ]} ]} []) 0) t0 [].

(** Engines that refuse the next three write transactions, and the next
    one only. *)
Definition failing3 : World := world 0 [Some disk_full; Some disk_full; Some disk_full].
Definition failing1 : World := world 0 [Some disk_full; None].

(** A store opened with [WithReadOnly]. *)
Definition read_only : World :=
  mkWorld (mkStore (mkOption 3 true 0) (bolt.mkDB ∅ []) None) t0 [].

(** Compute functions: one that gives a byte, one that fails. *)
Definition compute_x : unit → any (list byte) * option error :=
  λ _, (AnyMarshaler [x58], None).
Definition compute_fails : unit → any (list byte) * option error :=
  λ _, (AnyNil, Some (ErrUser "no value")).

(** The world after a first [Memoize] of ["x"]. *)
Definition memoized : World := run (Memoize "x" (Some []) compute_x) (world 0 []).

(** The worlds after an [Update] with a cache of capacity 1, after an
    [UpdateWithTTL] of a minute with a cache of capacity 2, and after one
    with a negative [ttl] without a cache. *)
Definition updated : World := run (Update "k" (Some [x01])) (world 1 []).
Definition updated_ttl : World := run (UpdateWithTTL "k" (Some [x01]) 60) (world 2 []).
Definition updated_past : World := run (UpdateWithTTL "k" (Some [x01]) (-5)) (world 0 []).

End Ex2.

(** * Properties *)

(** ** Little-endian integers *)
Module binary_facts.
Import binary.

Lemma Z_of_byte_range (b : byte) : 0 <= Z_of_byte b < 256.
Proof.
  unfold Z_of_byte. pose proof (Byte.to_N_bounded b). lia.
Qed.

Lemma Z_of_byte_of_Z (z : Z) : Z_of_byte (byte_of_Z z) = z mod 256.
Proof.
  unfold Z_of_byte, byte_of_Z.
  assert (Hr : 0 <= z mod 256 < 256) by (apply Z.mod_pos_bound; lia).
  destruct (Byte.of_N (Z.to_N (z mod 256))) as [b|] eqn:Hb; simpl.
  - apply Byte.to_of_N in Hb. rewrite Hb. lia.
  - apply Byte.of_N_None_iff in Hb. lia.
Qed.

Lemma PutUint_length (n : nat) (z : Z) : length (PutUint n z) = n.
Proof.
  revert z. induction n as [|n IH]; intros z; simpl; [done|]. by rewrite IH.
Qed.

Lemma Uint_PutUint (n : nat) (z : Z) :
  Uint (PutUint n z) = z mod 2 ^ (8 * Z.of_nat n).
Proof.
  revert z. induction n as [|n IH]; intros z.
  - simpl. by rewrite Z.mod_1_r.
  - cbn [PutUint Uint]. rewrite Z_of_byte_of_Z, IH.
    replace (8 * Z.of_nat (S n)) with (8 + 8 * Z.of_nat n) by lia.
    rewrite Z.pow_add_r by lia.
    change (2 ^ 8) with 256.
    rewrite Z.rem_mul_r; [done|lia|]. apply Z.pow_pos_nonneg; lia.
Qed.

Lemma int32_range (z : Z) : - 2 ^ 31 <= int32 z < 2 ^ 31.
Proof.
  unfold int32. pose proof (Z.mod_pos_bound (z + 2 ^ 31) (2 ^ 32)). lia.
Qed.

Lemma int64_range (z : Z) : - 2 ^ 63 <= int64 z < 2 ^ 63.
Proof.
  unfold int64. pose proof (Z.mod_pos_bound (z + 2 ^ 63) (2 ^ 64)). lia.
Qed.

Lemma int32_small (z : Z) : - 2 ^ 31 <= z < 2 ^ 31 → int32 z = z.
Proof.
  intros Hz. unfold int32. rewrite Z.mod_small; lia.
Qed.

Lemma int64_small (z : Z) : - 2 ^ 63 <= z < 2 ^ 63 → int64 z = z.
Proof.
  intros Hz. unfold int64. rewrite Z.mod_small; lia.
Qed.

Lemma int32_mod (z : Z) : int32 (z mod 2 ^ 32) = int32 z.
Proof.
  unfold int32. f_equal. rewrite Zplus_mod_idemp_l. done.
Qed.

Lemma int64_mod (z : Z) : int64 (z mod 2 ^ 64) = int64 z.
Proof.
  unfold int64. f_equal. rewrite Zplus_mod_idemp_l. done.
Qed.

(** What [binary.Write] puts, [binary.Read] gets back. *)
Lemma int32_Uint_PutUint (z : Z) :
  - 2 ^ 31 <= z < 2 ^ 31 → int32 (Uint (PutUint 4 z)) = z.
Proof.
  intros Hz. rewrite Uint_PutUint. change (8 * Z.of_nat 4) with 32.
  rewrite int32_mod. by apply int32_small.
Qed.

Lemma int64_Uint_PutUint (z : Z) :
  - 2 ^ 63 <= z < 2 ^ 63 → int64 (Uint (PutUint 8 z)) = z.
Proof.
  intros Hz. rewrite Uint_PutUint. change (8 * Z.of_nat 8) with 64.
  rewrite int64_mod. by apply int64_small.
Qed.

Lemma Read_app (n : nat) (hd tl : list byte) :
  length hd = n → n ≠ 0%nat → Read n (hd ++ tl) = inl (hd, tl).
Proof.
  intros Hn Hn0. unfold Read.
  destruct (hd ++ tl) as [|b r] eqn:Hr.
  - destruct hd; simpl in *; [lia | discriminate].
  - rewrite <- Hr.
    assert (Hlt : (length (hd ++ tl) <? n)%nat = false).
    { apply Nat.ltb_ge. rewrite length_app. lia. }
    rewrite Hlt, take_app_length', drop_app_length' by done. done.
Qed.

Lemma Reader_Read_app (b val tl : list byte) :
  length b = length val → tl ≠ [] → Reader_Read b (val ++ tl) = inl (val, tl).
Proof.
  intros Hlen Htl. unfold Reader_Read.
  destruct (val ++ tl) as [|x r] eqn:Hr.
  - destruct val, tl; simpl in *; congruence.
  - rewrite <- Hr, length_app.
    replace (length b `min` (length val + length tl))%nat with (length val) by lia.
    rewrite take_app_length, drop_app_length.
    rewrite drop_ge by lia. by rewrite app_nil_r.
Qed.

End binary_facts.

(** ** The clock and the wire format *)
Module wire_facts.
Import binary binary_facts.

Lemma After_false_iff (t u : time.Time) : time.After t u = false ↔ time.le t u.
Proof.
  unfold time.After, time.le. rewrite orb_false_iff, andb_false_iff.
  rewrite Z.ltb_ge, Z.eqb_neq, Z.ltb_ge. lia.
Qed.

Lemma Time_Unix_zero : time.Time_Unix time.zero = -62135596800.
Proof. reflexivity. Qed.

Lemma Unix_zero_IsZero : time.IsZero (time.Unix (time.Time_Unix time.zero) 0) = true.
Proof. reflexivity. Qed.

Lemma isExpired_zero (now : time.Time) (value : list byte) :
  isExpired now (mkValueT value (time.Unix (time.Time_Unix time.zero) 0)) = false.
Proof. reflexivity. Qed.

Lemma MarshalBinary_length (v : valueT) :
  length (valueT_MarshalBinary v).1 = (4 + length (Value v) + 8)%nat.
Proof.
  unfold valueT_MarshalBinary. cbn [fst].
  rewrite !length_app, !PutUint_length. lia.
Qed.

(** Decoding what [MarshalBinary] wrote gives the value back, and the
    expiry cut to whole seconds, whatever the record held before. *)
Lemma Unmarshal_Marshal (v0 v : valueT) :
  Z.of_nat (length (Value v)) < 2 ^ 31 →
  valueT_UnmarshalBinary v0 (valueT_MarshalBinary v).1 =
    Returned (mkValueT (Value v) (time.Unix (time.Time_Unix (Expire v)) 0), None).
Proof.
  intros Hlen. unfold valueT_UnmarshalBinary, valueT_MarshalBinary. cbn [fst].
  rewrite Read_app by (rewrite ?PutUint_length; done).
  assert (Hn : int32 (Z.of_nat (length (Value v))) = Z.of_nat (length (Value v)))
    by (apply int32_small; lia).
  rewrite Hn, int32_Uint_PutUint by lia.
  destruct (Z.ltb_spec (Z.of_nat (length (Value v))) 0) as [?|_]; [lia|].
  rewrite Nat2Z.id.
  rewrite Reader_Read_app; cycle 1.
  { cbn [Value]. by rewrite length_replicate. }
  { discriminate. }
  rewrite <- (app_nil_r (PutUint 8 _)).
  rewrite Read_app by (rewrite ?PutUint_length; done).
  rewrite int64_Uint_PutUint by apply int64_range.
  done.
Qed.

(** [UnmarshalBinary] panics exactly on a length prefix that is negative
    as an [int32]. *)
Lemma Unmarshal_panics_iff (v : valueT) (data : list byte) :
  (∃ msg, valueT_UnmarshalBinary v data = Panicked msg) ↔
  (4 <= length data)%nat ∧ int32 (Uint (take 4 data)) < 0.
Proof.
  unfold valueT_UnmarshalBinary.
  destruct data as [|b [|b1 [|b2 [|b3 data]]]];
    try (split; [intros [? ?]; discriminate | simpl; lia]).
  change (Read 4 (b :: b1 :: b2 :: b3 :: data)) with (@inl _ error ([b; b1; b2; b3], data)).
  change (take 4 (b :: b1 :: b2 :: b3 :: data)) with [b; b1; b2; b3].
  cbv zeta iota beta.
  destruct (Z.ltb_spec (int32 (Uint [b; b1; b2; b3])) 0) as [Hneg|Hpos].
  - split; [intros _; split; [simpl; lia|done] | intros _; eexists; reflexivity].
  - split; [|lia]. intros [msg Hp]. revert Hp.
    destruct (Reader_Read _ _) as [[val r2]|]; [|discriminate].
    destruct (Read 8 r2) as [[? ?]|]; discriminate.
Qed.

End wire_facts.

(** ** The cache *)
Module LRU_facts.
Import LRU.

Section list_facts.
Context {V : Type}.
Implicit Types (e x : entry V) (es : list (entry V)).

Lemma elem_of_list_Remove e x es :
  x ∈ list_Remove e es ↔ x ∈ es ∧ key x ≠ key e.
Proof. unfold list_Remove. rewrite list_elem_of_filter. tauto. Qed.

Lemma keys_list_Remove e es :
  key <$> list_Remove e es = filter (λ k, k ≠ key e) (key <$> es).
Proof.
  unfold list_Remove. induction es as [|x es IH]; [done|].
  rewrite fmap_cons, !filter_cons. cbn beta.
  destruct (decide (key x ≠ key e)); by rewrite ?fmap_cons, IH.
Qed.

Lemma NoDup_list_Remove e es :
  NoDup (key <$> es) → NoDup (key <$> list_Remove e es).
Proof.
  intros Hnd. eapply sublist_NoDup; [exact Hnd|].
  apply fmap_sublist, sublist_filter.
Qed.

Lemma list_Remove_fresh e es :
  key e ∉ (key <$> es) → list_Remove e es = es.
Proof.
  unfold list_Remove. induction es as [|x es IH]; [done|].
  rewrite fmap_cons, not_elem_of_cons. intros [Hne Hnin].
  rewrite filter_cons, decide_True by done. by rewrite IH.
Qed.

Lemma list_Remove_split e x l1 l2 :
  key x = key e → NoDup (key <$> (l1 ++ x :: l2)) →
  list_Remove e (l1 ++ x :: l2) = l1 ++ l2.
Proof.
  intros Hk Hnd. rewrite fmap_app, fmap_cons in Hnd.
  apply NoDup_app in Hnd as (_ & Hdisj & Hnd2).
  apply NoDup_cons in Hnd2 as [Hx2 _].
  unfold list_Remove. rewrite filter_app, filter_cons.
  rewrite decide_False by (intros Hne; by apply Hne).
  fold (list_Remove e l1). fold (list_Remove e l2).
  rewrite !list_Remove_fresh; [done| |].
  - by rewrite <- Hk.
  - rewrite <- Hk. intros Hin. apply (Hdisj _ Hin). left.
Qed.

Lemma length_list_Remove e x es :
  NoDup (key <$> es) → x ∈ es → key x = key e →
  S (length (list_Remove e es)) = length es.
Proof.
  intros Hnd Hin Hk.
  apply list_elem_of_split in Hin as (l1 & l2 & ->).
  rewrite (list_Remove_split e x) by done.
  rewrite !length_app. simpl. lia.
Qed.

Lemma list_Remove_last e es :
  NoDup (key <$> es) → last es = Some e →
  es = list_Remove e es ++ [e].
Proof.
  intros Hnd Hlast. apply last_Some in Hlast as [es' ->].
  by rewrite (list_Remove_split e e es' []), app_nil_r.
Qed.

End list_facts.

Section wf_facts.
Context {V : Type}.
Implicit Types (l : lru V) (e ent : entry V) (k : string).

Lemma wf_newLRU (n : Z) : wf (newLRU (V := V) n).
Proof.
  split; simpl.
  - constructor.
  - intros k e. rewrite lookup_empty, elem_of_nil. naive_solver.
  - unfold list_Len. simpl. lia.
Qed.

Lemma wf_key l k e : wf l → items l !! k = Some e → key e = k ∧ e ∈ evictList l.
Proof. intros Hwf He. apply (wf_items l Hwf) in He. tauto. Qed.

Lemma wf_absent l k : wf l → items l !! k = None → k ∉ keys l.
Proof.
  intros Hwf Hnone Hin. unfold keys in Hin.
  apply list_elem_of_fmap in Hin as (e & -> & Hin).
  assert (items l !! key e = Some e) as Hs by (by apply (wf_items l Hwf)).
  congruence.
Qed.

Lemma wf_removeElement l e : wf l → wf (removeElement e l).
Proof.
  intros [Hnd Hit Hcap]. split; simpl.
  - by apply NoDup_list_Remove.
  - intros k x. rewrite elem_of_list_Remove, lookup_delete.
    case_decide as Hk; [naive_solver|]. rewrite Hit. naive_solver.
  - unfold list_Len, list_Remove in *.
    pose proof (length_filter (λ x, key x ≠ key e) (evictList l)). lia.
Qed.

Lemma wf_removeOldest l : wf l → wf (removeOldest l).
Proof.
  intros Hwf. unfold removeOldest. destruct (last _); [|done].
  by apply wf_removeElement.
Qed.

Lemma wf_Delete l k : wf l → wf (Delete k l).
Proof.
  intros Hwf. unfold Delete. destruct (items l !! k); [|done].
  by apply wf_removeElement.
Qed.

(** [MoveToFront] of a resident entry, with a new value or the old one. *)
Lemma wf_touch l k ent (v : V) :
  wf l → items l !! k = Some ent →
  wf (mkLRU (list_MoveToFront (mkEntry (key ent) (expire ent) v) (evictList l))
            (<[k := mkEntry (key ent) (expire ent) v]> (items l)) (size l)).
Proof.
  intros Hwf Hent. destruct (wf_key l k ent Hwf Hent) as [Hk Hin].
  destruct Hwf as [Hnd Hit Hcap]. unfold list_MoveToFront. split; simpl.
  - unfold keys. simpl. apply NoDup_cons. split; [|by apply NoDup_list_Remove].
    rewrite keys_list_Remove, list_elem_of_filter. simpl. naive_solver.
  - intros k' x. rewrite elem_of_cons, elem_of_list_Remove, lookup_insert.
    simpl. case_decide as Hk'.
    + subst k'. split; [naive_solver|]. intros [[->|[_ Hne]] Hkx]; [done|].
      congruence.
    + rewrite Hit. split; [naive_solver|].
      intros [[->|[? ?]] ?]; [simpl in *; congruence | done].
  - unfold list_Len in *. simpl.
    pose proof (length_list_Remove (mkEntry (key ent) (expire ent) v) ent
                  (evictList l) Hnd Hin eq_refl). lia.
Qed.

Lemma wf_Add l k exp (v : V) : wf l → wf (Add k exp v l).
Proof.
  intros Hwf. unfold Add. destruct (items l !! k) as [ent|] eqn:Hent.
  { by apply wf_touch. }
  pose proof (wf_absent l k Hwf Hent) as Hfresh.
  destruct Hwf as [Hnd Hit Hcap].
  assert (Hnd1 : NoDup (key <$> (mkEntry k exp v :: evictList l))).
  { rewrite fmap_cons. by apply NoDup_cons. }
  assert (Hit1 : ∀ k' x, <[k := mkEntry k exp v]> (items l) !! k' = Some x ↔
                         x ∈ mkEntry k exp v :: evictList l ∧ key x = k').
  { intros k' x. rewrite elem_of_cons, lookup_insert. case_decide as Hk'.
    - subst k'. split; [naive_solver|]. intros [[->|Hin] Hkx]; [done|].
      exfalso. apply Hfresh. unfold keys. rewrite <- Hkx.
      by apply list_elem_of_fmap_2.
    - rewrite Hit. split; [naive_solver|].
      intros [[->|?] ?]; [simpl in *; congruence | done]. }
  cbn [size evictList].
  destruct (Z.ltb_spec (size l) (list_Len (mkEntry k exp v :: evictList l)))
    as [Hfull|Hroom].
  - unfold removeOldest. cbn [evictList].
    destruct (last (mkEntry k exp v :: evictList l)) as [b|] eqn:Hlast;
      [|by apply last_None in Hlast].
    pose proof (list_Remove_last b _ Hnd1 Hlast) as Hsplit.
    split; cbn [removeElement evictList items size keys].
    + by apply NoDup_list_Remove.
    + intros k' x. rewrite elem_of_list_Remove, lookup_delete.
      case_decide as Hk'; [naive_solver|]. rewrite Hit1. naive_solver.
    + apply (f_equal length) in Hsplit. rewrite length_app in Hsplit.
      unfold list_Len in *. simpl in *. lia.
  - split; cbn [evictList items size keys]; [done..|].
    unfold list_Len in *. simpl in *. lia.
Qed.

Lemma wf_Get l now k : wf l → wf (Get now k l).2.
Proof.
  intros Hwf. unfold Get. destruct (items l !! k) as [ent|] eqn:Hent; [|done].
  assert (Hwf1 : wf (mkLRU (list_MoveToFront ent (evictList l)) (items l) (size l))).
  { pose proof (wf_touch l k ent (value ent) Hwf Hent) as Ht.
    destruct ent as [ke ee ve]. simpl in Ht.
    rewrite insert_id in Ht by done. exact Ht. }
  destruct (_ || _); simpl; [done|]. by apply wf_removeElement.
Qed.

End wf_facts.

Section order_facts.
Context {V : Type}.
Implicit Types (l : lru V) (e ent : entry V) (k : string).

Lemma filter_ne_fresh k (ks : list string) :
  k ∉ ks → filter (λ x, x ≠ k) ks = ks.
Proof.
  induction ks as [|x ks IH]; [done|].
  rewrite not_elem_of_cons. intros [Hne Hnin].
  rewrite filter_cons, decide_True by done. by rewrite IH.
Qed.

Lemma take_cons_take {A : Type} (n : nat) (x : A) (xs : list A) :
  take n (x :: take n xs) = take n (x :: xs).
Proof.
  destruct n as [|n]; [done|]. simpl. rewrite take_take. f_equal. f_equal. lia.
Qed.

Lemma size_Add l k exp (v : V) : size (Add k exp v l) = size l.
Proof.
  unfold Add. destruct (items l !! k); [done|].
  cbn [size evictList]. destruct (_ <? _); [|done].
  unfold removeOldest. by destruct (last _).
Qed.

(** [Add] of a resident key: the entry goes to the front with the new
    value and the expiry it had. *)
Lemma Add_resident l k exp (v : V) ent :
  wf l → items l !! k = Some ent →
  Add k exp v l =
    mkLRU (mkEntry k (expire ent) v :: list_Remove ent (evictList l))
          (<[k := mkEntry k (expire ent) v]> (items l)) (size l).
Proof.
  intros Hwf Hent. destruct (wf_key l k ent Hwf Hent) as [Hk _].
  unfold Add. rewrite Hent. unfold list_MoveToFront, list_Remove. simpl.
  by rewrite Hk.
Qed.

(** [Add] of a new key into a cache with room. *)
Lemma Add_new_room l k exp (v : V) :
  items l !! k = None → list_Len (evictList l) < size l →
  Add k exp v l =
    mkLRU (mkEntry k exp v :: evictList l) (<[k := mkEntry k exp v]> (items l)) (size l).
Proof.
  intros Hk Hroom. unfold Add. rewrite Hk. cbn [size evictList].
  destruct (Z.ltb_spec (size l) (list_Len (mkEntry k exp v :: evictList l)))
    as [Hfull|_]; [|done].
  unfold list_Len in *. simpl in *. lia.
Qed.

(** [Add] of a new key into a full cache: the entry at the back of the
    list, after the push, is the one removed, from list and map. *)
Lemma Add_new_full l k exp (v : V) :
  wf l → items l !! k = None → size l <= list_Len (evictList l) →
  ∃ back,
    last (mkEntry k exp v :: evictList l) = Some back ∧
    mkEntry k exp v :: evictList l = evictList (Add k exp v l) ++ [back] ∧
    items (Add k exp v l) = delete (key back) (<[k := mkEntry k exp v]> (items l)).
Proof.
  intros Hwf Hk Hfull. pose proof (wf_absent l k Hwf Hk) as Hfresh.
  unfold Add. rewrite Hk. cbn [size evictList].
  destruct (Z.ltb_spec (size l) (list_Len (mkEntry k exp v :: evictList l)))
    as [_|Hroom]; [|unfold list_Len in *; simpl in *; lia].
  unfold removeOldest. cbn [evictList].
  destruct (last (mkEntry k exp v :: evictList l)) as [b|] eqn:Hlast;
    [|by apply last_None in Hlast].
  exists b. split; [done|]. cbn [removeElement evictList items]. split; [|done].
  apply list_Remove_last; [|done].
  rewrite fmap_cons. apply NoDup_cons. split; [done|]. apply Hwf.
Qed.

(** The keys after [Add], whatever the key: the key goes to the front
    and the list is cut to the capacity. *)
Lemma keys_Add l k exp (v : V) :
  wf l →
  keys (Add k exp v l) =
    take (Z.to_nat (Z.max 0 (size l))) (k :: filter (λ x, x ≠ k) (keys l)).
Proof.
  intros Hwf. destruct (items l !! k) as [ent|] eqn:Hent.
  - rewrite (Add_resident l k exp v ent) by done.
    destruct (wf_key l k ent Hwf Hent) as [Hk Hin].
    unfold keys. cbn [evictList]. rewrite fmap_cons, keys_list_Remove, Hk.
    cbn [key]. rewrite take_ge; [done|].
    rewrite <- Hk, <- keys_list_Remove. simpl. rewrite length_fmap.
    pose proof (length_list_Remove ent ent (evictList l) (wf_nodup l Hwf) Hin eq_refl).
    pose proof (wf_cap l Hwf). unfold list_Len in *. lia.
  - pose proof (wf_absent l k Hwf Hent) as Hfresh.
    rewrite filter_ne_fresh by done.
    destruct (Z.lt_ge_cases (list_Len (evictList l)) (size l)) as [Hroom|Hfull].
    + rewrite Add_new_room by done. unfold keys. cbn [evictList].
      rewrite fmap_cons. cbn [key]. rewrite take_ge; [done|].
      simpl. rewrite length_fmap. unfold list_Len in *. lia.
    + destruct (Add_new_full l k exp v Hwf Hent Hfull) as (b & _ & Hsplit & _).
      pose proof (wf_cap l Hwf) as Hcap.
      apply (f_equal (fmap key)) in Hsplit as Hkeys.
      rewrite fmap_cons, fmap_app in Hkeys. cbn [key fmap list_fmap] in Hkeys.
      fold (keys l) in Hkeys. fold (keys (Add k exp v l)) in Hkeys.
      rewrite Hkeys. rewrite take_app_length'; [done|].
      apply (f_equal length) in Hsplit. rewrite length_app in Hsplit.
      unfold keys. rewrite length_fmap. unfold list_Len in *. simpl in *. lia.
Qed.

Lemma wf_adds l (puts : list (string * time.Time * V)) : wf l → wf (adds puts l).
Proof.
  intros Hwf. induction puts as [|p puts IH] using rev_ind; [done|].
  unfold adds. rewrite foldl_snoc. by apply wf_Add.
Qed.

Lemma size_adds l (puts : list (string * time.Time * V)) : size (adds puts l) = size l.
Proof.
  induction puts as [|p puts IH] using rev_ind; [done|].
  unfold adds. rewrite foldl_snoc. by rewrite size_Add.
Qed.

(** After a run of [Add] calls with distinct new keys the resident keys
    are the most recently touched ones, as many as the capacity. *)
Lemma keys_adds l (puts : list (string * time.Time * V)) :
  wf l → NoDup (puts.*1.*1) → (∀ k, k ∈ puts.*1.*1 → k ∉ keys l) →
  keys (adds puts l) =
    take (Z.to_nat (Z.max 0 (size l))) (reverse (puts.*1.*1) ++ keys l).
Proof.
  intros Hwf. induction puts as [|p puts IH] using rev_ind; intros Hnd Hnew.
  - simpl. rewrite take_ge; [done|]. pose proof (wf_cap l Hwf).
    unfold keys, list_Len in *. rewrite length_fmap. lia.
  - rewrite !fmap_app in Hnd, Hnew. simpl in Hnd, Hnew.
    apply NoDup_app in Hnd as (Hnd & Hdisj & _).
    unfold adds. rewrite foldl_snoc. fold (adds puts l).
    rewrite keys_Add by (by apply wf_adds).
    rewrite size_adds, IH; [|done|]; cycle 1.
    { intros k Hk. apply Hnew. rewrite elem_of_app. by left. }
    rewrite !fmap_app, reverse_app. simpl.
    rewrite filter_ne_fresh, take_cons_take; [done|].
    intros Hin. apply elem_of_take in Hin as (i & Hin & _).
    apply list_elem_of_lookup_2 in Hin.
    apply elem_of_app in Hin as [Hin|Hin].
    + rewrite elem_of_reverse in Hin. apply (Hdisj _ Hin). left.
    + revert Hin. apply Hnew. rewrite elem_of_app. right. left.
Qed.


(** A new key stays resident, at the front, in a cache with capacity
    for at least one entry. *)
Lemma Add_new_front l k exp (v : V) :
  wf l → items l !! k = None → 0 < size l →
  items (Add k exp v l) !! k = Some (mkEntry k exp v) ∧
  head (evictList (Add k exp v l)) = Some (mkEntry k exp v).
Proof.
  intros Hwf Hk Hsize.
  destruct (Z.lt_ge_cases (list_Len (evictList l)) (size l)) as [Hroom|Hfull].
  { rewrite Add_new_room by done. simpl. by rewrite lookup_insert_eq. }
  destruct (Add_new_full l k exp v Hwf Hk Hfull) as (b & Hlast & Hsplit & Hitems).
  destruct (evictList l) as [|x es] eqn:Hes.
  { unfold list_Len in Hfull. simpl in Hfull. lia. }
  assert (Hkb : key b ≠ k).
  { intros Hkb. apply (wf_absent l k Hwf Hk). unfold keys. rewrite Hes, <- Hkb.
    apply list_elem_of_fmap_2. rewrite last_cons_cons in Hlast.
    by apply last_Some_elem_of. }
  split.
  - rewrite Hitems, lookup_delete_ne, lookup_insert_eq; done.
  - destruct (evictList (Add k exp v l)) as [|y ys]; simpl in *.
    + injection Hsplit as _ Hnil. discriminate.
    + by injection Hsplit as <- _.
Qed.

(** A cache lookup that finds the entry expired removes it. *)
Lemma Get_expired l now k ent :
  wf l → items l !! k = Some ent →
  time.IsZero (expire ent) = false → time.le (expire ent) now →
  Get now k l = ((None, false), mkLRU (list_Remove ent (evictList l))
                                      (delete k (items l)) (size l)).
Proof.
  intros Hwf Hent Hset Hle. destruct (wf_key l k ent Hwf Hent) as [Hk Hin].
  unfold Get. rewrite Hent, Hset.
  apply wire_facts.After_false_iff in Hle. rewrite Hle. simpl.
  unfold removeElement, list_MoveToFront. cbn [evictList items size].
  f_equal. rewrite Hk. f_equal.
  unfold list_Remove at 1. rewrite filter_cons, decide_False by (intros Hne; by apply Hne).
  fold (list_Remove ent (list_Remove ent (evictList l))).
  apply list_Remove_fresh. rewrite keys_list_Remove, list_elem_of_filter. naive_solver.
Qed.


Lemma size_Get l now k : size (Get now k l).2 = size l.
Proof.
  unfold Get. destruct (items l !! k); [|done]. by destruct (_ || _).
Qed.

(** After a lookup that did not hit, the key is not resident. *)
Lemma Get_miss_absent l now k :
  wf l → (Get now k l).1.2 = false → items (Get now k l).2 !! k = None.
Proof.
  intros Hwf. unfold Get. destruct (items l !! k) as [ent|] eqn:Hent; [|done].
  destruct (wf_key l k ent Hwf Hent) as [Hk _].
  destruct (_ || _); simpl; [done|]. intros _. rewrite Hk. apply lookup_delete_eq.
Qed.

Lemma Get_absent l now k :
  items l !! k = None → Get now k l = ((None, false), l).
Proof. intros Hk. unfold Get. by rewrite Hk. Qed.

End order_facts.
End LRU_facts.

(** ** The facade *)
Module Store_facts.
Import binary_facts wire_facts LRU_facts.

Ltac munfold :=
  unfold mbind, mret, M_bind, M_ret, get_store, set_db, set_lru, emit,
    time_Now, next_fault, lift in *.

Lemma frame_refl w : frame w w.
Proof. by unfold frame. Qed.

Lemma frame_trans w1 w2 w3 : frame w1 w2 → frame w2 w3 → frame w1 w3.
Proof. unfold frame. intros (-> & -> & -> & ->) (-> & -> & -> & ->). done. Qed.

(** The function of [PutWithTTL] leaves the world alone, and what it
    returns without an error is the buckets with the record put. *)
Lemma PutWithTTL_fn_spec namespace key value ttl tx w :
  ∃ tx' err, PutWithTTL_fn namespace key value ttl tx w = Returned ((tx', err), w) ∧
    (err = None → written namespace key (record_of w value ttl) tx tx').
Proof.
  unfold PutWithTTL_fn, bolt.CreateBucketIfNotExists, record_of, written.
  case_decide; [by eexists _, _|].
  assert (Hput : ∀ tx1,
    <[namespace := <[key := (valueT_MarshalBinary (newValueT (now w) value ttl)).1]>
                     (default ∅ (tx1 !! namespace))]> tx1 =
    <[namespace := <[key := (valueT_MarshalBinary (newValueT (now w) value ttl)).1]>
                     (default ∅ (tx !! namespace))]> tx →
    ∃ tx' err,
      (t ← time_Now;
       let newvalue := newValueT t value ttl in
       let '(buf, err) := valueT_MarshalBinary newvalue in
       match err with
       | Some e => mret (tx1, Some e)
       | None => mret (bolt.Put tx1 namespace key buf)
       end) w = Returned ((tx', err), w) ∧
      (err = None →
       tx' = <[namespace := <[key := (valueT_MarshalBinary (newValueT (now w) value ttl)).1]>
                              (default ∅ (tx !! namespace))]> tx ∧
       Z.of_nat (length (valueT_MarshalBinary (newValueT (now w) value ttl)).1)
         <= bolt.MaxValueSize)).
  { intros tx1 Htx1. munfold. unfold valueT_MarshalBinary in *. cbn [fst] in *.
    unfold bolt.Put. case_decide; [by eexists _, _|].
    destruct (_ <? _); [by eexists _, _|].
    destruct (Z.ltb_spec bolt.MaxValueSize (Z.of_nat (length
      (binary.PutUint 4 (binary.int32 (Z.of_nat (length (Value (newValueT (now w) value ttl)))))
       ++ Value (newValueT (now w) value ttl)
       ++ binary.PutUint 8 (time.Time_Unix (Expire (newValueT (now w) value ttl)))))))
      as [Hbig|Hok]; [by eexists _, _|].
    eexists _, _. split; [done|]. intros _. split; [exact Htx1|lia]. }
  pose proof (Hput tx eq_refl) as Hsome.
  pose proof (Hput (<[namespace := ∅]> tx)) as Hnone. clear Hput.
  destruct (tx !! namespace) as [bk|] eqn:Hb.
  - exact Hsome.
  - apply Hnone. rewrite lookup_insert_eq, insert_insert_eq. done.
Qed.

(** One transaction of [db.Update] with a function that leaves the world
    alone: a failed one leaves the buckets alone too. *)
Lemma db_Update_spec (fn : bolt.Tx → M (bolt.Tx * option error))
    (P : World → bolt.Tx → bolt.Tx → Prop) w :
  (∀ tx w0, ∃ tx' err, fn tx w0 = Returned ((tx', err), w0) ∧ (err = None → P w0 tx tx')) →
  ∃ r w', db_Update fn w = Returned (r, w') ∧
    frame w w' ∧ trace w' = EvUpdate :: trace w ∧
    match r with
    | Some _ => bolt.buckets (db (store w')) = bolt.buckets (db (store w))
    | None => ∃ w0, frame w w0 ∧
                P w0 (bolt.buckets (db (store w))) (bolt.buckets (db (store w')))
    end.
Proof.
  intros Hfn. destruct w as [[o [b fs] l] t tr].
  unfold db_Update, frame. munfold. simpl.
  destruct (readOnly o); [by eexists _, _|].
  destruct fs as [|[e|] fs]; simpl; [|by eexists _, _|].
  - destruct (Hfn b (mkWorld (mkStore o (bolt.mkDB b []) l) t (EvUpdate :: tr)))
      as (tx' & err & -> & HP).
    destruct err as [e|]; [by eexists _, _|]. simpl.
    eexists None, _. split; [done|]. simpl. do 2 (split; [done|]).
    eexists. split; [|by apply HP]. done.
  - destruct (Hfn b (mkWorld (mkStore o (bolt.mkDB b fs) l) t (EvUpdate :: tr)))
      as (tx' & err & -> & HP).
    destruct err as [e|]; [by eexists _, _|]. simpl.
    eexists None, _. split; [done|]. simpl. do 2 (split; [done|]).
    eexists. split; [|by apply HP]. done.
Qed.

(** The retry loop over such a transaction. *)
Lemma retry_spec (fn : bolt.Tx → M (bolt.Tx * option error))
    (P : World → bolt.Tx → bolt.Tx → Prop) (n : nat) :
  (∀ tx w0, ∃ tx' err, fn tx w0 = Returned ((tx', err), w0) ∧ (err = None → P w0 tx tx')) →
  ∀ err w,
  ∃ r w', retry n (db_Update fn) err w = Returned (r, w') ∧
    frame w w' ∧
    match r with
    | Some e => bolt.buckets (db (store w')) = bolt.buckets (db (store w)) ∧
                (n = 0%nat → err = Some e)
    | None => (n = 0%nat ∧ err = None ∧ w' = w) ∨
              ∃ w0, frame w w0 ∧
                P w0 (bolt.buckets (db (store w))) (bolt.buckets (db (store w')))
    end.
Proof.
  intros Hfn. induction n as [|n IH]; intros err w.
  - simpl. exists err, w. split; [done|]. split; [apply frame_refl|].
    destruct err; [done|]. by left.
  - cbn [retry]. unfold mbind at 1, M_bind at 1.
    destruct (db_Update_spec fn P w Hfn) as (r & w1 & -> & Hfr & _ & Hr).
    destruct r as [e|].
    + destruct (IH (Some e) w1) as (r' & w' & -> & Hfr' & Hr').
      exists r', w'. split; [done|]. split; [by eapply frame_trans|].
      destruct r' as [e'|].
      * destruct Hr' as [Hb _]. split; [congruence|done].
      * destruct Hr' as [(_ & ? & _)|(w0 & Hfr0 & HP)]; [done|]. right.
        exists w0. split; [by eapply frame_trans|]. by rewrite <- Hr.
    + exists None, w1. split; [done|]. split; [done|]. by right.
Qed.


Lemma PutWithTTL_spec namespace key value ttl w :
  1 <= numRetries (opt (store w)) →
  ∃ r w', PutWithTTL namespace key value ttl w = Returned (r, w') ∧
    frame w w' ∧
    match r with
    | Some e => (∃ e', e = ErrPut key e') ∧
                bolt.buckets (db (store w')) = bolt.buckets (db (store w))
    | None => written namespace key (record_of w value ttl)
                (bolt.buckets (db (store w))) (bolt.buckets (db (store w')))
    end.
Proof.
  intros Hn. unfold PutWithTTL. unfold get_store, mbind at 1 2, M_bind at 1 2.
  destruct (retry_spec (PutWithTTL_fn namespace key value ttl)
              (λ w0 tx tx', written namespace key (record_of w0 value ttl) tx tx')
              (Z.to_nat (numRetries (opt (store w))))
              (λ tx w0, PutWithTTL_fn_spec namespace key value ttl tx w0) None w)
    as (r & w' & -> & Hfr & Hr).
  destruct r as [e|].
  - eexists _, _. split; [done|]. split; [done|]. destruct Hr as [Hb _]. eauto.
  - eexists _, _. split; [done|]. split; [done|].
    destruct Hr as [(Hz & _)|(w0 & Hfr0 & HP)]; [lia|].
    unfold record_of in *. destruct Hfr0 as (_ & _ & <- & _). done.
Qed.

(** A transaction on a writable database that meets no fault, with a
    function that returns no error, commits. *)
Lemma db_Update_healthy (fn : bolt.Tx → M (bolt.Tx * option error)) w :
  readOnly (opt (store w)) = false → no_fault w →
  (∀ w0, now w0 = now w →
         ∃ tx', fn (bolt.buckets (db (store w))) w0 = Returned ((tx', None), w0)) →
  ∃ w', db_Update fn w = Returned (None, w') ∧
        bolt.faults (db (store w')) = tail (bolt.faults (db (store w))).
Proof.
  destruct w as [[o [b fs] l] t tr]. unfold no_fault. simpl. intros Hro Hnf Hfn.
  unfold db_Update. munfold. simpl. rewrite Hro.
  destruct fs as [|[e|] fs]; simpl in *; [|done|].
  - destruct (Hfn (mkWorld (mkStore o (bolt.mkDB b []) l) t (EvUpdate :: tr)) eq_refl)
      as [tx' ->]. by eexists.
  - destruct (Hfn (mkWorld (mkStore o (bolt.mkDB b fs) l) t (EvUpdate :: tr)) eq_refl)
      as [tx' ->]. by eexists.
Qed.

(** [PutWithTTL] succeeds at the first attempt on a writable database
    that meets no fault, for a bucket name, a key and a record within the
    limits of the engine. *)
Lemma PutWithTTL_healthy namespace key value ttl w :
  1 <= numRetries (opt (store w)) →
  readOnly (opt (store w)) = false → no_fault w →
  namespace ≠ "" → key ≠ "" →
  Z.of_nat (String.length key) <= bolt.MaxKeySize →
  Z.of_nat (length (record_of w value ttl)) <= bolt.MaxValueSize →
  ∃ w', PutWithTTL namespace key value ttl w = Returned (None, w') ∧
        bolt.faults (db (store w')) = tail (bolt.faults (db (store w))).
Proof.
  intros Hn Hro Hnf Hns Hkey Hklen Hvlen.
  unfold PutWithTTL. unfold get_store, mbind at 1 2, M_bind at 1 2.
  destruct (Z.to_nat (numRetries (opt (store w)))) as [|n] eqn:Hretries; [lia|].
  cbn [retry]. unfold mbind at 1, M_bind at 1.
  destruct (db_Update_healthy (PutWithTTL_fn namespace key value ttl) w Hro Hnf)
    as (w' & -> & Hfs); [|by eexists].
  intros w0 Hnow. unfold PutWithTTL_fn, bolt.CreateBucketIfNotExists.
  rewrite decide_False by done.
  assert (Hput : ∀ tx1, ∃ tx',
    (t ← time_Now;
     let newvalue := newValueT t value ttl in
     let '(buf, err) := valueT_MarshalBinary newvalue in
     match err with
     | Some e => mret (tx1, Some e)
     | None => mret (bolt.Put tx1 namespace key buf)
     end) w0 = Returned ((tx', None), w0)).
  { intros tx1. munfold. rewrite Hnow. unfold record_of in Hvlen.
    unfold valueT_MarshalBinary in *. cbn [fst] in *.
    unfold bolt.Put. rewrite decide_False by done.
    destruct (Z.ltb_spec bolt.MaxKeySize (Z.of_nat (String.length key))); [lia|].
    destruct (Z.ltb_spec bolt.MaxValueSize (Z.of_nat (length
      (binary.PutUint 4 (binary.int32 (Z.of_nat (length (Value (newValueT (now w) value ttl)))))
       ++ Value (newValueT (now w) value ttl)
       ++ binary.PutUint 8 (time.Time_Unix (Expire (newValueT (now w) value ttl)))))));
      [lia|]. by eexists. }
  destruct (bolt.buckets (db (store w)) !! namespace); apply Hput.
Qed.

Lemma tryAddToLRU_spec key value ttl w :
  tryAddToLRU key value ttl w =
    Returned (tt, with_lru (LRU.Add key (cache_expiry (now w) ttl) value <$> lru (store w)) w).
Proof.
  destruct w as [[o d l] t tr]. unfold tryAddToLRU, with_lru, cache_expiry. munfold.
  simpl. by destruct l.
Qed.


(** The read of the engine, case by case. *)
Lemma get_spec namespace key w :
  match hd None (bolt.faults (db (store w))) with
  | Some e => get namespace key w = Returned ((mkValueT [] time.zero, Some e), after_view w)
  | None =>
      match stored w namespace key with
      | None => get namespace key w =
                  Returned ((mkValueT [] time.zero, Some ErrKeyNotFound), after_view w)
      | Some rec =>
          match valueT_UnmarshalBinary (mkValueT [] time.zero) rec with
          | Returned (v, _) => get namespace key w = Returned ((v, None), after_view w)
          | Panicked msg => get namespace key w = Panicked msg
          end
      end
  end.
Proof.
  destruct w as [[o [b fs] l] t tr].
  unfold get, db_View, stored, after_view, bolt.Bucket, bolt.Get. munfold. simpl.
  destruct fs as [|[e|] fs]; simpl; [|done|].
  - destruct (b !! namespace) as [bk|]; simpl; [|done].
    destruct (bk !! key) as [rec|]; simpl; [|done].
    destruct (valueT_UnmarshalBinary _ rec) as [[v uerr]|msg]; done.
  - destruct (b !! namespace) as [bk|]; simpl; [|done].
    destruct (bk !! key) as [rec|]; simpl; [|done].
    destruct (valueT_UnmarshalBinary _ rec) as [[v uerr]|msg]; done.
Qed.


Section facade_facts.
Context {T : Type} `{!BinaryMarshaler T} `{!BinaryUnmarshaler T}.
Implicit Types (o : T) (w : World).

Lemma UpdateWithTTL_spec key (v : T) buf ttl w :
  1 <= numRetries (opt (store w)) → MarshalBinary v = (buf, None) →
  ∃ r w', UpdateWithTTL key (Some v) ttl w = Returned (r, w') ∧
    opt (store w') = opt (store w) ∧ now w' = now w ∧
    computes (trace w') = computes (trace w) ∧
    match r with
    | Some e => (∃ e', e = ErrPut key e') ∧ lru (store w') = lru (store w) ∧
                bolt.buckets (db (store w')) = bolt.buckets (db (store w))
    | None => written _defaultBucket key (record_of w buf ttl)
                (bolt.buckets (db (store w))) (bolt.buckets (db (store w'))) ∧
              lru (store w') =
                LRU.Add key (cache_expiry (now w) ttl) buf <$> lru (store w)
    end.
Proof.
  intros Hn Hbuf. unfold UpdateWithTTL. rewrite Hbuf.
  unfold mbind at 1, M_bind at 1.
  destruct (PutWithTTL_spec _defaultBucket key buf ttl w Hn)
    as (r & w1 & -> & (Ho & Hl & Ht & Hc) & Hr).
  destruct r as [e|].
  - eexists _, _. split; [done|]. destruct Hr as [He Hb]. done.
  - unfold mbind, M_bind. rewrite tryAddToLRU_spec.
    eexists _, _. split; [done|]. unfold with_lru. simpl.
    rewrite Ht, Hl. done.
Qed.

(** [UpdateWithTTL] succeeds under the same conditions. *)
Lemma UpdateWithTTL_healthy key (v : T) buf ttl w :
  1 <= numRetries (opt (store w)) →
  readOnly (opt (store w)) = false → no_fault w →
  MarshalBinary v = (buf, None) →
  key ≠ "" → Z.of_nat (String.length key) <= bolt.MaxKeySize →
  Z.of_nat (length buf) + 12 <= bolt.MaxValueSize →
  ∃ w', UpdateWithTTL key (Some v) ttl w = Returned (None, w') ∧
        bolt.faults (db (store w')) = tail (bolt.faults (db (store w))).
Proof.
  intros Hn Hro Hnf Hbuf Hkey Hklen Hvlen. unfold UpdateWithTTL. rewrite Hbuf.
  unfold mbind at 1, M_bind at 1.
  destruct (PutWithTTL_healthy _defaultBucket key buf ttl w) as (w1 & -> & Hfs);
    [done..| |].
  { unfold record_of. rewrite MarshalBinary_length.
    assert (Value (newValueT (now w) buf ttl) = buf) as ->
      by (unfold newValueT; by destruct (ttl =? 0)).
    lia. }
  unfold mbind, M_bind. rewrite tryAddToLRU_spec. by eexists.
Qed.

(** Every return of the slow path of [Load] is after one read
    transaction, and nothing else has changed. *)
Lemma Load_persistent_world key o w r w' :
  Load_persistent key o w = Returned (r, w') → w' = after_view w.
Proof.
  unfold Load_persistent. unfold mbind at 1, M_bind at 1.
  pose proof (get_spec _defaultBucket key w) as Hget.
  destruct (hd None _) as [e|].
  { rewrite Hget. munfold. by intros [= _ <-]. }
  destruct (stored w _ key) as [rec|].
  - destruct (valueT_UnmarshalBinary _ rec) as [[v uerr]|msg]; rewrite Hget; [|done].
    munfold. simpl. destruct (isExpired _ v); [by intros [= _ <-]|].
    destruct (UnmarshalBinary o (Value v)). by intros [= _ <-].
  - rewrite Hget. munfold. by intros [= _ <-].
Qed.

(** The slow path on a record that decodes and has not expired. *)
Lemma Load_persistent_ok key o w rec v uerr :
  no_fault w → stored w _defaultBucket key = Some rec →
  valueT_UnmarshalBinary (mkValueT [] time.zero) rec = Returned (v, uerr) →
  isExpired (now w) v = false →
  Load_persistent key o w =
    Returned ((Some (UnmarshalBinary o (Value v)).1, (UnmarshalBinary o (Value v)).2),
              after_view w).
Proof.
  intros Hf Hrec Hdec Hexp. unfold Load_persistent. unfold mbind at 1, M_bind at 1.
  pose proof (get_spec _defaultBucket key w) as Hget.
  unfold no_fault in Hf. rewrite Hf, Hrec, Hdec in Hget. rewrite Hget.
  munfold. simpl. rewrite Hexp. by destruct (UnmarshalBinary o (Value v)).
Qed.

(** A successful return of the slow path comes from a stored record
    that decoded and had not expired. *)
Lemma Load_persistent_success key o w obj w' :
  Load_persistent key o w = Returned ((obj, None), w') →
  ∃ rec v uerr,
    stored w _defaultBucket key = Some rec ∧
    valueT_UnmarshalBinary (mkValueT [] time.zero) rec = Returned (v, uerr) ∧
    isExpired (now w) v = false ∧
    UnmarshalBinary o (Value v) = (default o obj, None).
Proof.
  unfold Load_persistent. unfold mbind at 1, M_bind at 1.
  pose proof (get_spec _defaultBucket key w) as Hget.
  destruct (hd None _) as [e|].
  { rewrite Hget. munfold. done. }
  destruct (stored w _ key) as [rec|].
  - destruct (valueT_UnmarshalBinary _ rec) as [[v uerr]|msg] eqn:Hdec;
      rewrite Hget; [|done].
    munfold. simpl. destruct (isExpired _ v) eqn:Hexp; [done|].
    destruct (UnmarshalBinary o (Value v)) as [o' err] eqn:Hu.
    intros [= <- -> _]. by exists rec, v, uerr.
  - rewrite Hget. munfold. done.
Qed.

(** [Load], by what the cache lookup gives. *)
Lemma Load_cases key o w :
  Load key (Some o) w =
    match lru (store w) with
    | None => Load_persistent key o w
    | Some l =>
        match LRU.Get (now w) key l with
        | ((v, true), l') =>
            Returned ((Some (UnmarshalBinary o (default [] v)).1,
                       (UnmarshalBinary o (default [] v)).2), with_lru (Some l') w)
        | ((_, false), l') => Load_persistent key o (with_lru (Some l') w)
        end
    end.
Proof.
  unfold Load, lru_Get, with_lru. munfold.
  destruct (lru (store w)) as [l|]; [|done].
  destruct (LRU.Get (now w) key l) as [[v [|]] l']; [|done].
  by destruct (UnmarshalBinary o (default [] v)).
Qed.

(** [Load] never calls a compute function. *)
Lemma Load_computes key obj w r w' :
  Load key obj w = Returned (r, w') → computes (trace w') = computes (trace w).
Proof.
  destruct obj as [o|]; [|by intros [= _ <-]].
  rewrite Load_cases. destruct (lru (store w)) as [l|].
  - destruct (LRU.Get (now w) key l) as [[v [|]] l'].
    + by intros [= _ <-].
    + intros Hp. apply Load_persistent_world in Hp. by subst w'.
  - intros Hp. apply Load_persistent_world in Hp. by subst w'.
Qed.

End facade_facts.
End Store_facts.

(** ** The cache: capacity, lazy expiry, expiry of a resident entry *)
Section lru_claims.
Import LRU LRU_facts.
Context {V : Type}.

(** C3.  [Add] of a key that is not resident into a cache that holds
    as many entries as its capacity removes one entry and no more: the
    one at the back of the recency list.  So after a run of [Add] calls
    with distinct new keys no more entries than the capacity are
    resident, and they are the most recently touched ones. *)
Theorem Add_evicts_back_only (l : lru V) (puts : list (string * time.Time * V)) :
  wf l → 0 <= size l →
  NoDup (puts.*1.*1) → (∀ k, k ∈ puts.*1.*1 → items l !! k = None) →
  (∀ k exp v,
     items l !! k = None → list_Len (evictList l) = size l →
     ∃ back,
       last (mkEntry k exp v :: evictList l) = Some back ∧
       (0 < size l → last (evictList l) = Some back) ∧
       mkEntry k exp v :: evictList l = evictList (Add k exp v l) ++ [back] ∧
       items (Add k exp v l) = delete (key back) (<[k := mkEntry k exp v]> (items l)) ∧
       list_Len (evictList (Add k exp v l)) = size l) ∧
  list_Len (evictList (adds puts l)) <= size l ∧
  keys (adds puts l) = take (Z.to_nat (size l)) (reverse (puts.*1.*1) ++ keys l).
Proof.
  intros Hwf Hsize Hnd Hnew. split; [|split].
  - intros k exp v Hk Hfull.
    destruct (Add_new_full l k exp v Hwf Hk) as (b & Hlast & Hsplit & Hitems); [lia|].
    exists b. split; [done|]. split; [|split; [done|split; [done|]]].
    + intros Hpos.
      destruct (evictList l) as [|x es]; [|by rewrite last_cons_cons in Hlast].
      unfold list_Len in Hfull. simpl in Hfull. lia.
    + apply (f_equal length) in Hsplit. rewrite length_app in Hsplit.
      unfold list_Len in *. simpl in *. lia.
  - pose proof (wf_cap _ (wf_adds l puts Hwf)) as Hcap.
    rewrite size_adds in Hcap. lia.
  - rewrite keys_adds; [|done..|].
    + by rewrite Z.max_r.
    + intros k Hk. apply wf_absent; [done|]. by apply Hnew.
Qed.

(** C4.  [Get] of a resident entry whose expiry is set and is not after
    the clock removes the entry and reports not-found, which leaves one
    entry fewer; and a value [Get] returns is of an entry with no expiry
    or with an expiry after the clock. *)
Theorem Get_lazy_expiry (l : lru V) (now : time.Time) (k : string) :
  wf l →
  (∀ ent,
     items l !! k = Some ent →
     time.IsZero (expire ent) = false → time.le (expire ent) now →
     fst (Get now k l) = (None, false) ∧
     items (snd (Get now k l)) !! k = None ∧
     (k ∉ keys (snd (Get now k l))) ∧
     list_Len (evictList (snd (Get now k l))) = list_Len (evictList l) - 1) ∧
  (∀ v l',
     Get now k l = ((v, true), l') →
     ∃ ent, items l !! k = Some ent ∧ v = Some (value ent) ∧
            (time.IsZero (expire ent) = true ∨ ¬ time.le (expire ent) now)).
Proof.
  intros Hwf. split.
  - intros ent Hent Hset Hle. rewrite (Get_expired l now k ent) by done.
    destruct (wf_key l k ent Hwf Hent) as [Hk Hin]. unfold keys.
    cbn [fst snd items evictList].
    split; [done|]. split; [by rewrite lookup_delete_eq|]. split.
    + rewrite keys_list_Remove, list_elem_of_filter. naive_solver.
    + pose proof (length_list_Remove ent ent (evictList l) (wf_nodup l Hwf) Hin eq_refl).
      unfold list_Len. lia.
  - intros v l'. unfold Get. destruct (items l !! k) as [ent|]; [|done].
    destruct (time.IsZero (expire ent)) eqn:Hz; simpl.
    + intros [= <- _]. exists ent. auto.
    + destruct (time.After (expire ent) now) eqn:Ha; [|done].
      intros [= <- _]. exists ent. do 2 (split; [done|]). right.
      rewrite <- wire_facts.After_false_iff. congruence.
Qed.

End lru_claims.

(** ** The wire format of stored records *)
Section wire_claims.
Import binary binary_facts wire_facts Store_facts.

(** C6, amended.  A record [PutWithTTL] has persisted is the length of
    the value in four bytes, the value, and the Unix time of the expiry
    in eight bytes; for [ttl = 0] the expiry is Go's zero time, whose
    Unix time is -62135596800 (not 0) and which reads back as a time for
    which [IsZero] holds. *)
Theorem PutWithTTL_wire_layout (namespace key : string) (value : list byte) (ttl : Z)
    (w w' : World) :
  1 <= numRetries (opt (store w)) →
  PutWithTTL namespace key value ttl w = Returned (None, w') →
  ∃ rec expire,
    stored w' namespace key = Some rec ∧
    rec = PutUint 4 (Z.of_nat (length value)) ++ value ++ PutUint 8 expire ∧
    length (PutUint 4 (Z.of_nat (length value))) = 4%nat ∧
    int32 (Uint (PutUint 4 (Z.of_nat (length value)))) = Z.of_nat (length value) ∧
    length (PutUint 8 expire) = 8%nat ∧
    expire = time.Time_Unix (Expire (newValueT (now w) value ttl)) ∧
    expiry_field rec = expire ∧
    (ttl = 0 → expire = -62135596800 ∧ time.IsZero (time.Unix expire 0) = true).
Proof.
  intros Hn Hput.
  destruct (PutWithTTL_spec namespace key value ttl w Hn) as (r & w1 & Hput' & _ & Hr).
  rewrite Hput in Hput'. injection Hput' as <- <-.
  destruct Hr as [Hb Hlen].
  assert (Hval : Value (newValueT (now w) value ttl) = value).
  { unfold newValueT. by destruct (ttl =? 0). }
  pose proof (MarshalBinary_length (newValueT (now w) value ttl)) as Hl.
  fold (record_of w value ttl) in Hl. rewrite Hval in Hl.
  assert (Hsmall : - 2 ^ 31 <= Z.of_nat (length value) < 2 ^ 31).
  { unfold bolt.MaxValueSize in Hlen. lia. }
  exists (record_of w value ttl), (time.Time_Unix (Expire (newValueT (now w) value ttl))).
  split; [|split; [|split; [|split; [|split; [|split; [|split]]]]]].
  - unfold stored. rewrite Hb, lookup_insert_eq. simpl. by rewrite lookup_insert_eq.
  - unfold record_of, valueT_MarshalBinary. cbn [fst].
    by rewrite Hval, int32_small.
  - apply PutUint_length.
  - by apply int32_Uint_PutUint.
  - apply PutUint_length.
  - done.
  - unfold expiry_field. rewrite Hl.
    unfold record_of, valueT_MarshalBinary. cbn [fst]. rewrite Hval.
    rewrite app_assoc, drop_app_length'.
    + apply int64_Uint_PutUint, int64_range.
    + rewrite length_app, PutUint_length. lia.
  - intros ->. unfold newValueT. simpl. split; reflexivity.
Qed.

(** C10.  [UnmarshalBinary] panics on every input whose first four
    bytes are 0xff: the length prefix is -1 and [make] refuses it.  It
    panics on the inputs with a negative length prefix and on no other. *)
Theorem UnmarshalBinary_negative_length_panics (v : valueT) (rest : list byte) :
  valueT_UnmarshalBinary v (xff :: xff :: xff :: xff :: rest) =
    Panicked "makeslice: len out of range" ∧
  ∀ data, (∃ msg, valueT_UnmarshalBinary v data = Panicked msg) ↔
          (4 <= length data)%nat ∧ int32 (Uint (take 4 data)) < 0.
Proof.
  split.
  - reflexivity.
  - intros data. apply Unmarshal_panics_iff.
Qed.

End wire_claims.

(** ** The facade *)
Section store_claims.
Import binary_facts wire_facts LRU_facts Store_facts.
Context {T : Type} `{!BinaryMarshaler T} `{!BinaryUnmarshaler T}.

(** C7.  [MemoizeWithTTL] (and [Memoize]) returns a failure of [Load]
    other than [ErrKeyNotFound] and [ErrKeyExpired], and a success of
    [Load], as it is and in the world [Load] left, without a call of the
    compute function; a call of the compute function comes after a
    [Load] that failed with [ErrKeyNotFound] or [ErrKeyExpired]. *)
Theorem Memoize_computes_only_after_miss (key : string) (obj : option T)
    (f : unit → any T * option error) (ttl : Z) (w : World) :
  (∀ r w',
     Load key obj w = Returned (r, w') →
     r.2 ≠ Some ErrKeyNotFound → r.2 ≠ Some ErrKeyExpired →
     MemoizeWithTTL key obj f ttl w = Returned (r, w') ∧
     Memoize key obj f w = Returned (r, w') ∧
     computes (trace w') = computes (trace w)) ∧
  (∀ r w',
     MemoizeWithTTL key obj f ttl w = Returned (r, w') →
     computes (trace w') ≠ computes (trace w) →
     ∃ obj1 e w1, Load key obj w = Returned ((obj1, Some e), w1) ∧
                  (e = ErrKeyNotFound ∨ e = ErrKeyExpired)).
Proof.
  assert (Hpass : ∀ ttl' r w',
    Load key obj w = Returned (r, w') →
    r.2 ≠ Some ErrKeyNotFound → r.2 ≠ Some ErrKeyExpired →
    MemoizeWithTTL key obj f ttl' w = Returned (r, w')).
  { intros ttl' [obj1 err] w' HLoad Hnf Hexp. simpl in *.
    unfold MemoizeWithTTL. unfold mbind at 1, M_bind at 1. rewrite HLoad.
    destruct err as [e|]; [|done].
    rewrite !bool_decide_true by congruence. done. }
  split.
  - intros r w' HLoad Hnf Hexp. split; [by apply Hpass|]. split.
    + unfold Memoize. by apply Hpass.
    + by eapply Load_computes.
  - intros r w' Hmemo Hcount.
    destruct (Load key obj w) as [[[obj1 err] w1]|msg] eqn:HLoad; cycle 1.
    { unfold MemoizeWithTTL in Hmemo. unfold mbind at 1, M_bind at 1 in Hmemo.
      by rewrite HLoad in Hmemo. }
    destruct (decide (err = Some ErrKeyNotFound)) as [->|Hnf]; [by eauto 10|].
    destruct (decide (err = Some ErrKeyExpired)) as [->|Hexp]; [by eauto 10|].
    rewrite (Hpass ttl (obj1, err) w1 eq_refl Hnf Hexp) in Hmemo.
    injection Hmemo as <- <-. exfalso. apply Hcount. by eapply Load_computes.
Qed.

(** C8, amended.  With caching disabled, [Load] after an [Update] of [v]
    that returned no error, under the same key, succeeds and yields [v],
    for every codec that decodes what it encoded: encoding, record
    format, engine and decoding are a round trip.  And both calls do
    succeed on a writable engine without faults, for a key that is not
    empty and a key and a value within the size limits of the engine.
    [Update] does not succeed for every key: the engine refuses the empty
    one. *)
Theorem Update_Load_roundtrip (key : string) (v tgt : T) (buf : list byte)
    (w : World) (t : time.Time) :
  lru (store w) = None → 1 <= numRetries (opt (store w)) →
  MarshalBinary v = (buf, None) → UnmarshalBinary tgt buf = (v, None) →
  (∀ w1, Update key (Some v) w = Returned (None, w1) → no_fault w1 →
         ∃ w2, Load key (Some tgt) (at_time t w1) = Returned ((Some v, None), w2)) ∧
  (readOnly (opt (store w)) = false → bolt.faults (db (store w)) = [] →
   key ≠ "" → Z.of_nat (String.length key) <= bolt.MaxKeySize →
   Z.of_nat (length buf) + 12 <= bolt.MaxValueSize →
   ∃ w1 w2, Update key (Some v) w = Returned (None, w1) ∧
            Load key (Some tgt) (at_time t w1) = Returned ((Some v, None), w2)).
Proof.
  intros Hlru Hn Hbuf Hdec.
  assert (Hround : ∀ w1, Update key (Some v) w = Returned (None, w1) → no_fault w1 →
            ∃ w2, Load key (Some tgt) (at_time t w1) = Returned ((Some v, None), w2)).
  { intros w1 Hupd Hnf. unfold Update in Hupd.
    destruct (UpdateWithTTL_spec key v buf 0 w Hn Hbuf)
      as (r & w' & Hupd' & _ & _ & _ & Hr).
    rewrite Hupd in Hupd'. injection Hupd' as <- <-.
    destruct Hr as [[Hb Hlen] Hl]. rewrite Hlru in Hl. simpl in Hl.
    rewrite Load_cases. cbn [at_time store]. rewrite Hl.
    pose proof (MarshalBinary_length (newValueT (now w) buf 0)) as Hreclen.
    fold (record_of w buf 0) in Hreclen.
    change (newValueT (now w) buf 0) with (mkValueT buf time.zero) in Hreclen.
    cbn [Value] in Hreclen.
    rewrite (Load_persistent_ok key tgt _ (record_of w buf 0)
               (mkValueT buf (time.Unix (time.Time_Unix time.zero) 0)) None).
    - cbn [Value]. rewrite Hdec. by eexists.
    - exact Hnf.
    - unfold stored. cbn [at_time store]. rewrite Hb, lookup_insert_eq. simpl.
      by rewrite lookup_insert_eq.
    - unfold record_of. change (newValueT (now w) buf 0) with (mkValueT buf time.zero).
      apply Unmarshal_Marshal. cbn [Value]. unfold bolt.MaxValueSize in Hlen. lia.
    - apply isExpired_zero. }
  split; [exact Hround|].
  intros Hro Hfs Hkey Hklen Hvlen.
  destruct (UpdateWithTTL_healthy key v buf 0 w) as (w1 & Hupd & Hfs1);
    [done|done| |done|done|done|done|].
  { unfold no_fault. by rewrite Hfs. }
  destruct (Hround w1 Hupd) as [w2 HLoad].
  { unfold no_fault. rewrite Hfs1, Hfs. done. }
  by exists w1, w2.
Qed.


(** C2, amended.  [UpdateWithTTL] returns.  When it returns no error the
    record is in the engine and the cache entry was added after that;
    when it returns an error neither the engine nor the cache has
    changed, and a later [Load] of the key, if the key was not resident
    in the cache before the call, goes to the engine with one read
    transaction. *)
Theorem Update_persist_then_cache (key : string) (value : option T) (ttl : Z) (w : World) :
  1 <= numRetries (opt (store w)) →
  ∃ r w', UpdateWithTTL key value ttl w = Returned (r, w') ∧
    match r with
    | None =>
        ∃ v buf, value = Some v ∧ MarshalBinary v = (buf, None) ∧
          stored w' _defaultBucket key = Some (record_of w buf ttl) ∧
          lru (store w') = LRU.Add key (cache_expiry (now w) ttl) buf <$> lru (store w)
    | Some e =>
        lru (store w') = lru (store w) ∧
        bolt.buckets (db (store w')) = bolt.buckets (db (store w)) ∧
        ∀ (t : time.Time) (o : T),
          match lru (store w) with
          | None => True
          | Some l => LRU.items l !! key = None
          end →
          Load key (Some o) (at_time t w') = Load_persistent key o (at_time t w') ∧
          ∀ res w'', Load key (Some o) (at_time t w') = Returned (res, w'') →
                     trace w'' = EvView :: trace w'
    end.
Proof.
  intros Hn.
  assert (Hmiss : ∀ w' t o,
    lru (store w') = lru (store w) →
    match lru (store w) with
    | None => True
    | Some l => LRU.items l !! key = None
    end →
    Load key (Some o) (at_time t w') = Load_persistent key o (at_time t w') ∧
    ∀ res w'', Load key (Some o) (at_time t w') = Returned (res, w'') →
               trace w'' = EvView :: trace w').
  { intros w' t o Hl Hk.
    assert (HLoad : Load key (Some o) (at_time t w') = Load_persistent key o (at_time t w')).
    { rewrite Load_cases. cbn [at_time store now]. rewrite Hl.
      destruct (lru (store w)) as [l|] eqn:Hlw; [|done].
      rewrite Get_absent by done.
      destruct w' as [[o' d' l'] t' tr']. simpl in Hl. subst l'. done. }
    split; [done|]. intros res w'' Hres. rewrite HLoad in Hres.
    apply Load_persistent_world in Hres. by subst w''. }
  destruct value as [v|]; cycle 1.
  { exists (Some ErrBadValue), w. split; [done|]. split; [done|]. split; [done|].
    intros t o. by apply Hmiss. }
  destruct (MarshalBinary v) as [buf [e|]] eqn:Hbuf.
  { exists (Some e), w. split; [unfold UpdateWithTTL; by rewrite Hbuf|].
    split; [done|]. split; [done|]. intros t o. by apply Hmiss. }
  destruct (UpdateWithTTL_spec key v buf ttl w Hn Hbuf) as (r & w' & Hupd & _ & _ & _ & Hr).
  exists r, w'. split; [done|]. destruct r as [e|].
  - destruct Hr as (_ & Hl & Hb). split; [done|]. split; [done|].
    intros t o. by apply Hmiss.
  - destruct Hr as [[Hb _] Hl]. exists v, buf. do 2 (split; [done|]). split; [|done].
    unfold stored. rewrite Hb, lookup_insert_eq. simpl. by rewrite lookup_insert_eq.
Qed.

(** C5, amended.  A [Load] that does not hit the cache and succeeds has
    decoded the record the engine holds, which has not expired, and
    leaves the cache as the lookup left it, without the key: this [Load]
    does not populate the cache.  The [Load] of the gob revision does: on
    such a call with a cache of positive capacity the loaded object is
    the entry at the front of the cache afterwards. *)
Theorem Load_miss_cache (key : string) (o : T) :
  (∀ (w w' : World) (obj : option T),
     opened (store w) → cache_miss w key →
     Load key (Some o) w = Returned ((obj, None), w') →
     (∃ rec valT uerr,
        stored w _defaultBucket key = Some rec ∧
        valueT_UnmarshalBinary (mkValueT [] time.zero) rec = Returned (valT, uerr) ∧
        isExpired (now w) valT = false ∧
        UnmarshalBinary o (Value valT) = (default o obj, None)) ∧
     lru (store w') = (λ l, (LRU.Get (now w) key l).2) <$> lru (store w) ∧
     ∀ l', lru (store w') = Some l' → LRU.items l' !! key = None) ∧
  (∀ decode_valueT decode assign remaining (now : time.Time)
     (s s' : Gob.Store T) (l : LRU.lru (Gob.cached T)) (obj : option T),
     Gob.lru s = Some l → LRU.wf l → 0 < LRU.size l →
     (LRU.Get now key l).1.2 = false →
     Gob.Load decode_valueT decode assign remaining now key (Some o) s =
       Returned ((obj, None), s') →
     ∃ o' l' exp,
       obj = Some o' ∧ Gob.lru s' = Some l' ∧
       LRU.items l' !! key = Some (LRU.mkEntry key exp (Gob.Pointer o')) ∧
       head (LRU.evictList l') = Some (LRU.mkEntry key exp (Gob.Pointer o'))).
Proof.
  split.
  - intros w w' obj Hop Hmiss HLoad. rewrite Load_cases in HLoad.
    unfold cache_miss in Hmiss.
    destruct (lru (store w)) as [l|] eqn:Hl.
    + destruct (opened_lru _ Hop l Hl) as [Hwf _].
      pose proof (Get_miss_absent l (now w) key Hwf Hmiss) as Habs.
      destruct (LRU.Get (now w) key l) as [[v ok] l1] eqn:HG.
      simpl in Hmiss, Habs. subst ok.
      pose proof (Load_persistent_world _ _ _ _ _ HLoad) as ->.
      apply Load_persistent_success in HLoad. simpl. rewrite HG.
      split; [exact HLoad|]. split; [done|]. by intros l' [= <-].
    + pose proof (Load_persistent_world _ _ _ _ _ HLoad) as ->.
      apply Load_persistent_success in HLoad. simpl. split; [exact HLoad|].
      rewrite Hl. done.
  - intros decode_valueT decode assign remaining now s s' l obj Hl Hwf Hsize Hmiss HLoad.
    unfold Gob.Load in HLoad. rewrite Hl in HLoad.
    pose proof (Get_miss_absent l now key Hwf Hmiss) as Habs.
    pose proof (wf_Get l now key Hwf) as Hwf1.
    pose proof (size_Get l now key) as Hsize1.
    destruct (LRU.Get now key l) as [[v ok] l1]. simpl in Hmiss, Habs, Hwf1, Hsize1.
    subst ok. unfold Gob.get in HLoad. cbn [Gob.db Gob.opt Gob.lru] in HLoad.
    destruct v as [v|];
      (destruct (hd None (bolt.faults (Gob.db s))) as [e|]; [done|];
       destruct (bolt.Bucket _ _) as [bucket|]; [|done];
       destruct (bolt.Get bucket key) as [val|]; [|done];
       destruct (decode_valueT val) as [valT [e|]]; [done|];
       destruct (negb _ && _); [done|];
       destruct (decode o (Value valT)) as [o' [e|]]; [done|];
       injection HLoad as <- <-;
       unfold Gob.tryAddToLRU; cbn [Gob.lru];
       eexists o', _, _; split; [done|]; split; [done|];
       apply Add_new_front; [done..|lia]).
Qed.

End store_claims.

(** ** Opened stores *)
Section opened_facts.
Import LRU_facts.

Lemma apply_opts_retries opts o o' :
  0 <= numRetries o <= 255 →
  (∀ f o1 o2 e, f ∈ opts → 0 <= numRetries o1 <= 255 → f o1 = (o2, e) →
                0 <= numRetries o2 <= 255) →
  apply_opts opts o = inl o' → 0 <= numRetries o' <= 255.
Proof.
  revert o. induction opts as [|f opts IH]; intros o Ho Hf; simpl.
  - by intros [= <-].
  - destruct (f o) as [o1 [e|]] eqn:Hfo; [done|]. apply IH.
    + eapply Hf; [left|done..].
    + intros g o2 o3 e Hg. apply Hf. by right.
Qed.

(** [Open] gives a store with one to 255 write attempts and, when it has
    a cache, an empty one of positive capacity. *)
Lemma Open_opened file opts s :
  (∀ f o1 o2 e, f ∈ opts → 0 <= numRetries o1 <= 255 → f o1 = (o2, e) →
                0 <= numRetries o2 <= 255) →
  Open file opts = inl s → opened s.
Proof.
  intros Hf. unfold Open.
  destruct (apply_opts opts _) as [o|e] eqn:Hopts; [|done].
  apply apply_opts_retries in Hopts; [|simpl; lia|done].
  destruct file as [d|e]; [|done]. intros [= <-]. split; cbn [opt lru].
  - destruct (Z.eqb_spec (numRetries o) 0); simpl; [unfold _defaultNumRetries|]; lia.
  - intros l. destruct (Z.eqb_spec (numRetries o) 0); cbn [maxCacheSize].
    + destruct (Z.ltb_spec 0 (maxCacheSize o)); [|done].
      intros [= <-]. split; [apply wf_newLRU|done].
    + destruct (Z.ltb_spec 0 (maxCacheSize o)); [|done].
      intros [= <-]. split; [apply wf_newLRU|done].
Qed.

Lemma opened_on_opened d cache : opened (Ex.opened_on d cache).
Proof.
  unfold Ex.opened_on.
  destruct (Open _ _) as [s|e] eqn:HO.
  - eapply Open_opened; [|exact HO].
    intros f o1 o2 e Hin Ho1. apply list_elem_of_singleton in Hin as ->.
    unfold WithMaxCacheSize. by intros [= <- _].
  - split; simpl; [unfold _defaultNumRetries; lia|done].
Qed.

Context {T : Type} `{!BinaryMarshaler T} `{!BinaryUnmarshaler T}.

Lemma opened_with_lru w l l' :
  opened (store w) → lru (store w) = Some l →
  LRU.wf l' → LRU.size l' = LRU.size l → opened (store (with_lru (Some l') w)).
Proof.
  intros [Hn Hl] Hlw Hwf Hsize. split; cbn [with_lru store opt lru]; [done|].
  intros ? [= <-]. split; [done|]. rewrite Hsize. by apply (Hl l).
Qed.

(** The facade keeps a store as [Open] made it. *)
Lemma opened_UpdateWithTTL key (value : option T) ttl w r w' :
  opened (store w) → UpdateWithTTL key value ttl w = Returned (r, w') →
  opened (store w').
Proof.
  intros Hop Hupd. destruct value as [v|]; [|by injection Hupd as _ <-].
  destruct (MarshalBinary v) as [buf [e|]] eqn:Hbuf.
  { unfold UpdateWithTTL in Hupd. rewrite Hbuf in Hupd. by injection Hupd as _ <-. }
  destruct Hop as [Hn Hl].
  destruct (Store_facts.UpdateWithTTL_spec key v buf ttl w (proj1 Hn) Hbuf)
    as (r1 & w1 & Hupd1 & Ho & _ & _ & Hr).
  rewrite Hupd in Hupd1. injection Hupd1 as <- <-.
  split; [by rewrite Ho|]. intros l' Hl'. destruct r as [e|].
  - destruct Hr as (_ & Hlru & _). rewrite Hlru in Hl'. by apply Hl.
  - destruct Hr as [_ Hlru]. rewrite Hlru in Hl'.
    destruct (lru (store w)) as [l|] eqn:Hlw; [|done]. injection Hl' as <-.
    destruct (Hl l eq_refl) as [Hwf Hsize]. split; [by apply wf_Add|].
    by rewrite size_Add.
Qed.

Lemma opened_Load key (obj : option T) w r w' :
  opened (store w) → Load key obj w = Returned (r, w') → opened (store w').
Proof.
  intros Hop HLoad. destruct obj as [o|]; [|by injection HLoad as _ <-].
  rewrite Store_facts.Load_cases in HLoad.
  destruct (lru (store w)) as [l|] eqn:Hlw.
  - destruct (opened_lru _ Hop l Hlw) as [Hwf Hsize].
    pose proof (wf_Get l (now w) key Hwf) as Hwf1.
    pose proof (size_Get l (now w) key) as Hsize1.
    destruct (LRU.Get (now w) key l) as [[v ok] l1]. simpl in Hwf1, Hsize1.
    pose proof (opened_with_lru w l l1 Hop Hlw Hwf1 Hsize1) as Hop1.
    destruct ok.
    + by injection HLoad as _ <-.
    + apply Store_facts.Load_persistent_world in HLoad. subst w'.
      destruct Hop1 as [Hn1 Hl1]. by split.
  - apply Store_facts.Load_persistent_world in HLoad. subst w'.
    destruct Hop as [Hn Hl]. split; [done|]. cbn [after_view store lru]. by rewrite Hlw.
Qed.

End opened_facts.

(** ** The scenarios *)
Section scenarios.
Import Ex LRU_facts.

(** The run of the package's cache test: capacity 2, three keys added
    and the last one added again. *)
Example TestLRU :
  let l := LRU.adds [("key1", time.zero, "value1"); ("key2", time.zero, "value2");
                     ("key3", time.zero, "value3"); ("key3", time.zero, "value3")]
             (LRU.newLRU 2) in
  fst (LRU.Get t0 "key1" l) = (None, false) ∧
  fst (LRU.Get t0 "key2" l) = (Some "value2", true) ∧
  fst (LRU.Get t0 "key3" l) = (Some "value3", true) ∧
  fst (LRU.Get t0 "key2" (LRU.Delete "key2" l)) = (None, false).
Proof. by vm_compute. Qed.

(** Capacity 2: after ["a"], ["b"], ["c"] the key ["a"] is gone; a lookup
    of ["b"] and then ["d"] removes ["c"] and keeps ["b"]. *)
Example lru_order :
  let l := LRU.adds [("a", time.zero, 1%nat); ("b", time.zero, 2%nat);
                     ("c", time.zero, 3%nat)] (LRU.newLRU 2) in
  LRU.keys l = ["c"; "b"] ∧
  LRU.keys (LRU.Add "d" time.zero 4%nat (snd (LRU.Get t0 "b" l))) = ["d"; "b"].
Proof. by vm_compute. Qed.

(** [UpdateWithTTL] with a [ttl] of one second: [Load] at the same time
    gives the value, [Load] two seconds later [ErrKeyExpired]. *)
Example ttl_expiry :
  let w := run (UpdateWithTTL "k" (Some [x01]) 1) (world 0 []) in
  (∃ w', Load "k" (Some []) w = Returned ((Some [x01], None), w')) ∧
  (∃ w', Load "k" (Some []) (at_time (time.Add t0 (time.seconds 2)) w) =
         Returned ((Some [], Some ErrKeyExpired), w')).
Proof. split; eexists; by vm_compute. Qed.

(** [Memoize] of an absent key computes and persists; a second [Memoize]
    does not call its compute function. *)
Example TestMemoize :
  let f1 := λ _ : unit, (AnyMarshaler [x58], None) in
  let f2 := λ _ : unit, (AnyNil, Some (ErrUser "should not be called")) in
  let w1 := run (Memoize "x" (Some []) f1) (world 0 []) in
  (∃ w', Memoize "x" (Some []) f1 (world 0 []) = Returned ((Some [x58], None), w') ∧
         computes (trace w') = 1%nat) ∧
  (∃ w', Memoize "x" (Some []) f2 w1 = Returned ((Some [x58], None), w') ∧
         computes (trace w') = 1%nat).
Proof. split; eexists; split; by vm_compute. Qed.

(** Capacity 2 holding ["a"] and ["b"]: adding ["c"] leaves ["c"] and
    ["b"], most recent first. *)
Lemma Add_evicts_back_only_witness :
  LRU.list_Len (LRU.evictList (LRU.adds [("c", time.zero, 3%nat)] full)) <= LRU.size full ∧
  LRU.keys (LRU.adds [("c", time.zero, 3%nat)] full) = ["c"; "b"].
Proof.
  assert (Hwf : LRU.wf full) by apply wf_adds, wf_newLRU.
  destruct (Add_evicts_back_only full [("c", time.zero, 3%nat)] Hwf)
    as (_ & Hlen & Hkeys).
  - by vm_compute.
  - apply NoDup_singleton.
  - intros k Hk. apply list_elem_of_singleton in Hk. rewrite Hk. by vm_compute.
  - split; [exact Hlen|]. rewrite Hkeys. by vm_compute.
Defined.

(** An entry that expires one second after [t0], looked up at that
    time: not found, and removed. *)
Lemma Get_lazy_expiry_witness :
  fst (LRU.Get (time.Add t0 (time.seconds 1)) "a" expiring) = (None, false) ∧
  LRU.list_Len (LRU.evictList (snd (LRU.Get (time.Add t0 (time.seconds 1)) "a" expiring)))
    = LRU.list_Len (LRU.evictList expiring) - 1.
Proof.
  assert (Hwf : LRU.wf expiring) by apply wf_Add, wf_newLRU.
  destruct (Get_lazy_expiry expiring (time.Add t0 (time.seconds 1)) "a" Hwf) as [Hexp _].
  destruct (Hexp (LRU.mkEntry "a" (time.Add t0 (time.seconds 1)) 1%nat))
    as (Hres & _ & _ & Hlen).
  - by vm_compute.
  - by vm_compute.
  - right. split; [reflexivity|]. by vm_compute.
  - split; [exact Hres | exact Hlen].
Defined.

(** A failed [Update] of a key the cache holds: the cache keeps the old
    bytes, and the next [Load] returns them from the cache without a
    read of the engine. *)
Lemma Load_after_failed_Update_hits_cache :
  Update "k" (Some [x02]) cached = Returned (Some (ErrPut "k" disk_full), failed) ∧
  lru (store failed) = lru (store cached) ∧
  ∃ w', Load "k" (Some []) failed = Returned ((Some [x01], None), w') ∧
        trace w' = trace failed.
Proof.
  split; [by vm_compute|]. split; [by vm_compute|].
  exists (run (Load "k" (Some [])) failed). split; by vm_compute.
Qed.

Lemma Update_persist_then_cache_witness :
  ∃ r w', UpdateWithTTL "k" (Some [x02]) 0 cached = Returned (r, w') ∧
          lru (store w') = lru (store cached).
Proof.
  destruct (Update_persist_then_cache "k" (Some [x02]) 0 cached) as (r & w' & Hupd & Hr).
  - by vm_compute.
  - exists r, w'. split; [exact Hupd|].
    assert (Hfail : UpdateWithTTL "k" (Some [x02]) 0 cached =
                    Returned (Some (ErrPut "k" disk_full), failed)) by (by vm_compute).
    rewrite Hfail in Hupd. injection Hupd as <- <-. by destruct Hr as [Hl _].
Defined.

(** A record in the engine, a store opened on it with an empty cache of
    capacity 2: a [Load] misses the cache, reads the record and succeeds,
    and the cache is as empty as before. *)
Lemma Load_leaves_cache_empty :
  cache_miss reopened "k" ∧
  ∃ w' l', Load "k" (Some []) reopened = Returned ((Some [x01], None), w') ∧
           lru (store w') = Some l' ∧
           LRU.items l' !! "k" = None ∧ LRU.evictList l' = [].
Proof.
  split; [by vm_compute|].
  exists (run (Load "k" (Some [])) reopened), (LRU.newLRU 2).
  split; [by vm_compute|]. split; [by vm_compute|]. split; by vm_compute.
Qed.

Lemma Load_miss_cache_witness :
  lru (store (run (Load "k" (Some [])) reopened)) = Some (LRU.newLRU 2) ∧
  ∃ o' l' exp,
    Gob.lru (run_gob gob_store) = Some l' ∧
    LRU.items l' !! "k" = Some (LRU.mkEntry "k" exp (Gob.Pointer o')).
Proof.
  destruct (Load_miss_cache "k" ([] : list byte)) as [Hnow Hgob]. split.
  - destruct (Hnow reopened (run (Load "k" (Some [])) reopened) (Some [x01]))
      as (_ & Hl & _).
    + apply opened_on_opened.
    + by vm_compute.
    + by vm_compute.
    + rewrite Hl. by vm_compute.
  - destruct (Hgob gob_decode_valueT gob_decode Gob.assign gob_remaining t0
                gob_store (run_gob gob_store) (LRU.newLRU 2) (Some [x01]))
      as (o' & l' & exp & _ & Hl & Hi & _).
    + by vm_compute.
    + apply wf_newLRU.
    + by vm_compute.
    + by vm_compute.
    + by vm_compute.
    + by exists o', l', exp.
Defined.

(** One byte written with [ttl = 0]: the expiry field of the record is
    not 0. *)
Lemma PutWithTTL_ttl0_expiry_not_zero :
  PutWithTTL "default" "k" [x01] 0 (world 0 []) = Returned (None, put_ttl0) ∧
  ∃ rec, stored put_ttl0 "default" "k" = Some rec ∧ expiry_field rec ≠ 0.
Proof.
  split; [by vm_compute|]. eexists. split; [by vm_compute|]. by vm_compute.
Qed.

Lemma PutWithTTL_wire_layout_witness :
  ∃ rec, stored put_ttl0 "default" "k" = Some rec ∧ expiry_field rec = -62135596800.
Proof.
  destruct (PutWithTTL_wire_layout "default" "k" [x01] 0 (world 0 []) put_ttl0)
    as (rec & expire & Hs & _ & _ & _ & _ & _ & Hf & Hz).
  - by vm_compute.
  - by vm_compute.
  - exists rec. split; [exact Hs|]. destruct (Hz eq_refl) as [He _]. by rewrite Hf.
Defined.

(** The read transaction of [Load] fails with an engine error:
    [MemoizeWithTTL] returns that error and does not compute. *)
Lemma Memoize_computes_only_after_miss_witness :
  MemoizeWithTTL "k" (Some []) (λ _, (AnyMarshaler [x01], None)) 0 read_fault =
    Returned ((Some [], Some disk_full), run (Load "k" (Some [])) read_fault) ∧
  computes (trace (run (Load "k" (Some [])) read_fault)) = computes (trace read_fault).
Proof.
  destruct (Memoize_computes_only_after_miss "k" (Some [])
              (λ _, (AnyMarshaler [x01], None)) 0 read_fault) as [Hpass _].
  destruct (Hpass (Some [], Some disk_full) (run (Load "k" (Some [])) read_fault))
    as (Hm & _ & Hc).
  - by vm_compute.
  - discriminate.
  - discriminate.
  - split; [exact Hm | exact Hc].
Defined.

(** [Update] without a cache, then [Load] an hour later. *)
Lemma Update_Load_roundtrip_witness :
  ∃ w1 w2,
    Update "k" (Some [x01]) (world 0 []) = Returned (None, w1) ∧
    Load "k" (Some []) (at_time (time.Add t0 (time.seconds 3600)) w1) =
      Returned ((Some [x01], None), w2).
Proof.
  destruct (Update_Load_roundtrip "k" [x01] [] [x01] (world 0 [])
              (time.Add t0 (time.seconds 3600))) as [_ Hboth].
  - by vm_compute.
  - by vm_compute.
  - by vm_compute.
  - by vm_compute.
  - apply Hboth.
    + by vm_compute.
    + by vm_compute.
    + discriminate.
    + by vm_compute.
    + by vm_compute.
Defined.


(** A record whose length prefix is -1, put into the engine by another
    writer: [Load] panics. *)
Lemma Load_panics_on_negative_length :
  Load "k" (Some []) corrupt = Panicked "makeslice: len out of range".
Proof. by vm_compute. Qed.

(** The empty key with caching disabled: the engine refuses the write,
    [Update] returns its error, and [Load] finds nothing. *)
Lemma Update_empty_key_fails :
  ∃ w1, Update "" (Some [x01]) (world 0 []) =
          Returned (Some (ErrPut "" (ErrEngine "key required")), w1) ∧
        ∃ w2, Load "" (Some []) w1 = Returned ((Some [], Some ErrKeyNotFound), w2).
Proof. eexists. split; [by vm_compute|]. eexists. by vm_compute. Qed.

(** C1.  Two callers of [Memoize] for a key that neither the cache nor
    the engine holds, with empty targets and a compute function that
    gives one byte.  When the second caller enters [group.Do] while the
    call of the first is in flight, the function is called once and the
    engine sees one write, but the second caller returns no error with its
    target as empty as before: the value the call shares is dropped, and
    only the function of the first caller decodes, into the first target.
    When the second caller, whose [Load] missed before the write, enters
    [group.Do] after the call of the first is over, it finds no call in
    flight: the function is called a second time and the engine sees a
    second write. *)
Theorem Memoize_burst_not_coalesced :
  let f := λ _ : unit, (AnyMarshaler [x58], None) in
  let start := Burst.burst ([[]; []] : list (list byte)) (world 2 []) in
  stored (world 2 []) _defaultBucket "x" = None ∧ cache_miss (world 2 []) "x" ∧
  (∃ w, Burst.run "x" f 0 [0; 1; 0; 1; 0]%nat start =
          Returned (Burst.mkState w false
                      [Burst.Finished [x58] None; Burst.Finished [] None]) ∧
        computes (trace w) = 1%nat ∧ Burst.updates (trace w) = 1%nat) ∧
  (∃ w, Burst.run "x" f 0 [0; 1; 0; 0; 1; 1]%nat start =
          Returned (Burst.mkState w false
                      [Burst.Finished [x58] None; Burst.Finished [x58] None]) ∧
        computes (trace w) = 2%nat ∧ Burst.updates (trace w) = 2%nat).
Proof.
  split; [by vm_compute|]. split; [by vm_compute|].
  split; eexists; (split; [|split]); by vm_compute.
Qed.

End scenarios.

(** * More properties *)

(** ** The cache, through its exported calls *)
Section lru_more.
Import LRU LRU_facts.
Context {V : Type}.
Implicit Types (l : lru V) (k : string).

Lemma reachable_wf (n : Z) l : reachable n l → wf l ∧ size l = n.
Proof.
  induction 1 as [|l k exp v _ [IHwf IHsize]|l now k _ [IHwf IHsize]|l k _ [IHwf IHsize]].
  - split; [apply wf_newLRU|done].
  - split; [by apply wf_Add|by rewrite size_Add].
  - split; [by apply wf_Get|by rewrite size_Get].
  - split; [by apply wf_Delete|]. unfold Delete.
    by destruct (items l !! k).
Qed.

(** A lookup of the key at the front of the list, live, leaves the cache
    as it is. *)
Lemma Get_front l now k ent rest :
  wf l → evictList l = ent :: rest → items l !! k = Some ent →
  live now (expire ent) = true →
  Get now k l = ((Some (value ent), true), l).
Proof.
  intros Hwf Hes Hent Hlive. unfold Get. rewrite Hent.
  unfold live in Hlive. rewrite Hlive.
  f_equal. destruct l as [es its sz]. simpl in *. subst es. f_equal.
  unfold list_MoveToFront. f_equal.
  unfold list_Remove. rewrite filter_cons, decide_False by (intros Hne; by apply Hne).
  fold (list_Remove ent rest). apply list_Remove_fresh.
  destruct Hwf as [Hnd _ _]. unfold keys in Hnd. simpl in Hnd.
  by apply NoDup_cons in Hnd as [Hnin _].
Qed.

Lemma head_keys_Add l k exp (v : V) :
  wf l → 0 < size l → head (keys (Add k exp v l)) = Some k.
Proof.
  intros Hwf Hsize. rewrite keys_Add by done.
  destruct (Z.to_nat (0 `max` size l)) as [|c] eqn:Hc; [lia|]. done.
Qed.

(** X1.  Every cache that [newLRU(n)], [Add], [Get] and [Delete] lead to
    keeps its capacity [n], holds each key once, has the same entries in
    its map and in its recency list, and holds no more entries than
    [max(0, n)]. *)
Theorem reachable_invariant (n : Z) (l : lru V) :
  reachable n l →
  size l = n ∧
  NoDup (keys l) ∧
  (∀ k e, items l !! k = Some e ↔ e ∈ evictList l ∧ key e = k) ∧
  list_Len (evictList l) <= Z.max 0 n.
Proof.
  intros Hr. destruct (reachable_wf n l Hr) as [[Hnd Hit Hcap] Hsize].
  rewrite Hsize in Hcap. done.
Qed.

(** X2.  In a cache of positive capacity, [Get] right after [Add] of
    the key returns the value added and leaves the cache as [Add] left
    it, provided the expiry in force (the one of the entry the key already
    had, else the one given) is not set or is after the clock. *)
Theorem Add_Get_roundtrip (l : lru V) (now exp : time.Time) (k : string) (v : V) :
  wf l → 0 < size l →
  live now (match items l !! k with Some ent => expire ent | None => exp end) = true →
  Get now k (Add k exp v l) = ((Some v, true), Add k exp v l).
Proof.
  intros Hwf Hsize Hlive.
  pose proof (wf_Add l k exp v Hwf) as Hwf'.
  destruct (items l !! k) as [ent|] eqn:Hent.
  - rewrite (Add_resident l k exp v ent) in * by done.
    by apply (Get_front _ now k (mkEntry k (expire ent) v) (list_Remove ent (evictList l)));
      [|done|simpl; by rewrite lookup_insert_eq|].
  - destruct (Add_new_front l k exp v Hwf Hent Hsize) as [Hi Hh].
    destruct (evictList (Add k exp v l)) as [|x rest] eqn:Hes; [done|].
    injection Hh as ->.
    by apply (Get_front _ now k (mkEntry k exp v) rest).
Qed.

(** X3.  With a capacity of two or more, the key touched last, by a
    [Get] that hit or by an [Add], is still resident after the next [Add]
    of another key. *)
Theorem recent_survives_Add (l : lru V) (now exp exp' : time.Time) (k k' : string)
    (v v' : V) :
  wf l → 2 <= size l → k' ≠ k →
  (∀ r l1, Get now k l = ((Some r, true), l1) → is_Some (items (Add k' exp' v' l1) !! k)) ∧
  is_Some (items (Add k' exp' v' (Add k exp v l)) !! k).
Proof.
  intros Hwf Hsize Hne.
  assert (Hkeep : ∀ l1, wf l1 → size l1 = size l → head (keys l1) = Some k →
                        is_Some (items (Add k' exp' v' l1) !! k)).
  { intros l1 Hwf1 Hsize1 Hhead.
    pose proof (wf_Add l1 k' exp' v' Hwf1) as Hwf2.
    assert (Hin : k ∈ keys (Add k' exp' v' l1)).
    { rewrite keys_Add by done. rewrite Hsize1.
      destruct (keys l1) as [|x ks]; [done|]. injection Hhead as ->.
      rewrite filter_cons, decide_True by done.
      destruct (Z.to_nat (0 `max` size l)) as [|[|c]] eqn:Hc; [lia..|].
      simpl. right. left. }
    unfold keys in Hin. apply list_elem_of_fmap in Hin as (e & -> & Hin).
    exists e. by apply (wf_items _ Hwf2). }
  split.
  - intros r l1 HG. apply Hkeep.
    + pose proof (wf_Get l now k Hwf) as Hw. by rewrite HG in Hw.
    + pose proof (size_Get l now k) as Hs. by rewrite HG in Hs.
    + unfold Get in HG. destruct (items l !! k) as [ent|] eqn:Hent; [|done].
      destruct (wf_key l k ent Hwf Hent) as [Hk _].
      destruct (_ || _); [|done]. injection HG as _ <-. unfold keys. simpl. by rewrite Hk.
  - apply Hkeep; [by apply wf_Add|by rewrite size_Add|].
    apply head_keys_Add; [done|lia].
Qed.

(** X4.  [Delete] removes the key and nothing else: a [Get] of it misses
    afterwards, the other keys keep their entries and their order, and
    [Delete] of a key that is not resident changes nothing. *)
Theorem Delete_removes_key_only (l : lru V) (now : time.Time) (k : string) :
  wf l →
  fst (Get now k (Delete k l)) = (None, false) ∧
  keys (Delete k l) = filter (λ x, x ≠ k) (keys l) ∧
  (∀ k', k' ≠ k → items (Delete k l) !! k' = items l !! k') ∧
  (items l !! k = None → Delete k l = l).
Proof.
  intros Hwf. unfold Delete. destruct (items l !! k) as [ent|] eqn:Hent.
  - destruct (wf_key l k ent Hwf Hent) as [Hk _]. unfold removeElement, keys.
    cbn [items evictList]. rewrite Hk. split; [|split; [|split]].
    + unfold Get. cbn [items]. by rewrite lookup_delete_eq.
    + by rewrite keys_list_Remove, Hk.
    + intros k' Hne. by rewrite lookup_delete_ne.
    + done.
  - split; [|split; [|split]]; [|symmetry|done..].
    + unfold Get. by rewrite Hent.
    + apply filter_ne_fresh. by apply wf_absent.
Qed.

(** X5.  A cache made with a capacity of zero or less never holds
    anything: after any calls its list is empty and every [Get] misses. *)
Theorem nonpositive_capacity_holds_nothing (n : Z) (l : lru V) (now : time.Time)
    (k : string) :
  n <= 0 → reachable n l →
  evictList l = [] ∧ Get now k l = ((None, false), l).
Proof.
  intros Hn Hr. destruct (reachable_wf n l Hr) as [Hwf Hsize].
  assert (Hes : evictList l = []).
  { pose proof (wf_cap l Hwf) as Hcap. unfold list_Len in Hcap.
    destruct (evictList l); [done|]. simpl in Hcap. lia. }
  split; [done|]. apply Get_absent.
  destruct (items l !! k) as [ent|] eqn:Hent; [|done].
  destruct (wf_key l k ent Hwf Hent) as [_ Hin]. rewrite Hes in Hin.
  by apply elem_of_nil in Hin.
Qed.

(** X6.  [Add] of a resident key evicts nothing: the resident keys are
    the same, as many as before, and the entries of the other keys are
    untouched. *)
Theorem Add_resident_evicts_nothing (l : lru V) (exp : time.Time) (k : string) (v : V)
    (ent : entry V) :
  wf l → items l !! k = Some ent →
  keys (Add k exp v l) ≡ₚ keys l ∧
  list_Len (evictList (Add k exp v l)) = list_Len (evictList l) ∧
  ∀ k', k' ≠ k → items (Add k exp v l) !! k' = items l !! k'.
Proof.
  intros Hwf Hent. destruct (wf_key l k ent Hwf Hent) as [Hk Hin].
  rewrite (Add_resident l k exp v ent) by done. unfold keys. cbn [evictList items].
  apply list_elem_of_split in Hin as (l1 & l2 & Hes).
  pose proof (wf_nodup l Hwf) as Hnd. unfold keys in Hnd. rewrite Hes in *.
  rewrite (list_Remove_split ent ent l1 l2) by done.
  split; [|split].
  - rewrite !fmap_app, !fmap_cons, fmap_app. simpl. rewrite Hk.
    by rewrite Permutation_middle.
  - unfold list_Len. simpl. rewrite !length_app. simpl. lia.
  - intros k' Hne. by rewrite lookup_insert_ne.
Qed.

End lru_more.

(** ** The record format, decoded *)
Section wire_more.
Import binary binary_facts wire_facts.

Lemma Read_inl (n : nat) (r a b : list byte) :
  Read n r = inl (a, b) ↔ r ≠ [] ∧ (n <= length r)%nat ∧ a = take n r ∧ b = drop n r.
Proof.
  unfold Read. destruct r as [|x r]; [naive_solver|].
  destruct (Nat.ltb_spec (length (x :: r)) n); [naive_solver lia|].
  split; [by intros [= <- <-]|by intros (_ & _ & -> & ->)].
Qed.

Lemma Read_inr (n : nat) (r : list byte) (e : error) :
  Read n r = inr e → e = EOF ∨ e = ErrUnexpectedEOF.
Proof.
  unfold Read. destruct r as [|x r]; [by intros [= <-]; left|].
  destruct (_ <? _)%nat; [by intros [= <-]; right|done].
Qed.

(** The decoding after a length prefix [len] that is not negative. *)
Lemma Unmarshal_body (v : valueT) (b0 b1 b2 b3 : byte) (r1 : list byte) :
  let len := int32 (Uint [b0; b1; b2; b3]) in
  0 <= len →
  (Z.to_nat len + 8 <= length r1)%nat ∧
    valueT_UnmarshalBinary v (b0 :: b1 :: b2 :: b3 :: r1) =
      Returned (mkValueT (take (Z.to_nat len) r1)
                  (time.Unix (int64 (Uint (take 8 (drop (Z.to_nat len) r1)))) 0), None)
  ∨ (length r1 < Z.to_nat len + 8)%nat ∧
    ∃ v' e, valueT_UnmarshalBinary v (b0 :: b1 :: b2 :: b3 :: r1) = Returned (v', Some e) ∧
            (e = EOF ∨ e = ErrUnexpectedEOF) ∧ Expire v' = Expire v.
Proof.
  intros len Hlen. unfold valueT_UnmarshalBinary.
  change (Read 4 (b0 :: b1 :: b2 :: b3 :: r1)) with (@inl _ error ([b0; b1; b2; b3], r1)).
  cbv zeta iota beta. fold len.
  destruct (Z.ltb_spec len 0) as [?|_]; [lia|].
  cbn [Value]. unfold Reader_Read.
  destruct r1 as [|x r1'] eqn:Hr1.
  { right. split; [simpl; lia|]. eexists _, _. split; [done|]. auto. }
  rewrite <- Hr1. rewrite length_replicate.
  assert (Hne : length r1 ≠ 0%nat) by (subst r1; done). clear Hr1 x r1'.
  destruct (le_lt_dec (Z.to_nat len + 8) (length r1)) as [Hfit|Hshort].
  - left. split; [done|].
    replace (Z.to_nat len `min` length r1)%nat with (Z.to_nat len) by lia.
    rewrite (drop_ge (replicate _ _)) by (rewrite length_replicate; lia).
    rewrite app_nil_r.
    destruct (Read 8 (drop (Z.to_nat len) r1)) as [[bs8 rest]|e] eqn:HR.
    + apply Read_inl in HR as (_ & _ & -> & _). done.
    + unfold Read in HR. destruct (drop (Z.to_nat len) r1) as [|y r2] eqn:Hd.
      * apply (f_equal length) in Hd. rewrite length_drop in Hd. simpl in Hd. lia.
      * rewrite <- Hd in HR.
        destruct (Nat.ltb_spec (length (drop (Z.to_nat len) r1)) 8) as [Hlt|_]; [|done].
        rewrite length_drop in Hlt. lia.
  - right. split; [done|].
    destruct (Read 8 (drop (Z.to_nat len `min` length r1) r1)) as [[bs8 rest]|e] eqn:HR.
    + apply Read_inl in HR as (_ & Hl & _). rewrite length_drop in Hl. lia.
    + apply Read_inr in HR. eexists _, _. split; [done|]. auto.
Qed.

(** An error of [UnmarshalBinary] comes before the expiry is assigned. *)
Lemma Unmarshal_error_expire (v v' : valueT) (data : list byte) (e : error) :
  valueT_UnmarshalBinary v data = Returned (v', Some e) → Expire v' = Expire v.
Proof.
  destruct data as [|b0 [|b1 [|b2 [|b3 r1]]]]; try by intros [= <- _].
  destruct (Z.lt_ge_cases (int32 (Uint [b0; b1; b2; b3])) 0) as [Hneg|Hpos].
  - assert (Hp : ∃ msg, valueT_UnmarshalBinary v (b0 :: b1 :: b2 :: b3 :: r1) = Panicked msg).
    { apply Unmarshal_panics_iff. split; [simpl; lia|done]. }
    by destruct Hp as [msg ->].
  - destruct (Unmarshal_body v b0 b1 b2 b3 r1 Hpos)
      as [[_ ->]|(_ & v1 & e1 & -> & _ & Hexp)]; [done|].
    by intros [= <- _].
Qed.

(** X7.  [UnmarshalBinary] succeeds on the inputs that hold a length
    prefix [len] that is not negative, [len] bytes and eight more, and on
    no others; it takes the [len] bytes as the value and the next eight as
    the expiry, and ignores what follows.  Every error it returns is
    [io.EOF] or [io.ErrUnexpectedEOF], and leaves the expiry of the record
    as it was. *)
Theorem UnmarshalBinary_accepts (v v' : valueT) (data : list byte) :
  (valueT_UnmarshalBinary v data = Returned (v', None) ↔
   (4 <= length data)%nat ∧
   0 <= int32 (Uint (take 4 data)) ∧
   4 + int32 (Uint (take 4 data)) + 8 <= Z.of_nat (length data) ∧
   v' = mkValueT
          (take (Z.to_nat (int32 (Uint (take 4 data)))) (drop 4 data))
          (time.Unix (int64 (Uint (take 8
             (drop (Z.to_nat (int32 (Uint (take 4 data)))) (drop 4 data))))) 0)) ∧
  (∀ e, valueT_UnmarshalBinary v data = Returned (v', Some e) →
        (e = EOF ∨ e = ErrUnexpectedEOF) ∧ Expire v' = Expire v).
Proof.
  destruct data as [|b0 [|b1 [|b2 [|b3 r1]]]];
    try (split; [split; [by intros [= _]|simpl; lia]|];
         by (intros e [= <- <-]; auto)).
  change (take 4 (b0 :: b1 :: b2 :: b3 :: r1)) with [b0; b1; b2; b3].
  change (drop 4 (b0 :: b1 :: b2 :: b3 :: r1)) with r1.
  destruct (Z.lt_ge_cases (int32 (Uint [b0; b1; b2; b3])) 0) as [Hneg|Hpos].
  - assert (Hp : ∃ msg, valueT_UnmarshalBinary v (b0 :: b1 :: b2 :: b3 :: r1) = Panicked msg).
    { apply Unmarshal_panics_iff. split; [simpl; lia|done]. }
    destruct Hp as [msg ->]. split; [split; [done|lia]|done].
  - destruct (Unmarshal_body v b0 b1 b2 b3 r1 Hpos) as [[Hfit ->]|(Hshort & v1 & e1 & -> & He & Hexp)].
    + split; [|done]. split.
      * intros [= <-]. simpl length. split; [lia|]. split; [done|]. split; [lia|done].
      * by intros (_ & _ & _ & ->).
    + split.
      * split; [done|]. simpl length. lia.
      * by intros e [= <- <-].
Qed.

(** X8.  What [MarshalBinary] wrote for a value of less than 2^31 bytes,
    [UnmarshalBinary] reads back: the same value, and the expiry cut to
    whole seconds, so a zero expiry stays zero. *)
Theorem valueT_roundtrip (v0 v : valueT) :
  Z.of_nat (length (Value v)) < 2 ^ 31 →
  ∃ v', valueT_UnmarshalBinary v0 (valueT_MarshalBinary v).1 = Returned (v', None) ∧
        (valueT_MarshalBinary v).2 = None ∧
        Value v' = Value v ∧
        time.nsec (Expire v') = 0 ∧
        (- 2 ^ 63 <= time.sec (Expire v) - time.unixToInternal ∧
         time.sec (Expire v) < 2 ^ 63 →
         time.sec (Expire v') = time.sec (Expire v)) ∧
        (time.IsZero (Expire v) = true → time.IsZero (Expire v') = true).
Proof.
  intros Hlen. rewrite Unmarshal_Marshal by done. eexists. split; [done|].
  split; [done|]. split; [done|]. split; [done|].
  assert (Hsec : - 2 ^ 63 <= time.sec (Expire v) - time.unixToInternal ∧
                 time.sec (Expire v) < 2 ^ 63 →
                 time.sec (time.Unix (time.Time_Unix (Expire v)) 0) = time.sec (Expire v)).
  { intros [Hlo Hhi]. unfold time.Unix, time.Time_Unix, time.internalToUnix. simpl.
    assert (0 < time.unixToInternal) by done.
    rewrite (int64_small (_ + - _)) by lia.
    rewrite int64_small by lia. lia. }
  split; [exact Hsec|].
  intros Hz. unfold time.IsZero in *. apply andb_true_iff in Hz as [Hs _].
  apply Z.eqb_eq in Hs. cbn [Expire]. rewrite Hsec.
  - rewrite Hs. done.
  - rewrite Hs. split; [|done]. by vm_compute.
Qed.

End wire_more.

(** ** Transactions and retries *)
Section engine_more.
Import binary_facts wire_facts LRU_facts Store_facts.

Lemma after_updates_0 w : after_updates 0 w = w.
Proof. by destruct w as [[o [b fs] l] t tr]. Qed.

Lemma replicate_snoc_app {A : Type} (n : nat) (x : A) (xs : list A) :
  replicate n x ++ x :: xs = x :: replicate n x ++ xs.
Proof. induction n as [|n IH]; [done|]. simpl. by rewrite IH. Qed.

Lemma after_updates_S n w : after_updates n (after_updates 1 w) = after_updates (S n) w.
Proof.
  destruct w as [[o [b fs] l] t tr]. unfold after_updates. simpl.
  rewrite drop_drop, replicate_snoc_app. done.
Qed.

Lemma after_updates_1 n w : after_updates 1 (after_updates n w) = after_updates (S n) w.
Proof.
  destruct w as [[o [b fs] l] t tr]. unfold after_updates. simpl.
  by rewrite drop_drop, Nat.add_1_r.
Qed.

(** One transaction of [db.Update], by what it meets. *)
Lemma db_Update_cases (fn : bolt.Tx → M (bolt.Tx * option error))
    (g : bolt.Tx → bolt.Tx * option error) w :
  (∀ tx w0, now w0 = now w → fn tx w0 = Returned (g tx, w0)) →
  db_Update fn w =
    if readOnly (opt (store w))
    then Returned (Some (ErrEngine "database is in read-only mode"),
                   mkWorld (store w) (now w) (EvUpdate :: trace w))
    else match hd None (bolt.faults (db (store w))) with
         | Some e => Returned (Some e, after_updates 1 w)
         | None =>
             match g (bolt.buckets (db (store w))) with
             | (tx', None) => Returned (None, with_buckets tx' (after_updates 1 w))
             | (_, Some e) => Returned (Some e, after_updates 1 w)
             end
         end.
Proof.
  intros Hfn. destruct w as [[o [b fs] l] t tr].
  unfold db_Update, after_updates, with_buckets. munfold. simpl.
  destruct (readOnly o); [done|].
  destruct fs as [|[e|] fs]; simpl; [|done|].
  - rewrite Hfn by done. by destruct (g b) as [tx' [e|]].
  - rewrite Hfn by done. by destruct (g b) as [tx' [e|]].
Qed.

Lemma PutWithTTL_fn_pure namespace key value ttl tx w0 :
  PutWithTTL_fn namespace key value ttl tx w0 =
    Returned (put_tx (now w0) namespace key value ttl tx, w0).
Proof.
  unfold PutWithTTL_fn, put_tx.
  destruct (bolt.CreateBucketIfNotExists tx namespace) as [tx1 [e|]]; [done|].
  munfold. unfold valueT_MarshalBinary. done.
Qed.

Lemma Delete_pure namespace key w :
  Delete namespace key w = db_Update (Delete_fn namespace key) w.
Proof. reflexivity. Qed.

Lemma Delete_fn_pure namespace key tx w0 :
  Delete_fn namespace key tx w0 = Returned (delete_tx namespace key tx, w0).
Proof. unfold Delete_fn, delete_tx. by destruct (bolt.Bucket tx namespace). Qed.

(** The function of [PutWithTTL] on a bucket name, a key and a record
    within the limits of the engine. *)
Lemma put_tx_ok now namespace key value ttl tx :
  namespace ≠ "" → key ≠ "" →
  Z.of_nat (String.length key) <= bolt.MaxKeySize →
  Z.of_nat (length (valueT_MarshalBinary (newValueT now value ttl)).1) <= bolt.MaxValueSize →
  put_tx now namespace key value ttl tx =
    (put_record namespace key (valueT_MarshalBinary (newValueT now value ttl)).1 tx, None).
Proof.
  intros Hns Hkey Hklen Hvlen. unfold put_tx, bolt.CreateBucketIfNotExists, put_record.
  rewrite decide_False by done.
  assert (Hput : ∀ tx1, bolt.Put tx1 namespace key (valueT_MarshalBinary (newValueT now value ttl)).1 =
            (<[namespace := <[key := (valueT_MarshalBinary (newValueT now value ttl)).1]>
                              (default ∅ (tx1 !! namespace))]> tx1, None)).
  { intros tx1. unfold bolt.Put. rewrite decide_False by done.
    destruct (Z.ltb_spec bolt.MaxKeySize (Z.of_nat (String.length key))); [lia|].
    destruct (Z.ltb_spec bolt.MaxValueSize
      (Z.of_nat (length (valueT_MarshalBinary (newValueT now value ttl)).1))); [lia|done]. }
  destruct (tx !! namespace) as [bk|] eqn:Hb; rewrite Hput.
  - by rewrite Hb.
  - by rewrite lookup_insert_eq, insert_insert_eq.
Qed.

(** Attempts that meet a fault each are skipped by the retry loop, which
    remembers the last error. *)
Lemma retry_skip (fn : bolt.Tx → M (bolt.Tx * option error)) (errs : list error) :
  ∀ (n : nat) (err0 : option error) (tail : list (option error)) w,
    readOnly (opt (store w)) = false →
    bolt.faults (db (store w)) = (Some <$> errs) ++ tail →
    retry (length errs + n) (db_Update fn) err0 w =
      retry n (db_Update fn) (from_option Some err0 (last errs))
        (after_updates (length errs) w).
Proof.
  induction errs as [|e errs IH]; intros n err0 tail w Hro Hfs.
  - simpl. by rewrite after_updates_0.
  - cbn [length Nat.add retry]. unfold mbind at 1, M_bind at 1.
    assert (Hstep : db_Update fn w = Returned (Some e, after_updates 1 w)).
    { destruct w as [[o [b fs] l] t tr]. simpl in *. subst fs.
      unfold db_Update, after_updates. munfold. simpl. by rewrite Hro. }
    rewrite Hstep. rewrite (IH n (Some e) tail).
    + rewrite after_updates_S. f_equal. rewrite last_cons. by destruct (last errs).
    + done.
    + simpl. rewrite Hfs. simpl. by rewrite drop_0.
Qed.

Lemma stored_put_record namespace key rec w w' :
  bolt.buckets (db (store w')) = put_record namespace key rec (bolt.buckets (db (store w))) →
  stored w' namespace key = Some rec ∧
  ∀ ns k, (ns, k) ≠ (namespace, key) → stored w' ns k = stored w ns k.
Proof.
  intros Hb. unfold stored, put_record in *. rewrite Hb. split.
  - rewrite lookup_insert_eq. simpl. by rewrite lookup_insert_eq.
  - intros ns k Hne. destruct (decide (ns = namespace)) as [->|Hns].
    + rewrite lookup_insert_eq. simpl. rewrite lookup_insert_ne by congruence.
      by destruct (bolt.buckets (db (store w)) !! namespace).
    + by rewrite lookup_insert_ne.
Qed.

(** X12.  When every one of the [numRetries] attempts of [PutWithTTL]
    meets a fault of the engine, it returns the error of the last attempt
    wrapped with the key, after exactly [numRetries] write transactions,
    and no bucket and no cache entry has changed. *)
Theorem PutWithTTL_exhausts_retries (namespace key : string) (value : list byte) (ttl : Z)
    (errs : list error) (tail : list (option error)) (w : World) :
  readOnly (opt (store w)) = false →
  numRetries (opt (store w)) = Z.of_nat (length errs) → errs ≠ [] →
  bolt.faults (db (store w)) = (Some <$> errs) ++ tail →
  ∃ e, last errs = Some e ∧
       PutWithTTL namespace key value ttl w =
         Returned (Some (ErrPut key e), after_updates (length errs) w).
Proof.
  intros Hro Hn Hne Hfs.
  destruct (last errs) as [e|] eqn:Hlast; [|by apply last_None in Hlast].
  exists e. split; [done|].
  unfold PutWithTTL. unfold get_store, mbind at 1 2, M_bind at 1 2.
  rewrite Hn, Nat2Z.id.
  rewrite <- (Nat.add_0_r (length errs)) at 1.
  rewrite (retry_skip _ errs 0 None tail w Hro Hfs). simpl. by rewrite Hlast.
Qed.

(** X13.  [PutWithTTL] stops at the first attempt that meets no fault:
    after [k] faulty attempts, with [k] less than [numRetries], it returns
    no error after [k + 1] write transactions, and the buckets are the old
    ones with the record under the key, for a bucket name, a key and a
    record within the limits of the engine. *)
Theorem PutWithTTL_stops_at_first_success (namespace key : string) (value : list byte)
    (ttl : Z) (errs : list error) (tail : list (option error)) (w : World) :
  readOnly (opt (store w)) = false →
  Z.of_nat (length errs) < numRetries (opt (store w)) →
  bolt.faults (db (store w)) = (Some <$> errs) ++ tail → hd None tail = None →
  namespace ≠ "" → key ≠ "" →
  Z.of_nat (String.length key) <= bolt.MaxKeySize →
  Z.of_nat (length (record_of w value ttl)) <= bolt.MaxValueSize →
  PutWithTTL namespace key value ttl w =
    Returned (None,
      with_buckets
        (put_record namespace key (record_of w value ttl) (bolt.buckets (db (store w))))
        (after_updates (S (length errs)) w)).
Proof.
  intros Hro Hn Hfs Htail Hns Hkey Hklen Hvlen.
  unfold PutWithTTL. unfold get_store, mbind at 1 2, M_bind at 1 2.
  replace (Z.to_nat (numRetries (opt (store w))))
    with (length errs + S (Z.to_nat (numRetries (opt (store w))) - S (length errs)))%nat
    by lia.
  rewrite (retry_skip _ errs _ None tail w Hro Hfs).
  cbn [retry]. unfold mbind at 1, M_bind at 1.
  rewrite (db_Update_cases _ (put_tx (now w) namespace key value ttl)); cycle 1.
  { intros tx w0 Hnow. rewrite PutWithTTL_fn_pure. cbn [after_updates now] in Hnow.
    by rewrite Hnow. }
  rewrite after_updates_1.
  change (readOnly (opt (store (after_updates (length errs) w))))
    with (readOnly (opt (store w))).
  rewrite Hro.
  change (bolt.faults (db (store (after_updates (length errs) w))))
    with (drop (length errs) (bolt.faults (db (store w)))).
  rewrite Hfs, drop_app_length' by (by rewrite length_fmap). rewrite Htail.
  change (bolt.buckets (db (store (after_updates (length errs) w))))
    with (bolt.buckets (db (store w))).
  unfold record_of in *. by rewrite put_tx_ok.
Qed.

End engine_more.

(** ** Records by namespace: [Get], [Delete], [DeleteNamespace] *)
Section namespace_more.
Import binary_facts wire_facts LRU_facts Store_facts.

(** [Get], by what the read transaction meets. *)
Lemma Get_cases namespace key w :
  Get namespace key w =
    match hd None (bolt.faults (db (store w))) with
    | Some e => Returned ((None, Some e), after_view w)
    | None =>
        match stored w namespace key with
        | None => Returned ((None, Some ErrKeyNotFound), after_view w)
        | Some rec =>
            match valueT_UnmarshalBinary (mkValueT [] time.zero) rec with
            | Returned (v, _) => Returned (Get_result (now w) v, after_view w)
            | Panicked msg => Panicked msg
            end
        end
    end.
Proof.
  unfold Get. unfold mbind at 1, M_bind at 1.
  pose proof (get_spec namespace key w) as Hget.
  destruct (hd None _) as [e|]; [by rewrite Hget|].
  destruct (stored w namespace key) as [rec|]; [|by rewrite Hget].
  destruct (valueT_UnmarshalBinary _ rec) as [[v uerr]|msg]; rewrite Hget; [|done].
  unfold Get_result. munfold. cbn [after_view now].
  destruct (time.IsZero (Expire v)); [done|]. by destruct (time.After _ _).
Qed.

Lemma stored_after_view w namespace key :
  stored (after_view w) namespace key = stored w namespace key.
Proof. done. Qed.

(** X9.  After a [PutWithTTL] that returned no error, [Get] of the same
    key in the same namespace without a fault gives the value back, unless
    the expiry written is set and the clock is after it: then it gives
    [ErrKeyExpired].  The expiry written is the clock of the write plus
    [ttl], cut to whole seconds; with [ttl = 0], as [Put] writes, [Get]
    gives the value at every time. *)
Theorem PutWithTTL_Get_roundtrip (namespace key : string) (value : list byte) (ttl : Z)
    (w w1 : World) (t : time.Time) :
  1 <= numRetries (opt (store w)) →
  PutWithTTL namespace key value ttl w = Returned (None, w1) → no_fault w1 →
  Get namespace key (at_time t w1) =
    Returned (Get_result t (mkValueT value
                (time.Unix (time.Time_Unix (Expire (newValueT (now w) value ttl))) 0)),
              after_view (at_time t w1)) ∧
  (ttl = 0 → Get namespace key (at_time t w1) =
             Returned ((Some value, None), after_view (at_time t w1))).
Proof.
  intros Hn Hput Hnf.
  destruct (PutWithTTL_spec namespace key value ttl w Hn) as (r & w' & Hput' & _ & Hr).
  rewrite Hput in Hput'. injection Hput' as <- <-. destruct Hr as [Hb Hlen].
  assert (Hval : Value (newValueT (now w) value ttl) = value).
  { unfold newValueT. by destruct (ttl =? 0). }
  pose proof (MarshalBinary_length (newValueT (now w) value ttl)) as Hl.
  fold (record_of w value ttl) in Hl. rewrite Hval in Hl.
  assert (HGet : Get namespace key (at_time t w1) =
    Returned (Get_result t (mkValueT value
                (time.Unix (time.Time_Unix (Expire (newValueT (now w) value ttl))) 0)),
              after_view (at_time t w1))).
  { rewrite Get_cases. unfold no_fault in Hnf. cbn [at_time store now]. rewrite Hnf.
    destruct (stored_put_record namespace key (record_of w value ttl) w w1 Hb) as [Hs _].
    unfold stored in *. cbn [at_time store]. rewrite Hs.
    unfold record_of. rewrite Unmarshal_Marshal, Hval; [done|].
    rewrite Hval. unfold bolt.MaxValueSize in Hlen. lia. }
  split; [exact HGet|]. intros ->. rewrite HGet. done.
Qed.

(** X10.  A value [Get] returns is the value of a record the engine
    holds under the key, whose expiry is not set or not before the clock;
    for a key the engine does not hold [Get] returns [ErrKeyNotFound]; and
    [Get] changes neither the buckets nor the cache, so an expired record
    stays in the engine. *)
Theorem Get_returns_live_records_only (namespace key : string) (w : World) :
  (∀ val w', Get namespace key w = Returned ((Some val, None), w') →
     ∃ rec v uerr,
       stored w namespace key = Some rec ∧
       valueT_UnmarshalBinary (mkValueT [] time.zero) rec = Returned (v, uerr) ∧
       val = Value v ∧
       (time.IsZero (Expire v) = true ∨ time.After (now w) (Expire v) = false)) ∧
  (no_fault w → stored w namespace key = None →
   Get namespace key w = Returned ((None, Some ErrKeyNotFound), after_view w)) ∧
  (∀ r w', Get namespace key w = Returned (r, w') →
     bolt.buckets (db (store w')) = bolt.buckets (db (store w)) ∧
     lru (store w') = lru (store w)).
Proof.
  rewrite Get_cases. split; [|split].
  - intros val w'. destruct (hd None _) as [e|]; [done|].
    destruct (stored w namespace key) as [rec|] eqn:Hrec; [|done].
    destruct (valueT_UnmarshalBinary _ rec) as [[v uerr]|msg] eqn:Hdec; [|done].
    unfold Get_result. intros HG. exists rec, v, uerr. do 2 (split; [done|]).
    destruct (time.IsZero (Expire v)); [injection HG as <- _; auto|].
    destruct (time.After (now w) (Expire v)); [done|]. injection HG as <- _. auto.
  - unfold no_fault. by intros -> ->.
  - intros r w'. destruct (hd None _) as [e|]; [by intros [= _ <-]|].
    destruct (stored w namespace key) as [rec|]; [|by intros [= _ <-]].
    destruct (valueT_UnmarshalBinary _ rec) as [[v uerr]|msg]; [|done].
    by intros [= _ <-].
Qed.

(** X11.  [get] drops the error of the decoder: for a record that is cut
    short, so that [UnmarshalBinary] returns an error, [Get] without a
    fault returns no error and the bytes decoded so far as the value. *)
Theorem Get_drops_decode_error (namespace key : string) (w : World) (rec : list byte)
    (v : valueT) (e : error) :
  no_fault w → stored w namespace key = Some rec →
  valueT_UnmarshalBinary (mkValueT [] time.zero) rec = Returned (v, Some e) →
  get namespace key w = Returned ((v, None), after_view w) ∧
  Get namespace key w = Returned ((Some (Value v), None), after_view w).
Proof.
  intros Hnf Hrec Hdec. split.
  - pose proof (get_spec namespace key w) as Hget. unfold no_fault in Hnf.
    by rewrite Hnf, Hrec, Hdec in Hget.
  - rewrite Get_cases. unfold no_fault in Hnf. rewrite Hnf, Hrec, Hdec.
    apply Unmarshal_error_expire in Hdec. unfold Get_result. rewrite Hdec. done.
Qed.

(** X14.  [PutWithTTL] writes one key: whatever it returns, every other
    key of every namespace holds what it held, and the cache is as it
    was. *)
Theorem PutWithTTL_writes_one_key (namespace key : string) (value : list byte) (ttl : Z)
    (w w' : World) (r : option error) :
  PutWithTTL namespace key value ttl w = Returned (r, w') →
  lru (store w') = lru (store w) ∧
  ∀ ns k, (ns, k) ≠ (namespace, key) → stored w' ns k = stored w ns k.
Proof.
  intros Hput.
  destruct (Z.le_gt_cases 1 (numRetries (opt (store w)))) as [Hn|Hn].
  - destruct (PutWithTTL_spec namespace key value ttl w Hn)
      as (r1 & w1 & Hput1 & (_ & Hl & _) & Hr).
    rewrite Hput in Hput1. injection Hput1 as <- <-. split; [done|].
    destruct r as [e|].
    + destruct Hr as [_ Hb]. intros ns k _. unfold stored. by rewrite Hb.
    + destruct Hr as [Hb _].
      by destruct (stored_put_record namespace key (record_of w value ttl) w w' Hb).
  - unfold PutWithTTL in Hput. unfold get_store, mbind at 1 2, M_bind at 1 2 in Hput.
    replace (Z.to_nat (numRetries (opt (store w)))) with 0%nat in Hput by lia.
    simpl in Hput. injection Hput as _ <-. done.
Qed.

(** X15.  [Delete] returns; when it returns no error the engine no
    longer holds the key in the namespace, every other key holds what it
    held, and no bucket is made for a namespace that had none; when it
    returns an error the buckets are as they were.  The cache is not
    touched. *)
Theorem Delete_removes_one_record (namespace key : string) (w : World) :
  ∃ r w', Delete namespace key w = Returned (r, w') ∧
    lru (store w') = lru (store w) ∧
    match r with
    | None =>
        stored w' namespace key = None ∧
        (∀ ns k, (ns, k) ≠ (namespace, key) → stored w' ns k = stored w ns k) ∧
        (bolt.buckets (db (store w)) !! namespace = None →
         bolt.buckets (db (store w')) = bolt.buckets (db (store w)))
    | Some _ => bolt.buckets (db (store w')) = bolt.buckets (db (store w))
    end.
Proof.
  rewrite Delete_pure.
  rewrite (db_Update_cases _ (delete_tx namespace key))
    by (intros; apply Delete_fn_pure).
  destruct (readOnly _); [by eexists _, _|].
  destruct (hd None _) as [e|]; [by eexists _, _|].
  unfold delete_tx, bolt.Bucket, bolt.Delete.
  destruct (bolt.buckets (db (store w)) !! namespace) as [bk|] eqn:Hb.
  - eexists _, _. split; [done|]. split; [done|]. unfold stored. simpl.
    split; [|split; [|done]].
    + rewrite lookup_insert_eq. simpl. apply lookup_delete_eq.
    + intros ns k Hne. destruct (decide (ns = namespace)) as [->|Hns].
      * rewrite lookup_insert_eq, Hb. simpl. rewrite lookup_delete_ne; congruence.
      * by rewrite lookup_insert_ne.
  - eexists _, _. split; [done|]. split; [done|]. unfold stored. simpl.
    rewrite Hb. done.
Qed.

(** X17.  [DeleteNamespace] returns; when it returns no error the engine
    holds no key of the namespace any more and the other namespaces are as
    they were; when it returns an error, as it does for a namespace that
    has no bucket, the buckets are as they were. *)
Theorem DeleteNamespace_removes_bucket (namespace : string) (w : World) :
  ∃ r w', DeleteNamespace namespace w = Returned (r, w') ∧
    lru (store w') = lru (store w) ∧
    (bolt.buckets (db (store w)) !! namespace = None → r ≠ None) ∧
    match r with
    | None =>
        (∀ k, stored w' namespace k = None) ∧
        (∀ ns k, ns ≠ namespace → stored w' ns k = stored w ns k)
    | Some _ => bolt.buckets (db (store w')) = bolt.buckets (db (store w))
    end.
Proof.
  unfold DeleteNamespace.
  rewrite (db_Update_cases _ (λ tx, tx_DeleteBucket tx namespace)) by done.
  destruct (readOnly _); [by eexists _, _|].
  destruct (hd None _) as [e|]; [by eexists _, _|].
  unfold tx_DeleteBucket.
  destruct (bolt.buckets (db (store w)) !! namespace) as [bk|] eqn:Hb.
  - eexists _, _. split; [done|]. split; [done|]. split; [done|].
    unfold stored. simpl. split.
    + intros k. by rewrite lookup_delete_eq.
    + intros ns k Hne. by rewrite lookup_delete_ne.
  - eexists _, _. split; [done|]. done.
Qed.

End namespace_more.

(** ** Objects by key: [UpdateWithTTL], [Load], [Remove], [MemoizeWithTTL] *)
Section facade_more.
Import binary_facts wire_facts LRU_facts Store_facts.
Context {T : Type} `{!BinaryMarshaler T} `{!BinaryUnmarshaler T}.
Implicit Types (o : T) (w : World).

Lemma with_lru_same w l : lru (store w) = l → with_lru l w = w.
Proof. destruct w as [[op d l0] t tr]. simpl. by intros ->. Qed.

Lemma Load_persistent_missing key o w :
  no_fault w → stored w _defaultBucket key = None →
  Load_persistent key o w = Returned ((Some o, Some ErrKeyNotFound), after_view w).
Proof.
  intros Hnf Hrec. unfold Load_persistent. unfold mbind at 1, M_bind at 1.
  pose proof (get_spec _defaultBucket key w) as Hget.
  unfold no_fault in Hnf. rewrite Hnf, Hrec in Hget. by rewrite Hget.
Qed.

Lemma Load_persistent_expired key o w rec v uerr :
  no_fault w → stored w _defaultBucket key = Some rec →
  valueT_UnmarshalBinary (mkValueT [] time.zero) rec = Returned (v, uerr) →
  isExpired (now w) v = true →
  Load_persistent key o w = Returned ((Some o, Some ErrKeyExpired), after_view w).
Proof.
  intros Hnf Hrec Hdec Hexp. unfold Load_persistent. unfold mbind at 1, M_bind at 1.
  pose proof (get_spec _defaultBucket key w) as Hget.
  unfold no_fault in Hnf. rewrite Hnf, Hrec, Hdec in Hget. rewrite Hget.
  munfold. simpl. by rewrite Hexp.
Qed.

(** [Load] leaves the options, the clock and the buckets alone, and its
    target is still a target. *)
Lemma Load_frame key o w obj err w1 :
  Load key (Some o) w = Returned ((obj, err), w1) →
  opt (store w1) = opt (store w) ∧ now w1 = now w ∧
  bolt.buckets (db (store w1)) = bolt.buckets (db (store w)) ∧
  ∃ o1, obj = Some o1.
Proof.
  rewrite Load_cases. intros HLoad.
  assert (Hslow : ∀ w0 , opt (store w0) = opt (store w) → now w0 = now w →
            bolt.buckets (db (store w0)) = bolt.buckets (db (store w)) →
            Load_persistent key o w0 = Returned ((obj, err), w1) →
            opt (store w1) = opt (store w) ∧ now w1 = now w ∧
            bolt.buckets (db (store w1)) = bolt.buckets (db (store w)) ∧
            ∃ o1, obj = Some o1).
  { intros w0 Ho Hn Hb Hp. pose proof (Load_persistent_world _ _ _ _ _ Hp) as ->.
    do 3 (split; [done|]). revert Hp. unfold Load_persistent.
    unfold mbind at 1, M_bind at 1.
    destruct (get _defaultBucket key w0) as [[[valT [e|]] w2]|msg]; [| |done].
    - munfold. intros [= <- _ _]. by eexists.
    - munfold. destruct (isExpired _ _); [intros [= <- _ _]; by eexists|].
      destruct (UnmarshalBinary o (Value valT)). intros [= <- _ _]. by eexists. }
  destruct (lru (store w)) as [l|]; [|by apply (Hslow w)].
  destruct (LRU.Get (now w) key l) as [[v [|]] l1].
  - injection HLoad as <- _ <-. do 3 (split; [done|]). by eexists.
  - by apply (Hslow (with_lru (Some l1) w)).
Qed.

(** The value [Add] leaves under the key. *)
Lemma Add_value (l : LRU.lru (list byte)) k exp buf :
  LRU.wf l → 0 < LRU.size l →
  ∃ ent, LRU.items (LRU.Add k exp buf l) !! k = Some ent ∧ LRU.value ent = buf.
Proof.
  intros Hwf Hsize. destruct (LRU.items l !! k) as [ent|] eqn:Hent.
  - rewrite (Add_resident l k exp buf ent) by done. simpl.
    rewrite lookup_insert_eq. by eexists.
  - destruct (Add_new_front l k exp buf Hwf Hent Hsize) as [-> _]. by eexists.
Qed.

(** [Load] reads back the bytes of a record without expiry that is in
    the engine and, when there is a cache, was added to the cache. *)
Lemma Load_reads_back key buf o w (t : time.Time) :
  stored w _defaultBucket key = Some (valueT_MarshalBinary (mkValueT buf time.zero)).1 →
  Z.of_nat (length buf) < 2 ^ 31 → no_fault w →
  (lru (store w) = None ∨
   ∃ l0 exp, lru (store w) = Some (LRU.Add key exp buf l0) ∧ LRU.wf l0 ∧ 0 < LRU.size l0) →
  ∃ w', Load key (Some o) (at_time t w) =
          Returned ((Some (UnmarshalBinary o buf).1, (UnmarshalBinary o buf).2), w') ∧
        computes (trace w') = computes (trace w).
Proof.
  intros Hrec Hlen Hnf Hcache. rewrite Load_cases. cbn [at_time store now].
  assert (Hslow : ∀ l', Load_persistent key o (with_lru l' (at_time t w)) =
    Returned ((Some (UnmarshalBinary o buf).1, (UnmarshalBinary o buf).2),
              after_view (with_lru l' (at_time t w)))).
  { intros l'.
    rewrite (Load_persistent_ok key o _ (valueT_MarshalBinary (mkValueT buf time.zero)).1
               (mkValueT buf (time.Unix (time.Time_Unix time.zero) 0)) None); try done.
    { by apply Unmarshal_Marshal. } }
  destruct Hcache as [Hl|(l0 & exp & Hl & Hwf & Hsize)]; rewrite Hl.
  - specialize (Hslow None). rewrite with_lru_same in Hslow by done.
    rewrite Hslow. by eexists.
  - destruct (Add_value l0 key exp buf Hwf Hsize) as (ent & Hent & Hv).
    unfold LRU.Get. rewrite Hent, Hv.
    destruct (_ || _).
    + by eexists.
    + rewrite Hslow. by eexists.
Qed.

(** X19.  With or without a cache, and whatever the cache holds, [Load]
    after an [Update] that returned no error succeeds at every later time
    with the bytes [Update] encoded, when the read meets no fault. *)
Theorem Update_Load_roundtrip_cached (key : string) (v : T) (buf : list byte) (o : T)
    (w w1 : World) (t : time.Time) :
  opened (store w) → MarshalBinary v = (buf, None) →
  Update key (Some v) w = Returned (None, w1) → no_fault w1 →
  ∃ w2, Load key (Some o) (at_time t w1) =
          Returned ((Some (UnmarshalBinary o buf).1, (UnmarshalBinary o buf).2), w2) ∧
        computes (trace w2) = computes (trace w1).
Proof.
  intros [Hn Hl] Hbuf Hupd Hnf. unfold Update in Hupd.
  destruct (UpdateWithTTL_spec key v buf 0 w (proj1 Hn) Hbuf)
    as (r & w' & Hupd' & _ & _ & _ & Hr).
  rewrite Hupd in Hupd'. injection Hupd' as <- <-. destruct Hr as [[Hb Hlen] Hlru].
  pose proof (MarshalBinary_length (mkValueT buf time.zero)) as Hreclen.
  unfold record_of in Hlen. change (newValueT (now w) buf 0) with (mkValueT buf time.zero) in Hlen.
  cbn [Value] in Hreclen.
  apply Load_reads_back; [| |done|].
  - unfold stored, record_of. rewrite Hb, lookup_insert_eq. simpl.
    by rewrite lookup_insert_eq.
  - unfold bolt.MaxValueSize in Hlen. lia.
  - rewrite Hlru. destruct (lru (store w)) as [l|] eqn:Hlw; [|by left].
    right. destruct (Hl l eq_refl) as [Hwf Hsize]. by eexists _, _.
Qed.

(** [Load] of a key that [Add] has just put at the front of the cache. *)
Lemma Load_hit_front key buf o w (t exp : time.Time) (l : LRU.lru (list byte)) :
  lru (store w) = Some (LRU.Add key exp buf l) →
  LRU.wf l → 0 < LRU.size l → LRU.items l !! key = None →
  live t exp = true →
  Load key (Some o) (at_time t w) =
    Returned ((Some (UnmarshalBinary o buf).1, (UnmarshalBinary o buf).2), at_time t w).
Proof.
  intros Hlru Hwf Hsize Hk Hlive.
  pose proof (wf_Add l key exp buf Hwf) as Hwf'.
  destruct (Add_new_front l key exp buf Hwf Hk Hsize) as [Hi Hh].
  destruct (LRU.evictList (LRU.Add key exp buf l)) as [|x rest] eqn:Hes; [done|].
  injection Hh as ->.
  rewrite Load_cases. cbn [at_time store now]. rewrite Hlru.
  rewrite (Get_front _ t key _ rest Hwf' Hes Hi Hlive). cbn [LRU.value].
  by rewrite with_lru_same.
Qed.

(** X21.  After an [UpdateWithTTL] that returned no error, of a key
    that was not in the cache, [Load] is served from the cache, with the
    bytes encoded and without a read of the engine or any other change,
    as long as the expiry of the cache entry is not set or is after the
    clock. *)
Theorem Update_then_Load_from_cache (key : string) (v : T) (buf : list byte) (o : T)
    (ttl : Z) (l : LRU.lru (list byte)) (w w1 : World) (t : time.Time) :
  lru (store w) = Some l → LRU.wf l → 0 < LRU.size l → LRU.items l !! key = None →
  1 <= numRetries (opt (store w)) → MarshalBinary v = (buf, None) →
  UpdateWithTTL key (Some v) ttl w = Returned (None, w1) →
  live t (cache_expiry (now w) ttl) = true →
  Load key (Some o) (at_time t w1) =
    Returned ((Some (UnmarshalBinary o buf).1, (UnmarshalBinary o buf).2), at_time t w1).
Proof.
  intros Hl Hwf Hsize Hk Hn Hbuf Hupd Hlive.
  destruct (UpdateWithTTL_spec key v buf ttl w Hn Hbuf) as (r & w' & Hupd' & _ & _ & _ & Hr).
  rewrite Hupd in Hupd'. injection Hupd' as <- <-. destruct Hr as [_ Hlru].
  rewrite Hl in Hlru. simpl in Hlru.
  by apply (Load_hit_front key buf o w1 t (cache_expiry (now w) ttl) l).
Qed.

(** The expiry a negative [ttl] of less than 9e9 seconds writes, read
    back from the record: the clock plus [ttl], cut to whole seconds. *)
Lemma negative_ttl_expiry (now : time.Time) (ttl : Z) :
  -9000000000 < ttl < 0 → 0 <= time.nsec now < 1000000000 →
  time.unixToInternal <= time.sec now + ttl → time.sec now < 2 ^ 62 →
  time.Unix (time.Time_Unix (Expire (newValueT now [] ttl))) 0 =
    time.mkTime (time.sec now + ttl) 0.
Proof.
  intros Httl Hns Hlo Hhi. unfold newValueT.
  destruct (Z.eqb_spec ttl 0) as [|_]; [lia|]. cbn [Expire].
  unfold time.seconds, time.Second. rewrite int64_small by lia.
  unfold time.Add.
  rewrite Z.quot_mul, Z.rem_mul by lia. rewrite Z.add_0_r.
  destruct (Z.leb_spec 1000000000 (time.nsec now)) as [|_]; [lia|].
  destruct (Z.ltb_spec (time.nsec now) 0) as [|_]; [lia|].
  unfold time.Time_Unix, time.Unix, time.internalToUnix. cbn [time.sec].
  change (0 <? 0) with false. change (1000000000 <=? 0) with false. cbn [orb].
  unfold time.unixToInternal in *.
  change ((1969 * 365 + 1969 / 4 - 1969 / 100 + 1969 / 400) * 86400) with 62135596800 in *.
  rewrite (int64_small (time.sec now + ttl + - (62135596800))) by lia.
  rewrite int64_small by lia. f_equal. lia.
Qed.

(** X22.  A negative [ttl] gives the record in the engine an expiry in
    the past and the cache entry no expiry at all: after such an
    [UpdateWithTTL] without error, [Load] at the clock of the write gives
    [ErrKeyExpired] on a store without cache, and on a store with a cache
    that did not hold the key it gives the bytes, at every time, from the
    cache. *)
Theorem negative_ttl_expired_in_engine_only (key : string) (v : T) (buf : list byte)
    (o : T) (ttl : Z) (w w1 : World) :
  -9000000000 < ttl < 0 → 0 <= time.nsec (now w) < 1000000000 →
  time.unixToInternal <= time.sec (now w) + ttl → time.sec (now w) < 2 ^ 62 →
  1 <= numRetries (opt (store w)) → MarshalBinary v = (buf, None) →
  UpdateWithTTL key (Some v) ttl w = Returned (None, w1) → no_fault w1 →
  (lru (store w) = None →
   Load key (Some o) w1 = Returned ((Some o, Some ErrKeyExpired), after_view w1)) ∧
  (∀ l t, lru (store w) = Some l → LRU.wf l → 0 < LRU.size l →
          LRU.items l !! key = None →
          Load key (Some o) (at_time t w1) =
            Returned ((Some (UnmarshalBinary o buf).1, (UnmarshalBinary o buf).2),
                      at_time t w1)).
Proof.
  intros Httl Hns Hlo Hhi Hn Hbuf Hupd Hnf.
  destruct (UpdateWithTTL_spec key v buf ttl w Hn Hbuf)
    as (r & w' & Hupd' & _ & Hnow & _ & Hr).
  rewrite Hupd in Hupd'. injection Hupd' as <- <-. destruct Hr as [[Hb Hlen] Hlru].
  split.
  - intros Hl. rewrite Hl in Hlru. rewrite Load_cases, Hlru.
    pose proof (MarshalBinary_length (newValueT (now w) buf ttl)) as Hreclen.
    assert (HV : Value (newValueT (now w) buf ttl) = buf).
    { unfold newValueT. by destruct (ttl =? 0). }
    unfold record_of in Hlen. rewrite HV in Hreclen.
    apply (Load_persistent_expired key o w1 (record_of w buf ttl)
             (mkValueT buf (time.mkTime (time.sec (now w) + ttl) 0)) None); [done| | |].
    + unfold stored. rewrite Hb, lookup_insert_eq. simpl. by rewrite lookup_insert_eq.
    + unfold record_of. rewrite Unmarshal_Marshal by (rewrite HV; unfold bolt.MaxValueSize in Hlen; lia).
      rewrite HV. do 3 f_equal.
      rewrite <- (negative_ttl_expiry (now w) ttl) by done.
      unfold newValueT. by destruct (ttl =? 0).
    + unfold isExpired, time.IsZero, time.After. cbn [Expire time.sec time.nsec].
      rewrite Hnow. unfold time.unixToInternal in Hlo.
      change ((1969 * 365 + 1969 / 4 - 1969 / 100 + 1969 / 400) * 86400)
        with 62135596800 in Hlo.
      destruct (Z.eqb_spec (time.sec (now w) + ttl) 0) as [|_]; [lia|].
      destruct (Z.ltb_spec (time.sec (now w) + ttl) (time.sec (now w))) as [_|]; [done|lia].
  - intros l t Hl Hwf Hsize Hk. rewrite Hl in Hlru. simpl in Hlru.
    apply (Load_hit_front key buf o w1 t (cache_expiry (now w) ttl) l Hlru Hwf Hsize Hk).
    unfold cache_expiry. destruct (Z.ltb_spec 0 ttl) as [|_]; [lia|]. done.
Qed.

Lemma Delete_items_absent (l : LRU.lru (list byte)) k :
  LRU.wf l → LRU.items (LRU.Delete k l) !! k = None.
Proof.
  intros Hwf. unfold LRU.Delete. destruct (LRU.items l !! k) as [ent|] eqn:Hent; [|done].
  destruct (wf_key l k ent Hwf Hent) as [Hk _]. simpl. rewrite Hk.
  apply lookup_delete_eq.
Qed.

Lemma Remove_unfold key w :
  Remove key w = Delete _defaultBucket key (with_lru (LRU.Delete key <$> lru (store w)) w).
Proof.
  unfold Remove, with_lru. destruct w as [[op d [l|]] t tr]; reflexivity.
Qed.

(** X16.  [Remove] takes the key out of the cache first and then out of
    the engine.  It returns; afterwards the cache, if there is one, does
    not hold the key, also when the engine refused the delete and still
    holds the record.  After a [Remove] without error the engine holds no
    record for the key, and a [Load] that meets no fault gives
    [ErrKeyNotFound] and leaves the target as it was. *)
Theorem Remove_cache_then_engine (key : string) (o : T) (w : World) (t : time.Time) :
  opened (store w) →
  ∃ r w', Remove key w = Returned (r, w') ∧
    lru (store w') = LRU.Delete key <$> lru (store w) ∧
    (∀ l', lru (store w') = Some l' → LRU.items l' !! key = None) ∧
    match r with
    | None =>
        stored w' _defaultBucket key = None ∧
        (no_fault w' →
         Load key (Some o) (at_time t w') =
           Returned ((Some o, Some ErrKeyNotFound), after_view (at_time t w')))
    | Some _ => stored w' _defaultBucket key = stored w _defaultBucket key
    end.
Proof.
  intros [_ Hl]. rewrite Remove_unfold, Delete_pure.
  rewrite (db_Update_cases _ (delete_tx _defaultBucket key))
    by (intros; apply Delete_fn_pure).
  assert (Habs : ∀ l', LRU.Delete key <$> lru (store w) = Some l' →
                       LRU.items l' !! key = None).
  { intros l' Hl'. destruct (lru (store w)) as [l|] eqn:Hlw; [|done].
    injection Hl' as <-. apply Delete_items_absent. by apply Hl. }
  cbn [with_lru store opt db].
  destruct (readOnly _); [by eexists _, _|].
  destruct (hd None _) as [e|]; [by eexists _, _|].
  destruct (delete_tx _ _ _) as [tx' [e|]] eqn:Htx.
  { unfold delete_tx, bolt.Delete in Htx. by destruct (bolt.Bucket _ _). }
  eexists _, _. split; [done|]. split; [done|]. split; [done|].
  assert (Hgone : tx' !! _defaultBucket ≫= (λ b, b !! key) = None).
  { unfold delete_tx, bolt.Bucket, bolt.Delete in Htx.
    destruct (bolt.buckets (db (store w)) !! _defaultBucket) as [bk|] eqn:Hb;
      injection Htx as <-.
    - rewrite lookup_insert_eq. simpl. apply lookup_delete_eq.
    - by rewrite Hb. }
  split; [exact Hgone|]. intros Hnf.
  rewrite Load_cases. cbn [at_time with_buckets after_updates store lru now with_lru].
  destruct (lru (store w)) as [l|] eqn:Hlw; cbn [fmap option_fmap option_map].
  - rewrite Get_absent by (by apply Habs).
    apply Load_persistent_missing; done.
  - apply Load_persistent_missing; done.
Qed.

(** [MemoizeWithTTL] after the miss of its [Load]. *)
Lemma Memoize_after_miss key o (f : unit → any T * option error) ttl w o1 e w1 :
  Load key (Some o) w = Returned ((Some o1, Some e), w1) →
  e = ErrKeyNotFound ∨ e = ErrKeyExpired →
  MemoizeWithTTL key (Some o) f ttl w =
    match f tt with
    | (_, Some e') => Returned ((Some o1, Some e'), computed key w1)
    | (AnyMarshaler v, None) =>
        match MarshalBinary v with
        | (_, Some e') => Returned ((Some o1, Some e'), computed key w1)
        | (buf, None) =>
            match PutWithTTL _defaultBucket key buf ttl (computed key w1) with
            | Returned (Some e', w2) => Returned ((Some o1, Some e'), w2)
            | Returned (None, w2) =>
                Returned ((Some (UnmarshalBinary o1 buf).1, (UnmarshalBinary o1 buf).2),
                          with_lru (LRU.Add key (cache_expiry (now w2) ttl) buf
                                      <$> lru (store w2)) w2)
            | Panicked msg => Panicked msg
            end
        end
    | (_, None) => Returned ((Some o1, Some ErrBadValue), computed key w1)
    end.
Proof.
  intros HLoad He. unfold MemoizeWithTTL, group_Do.
  unfold mbind at 1, M_bind at 1. rewrite HLoad.
  assert (bool_decide (e ≠ ErrKeyNotFound) && bool_decide (e ≠ ErrKeyExpired) = false)
    as ->.
  { destruct He as [-> | ->]; [done|].
    by rewrite (bool_decide_eq_false_2 (ErrKeyExpired ≠ ErrKeyExpired)), andb_false_r
      by (intros H; by apply H). }
  unfold mbind at 1, M_bind at 1, emit at 1. fold (computed key w1).
  destruct (f tt) as [data [e'|]]; [by destruct data|].
  destruct data as [|v|]; [done| |done].
  destruct (MarshalBinary v) as [buf [e'|]]; [done|].
  unfold mbind at 1, M_bind at 1.
  destruct (PutWithTTL _ _ _ _ _) as [[[e'|] w2]|msg]; [done| |done].
  unfold mbind at 1, M_bind at 1. rewrite tryAddToLRU_spec.
  by destruct (UnmarshalBinary o1 buf).
Qed.

Lemma record_of_computed key w w1 buf ttl :
  now w1 = now w → record_of (computed key w1) buf ttl = record_of w buf ttl.
Proof. unfold record_of, computed. cbn [now]. by intros ->. Qed.

(** X18.  When the [Load] of [MemoizeWithTTL] misses and the compute
    function gives a value that encodes, the function is called once and
    the bytes are written: either the write fails, with an error of
    [PutWithTTL], nothing stored and the target as [Load] left it, or the
    record is in the engine, the bytes are in the cache when there is one,
    and the target is decoded from the bytes. *)
Theorem Memoize_miss_computes_and_stores (key : string) (o o1 : T)
    (f : unit → any T * option error) (v : T) (buf : list byte) (ttl : Z)
    (e : error) (w w1 : World) :
  1 <= numRetries (opt (store w)) →
  Load key (Some o) w = Returned ((Some o1, Some e), w1) →
  e = ErrKeyNotFound ∨ e = ErrKeyExpired →
  f tt = (AnyMarshaler v, None) → MarshalBinary v = (buf, None) →
  ∃ obj err w2,
    MemoizeWithTTL key (Some o) f ttl w = Returned ((obj, err), w2) ∧
    computes (trace w2) = S (computes (trace w)) ∧
    ((∃ e', err = Some (ErrPut key e') ∧ obj = Some o1 ∧
            bolt.buckets (db (store w2)) = bolt.buckets (db (store w)) ∧
            lru (store w2) = lru (store w1)) ∨
     (obj = Some (UnmarshalBinary o1 buf).1 ∧ err = (UnmarshalBinary o1 buf).2 ∧
      stored w2 _defaultBucket key = Some (record_of w buf ttl) ∧
      lru (store w2) = LRU.Add key (cache_expiry (now w) ttl) buf <$> lru (store w1))).
Proof.
  intros Hn HLoad He Hf Hbuf.
  rewrite (Memoize_after_miss key o f ttl w o1 e w1 HLoad He), Hf, Hbuf.
  destruct (Load_frame key o w _ _ w1 HLoad) as (Ho & Hnow & Hb & _).
  pose proof (Load_computes key (Some o) w _ w1 HLoad) as Hc.
  destruct (PutWithTTL_spec _defaultBucket key buf ttl (computed key w1))
    as (r & w2 & -> & (Ho2 & Hl2 & Hnow2 & Hc2) & Hr).
  { cbn [computed store]. by rewrite Ho. }
  cbn [computed store now trace computes] in Ho2, Hl2, Hnow2, Hc2.
  destruct r as [e'|].
  - destruct Hr as [[e'' ->] Hb2]. eexists _, _, _. split; [done|].
    split; [by rewrite Hc2, Hc|]. left. eexists. cbn [computed store] in Hb2.
    by rewrite Hb2, Hb.
  - destruct Hr as [Hb2 _]. eexists _, _, _. split; [done|].
    cbn [with_lru trace store lru]. split; [by rewrite Hc2, Hc|]. right.
    rewrite Hnow2, Hnow, Hl2. do 2 (split; [done|]). split; [|done].
    unfold stored. cbn [with_lru store db]. rewrite Hb2, lookup_insert_eq. simpl.
    by rewrite lookup_insert_eq, (record_of_computed key w w1).
Qed.

(** X20.  When the [Load] of [MemoizeWithTTL] misses and the compute
    function returns an error, or a value that is no [BinaryMarshaler], or
    one whose encoding fails, [MemoizeWithTTL] returns that error
    ([ErrBadValue] for the second), after one call of the function and
    without a write: the world is the one [Load] left, and the target is as
    [Load] left it. *)
Theorem Memoize_failed_compute_stores_nothing (key : string) (o o1 : T)
    (f : unit → any T * option error) (ttl : Z) (e e' : error) (w w1 : World) :
  Load key (Some o) w = Returned ((Some o1, Some e), w1) →
  e = ErrKeyNotFound ∨ e = ErrKeyExpired →
  (f tt).2 = Some e' ∨
  ((f tt).2 = None ∧
   match (f tt).1 with
   | AnyMarshaler v => (MarshalBinary v).2 = Some e'
   | _ => e' = ErrBadValue
   end) →
  MemoizeWithTTL key (Some o) f ttl w = Returned ((Some o1, Some e'), computed key w1) ∧
  bolt.buckets (db (store (computed key w1))) = bolt.buckets (db (store w)) ∧
  computes (trace (computed key w1)) = S (computes (trace w)).
Proof.
  intros HLoad He Hf.
  rewrite (Memoize_after_miss key o f ttl w o1 e w1 HLoad He).
  destruct (Load_frame key o w _ _ w1 HLoad) as (_ & _ & Hb & _).
  pose proof (Load_computes key (Some o) w _ w1 HLoad) as Hc.
  split; [|split; [done|by cbn [computed trace computes]; rewrite Hc]].
  destruct (f tt) as [data [e1|]]; cbn [fst snd] in Hf.
  - destruct Hf as [[= ->]|[[=] _]]. by destruct data.
  - destruct Hf as [[=]|[_ Hd]]. destruct data as [|v|]; [by subst| |by subst].
    destruct (MarshalBinary v) as [buf [e2|]]; cbn [snd] in Hd; [|done].
    by injection Hd as ->.
Qed.

(** X24.  After a [Memoize] that missed, computed and returned no error,
    a later [Memoize] of the key whose read meets no fault, and whose
    target decodes the bytes, gives the decoded bytes without a call of its
    compute function, with a cache in any state or without one. *)
Theorem Memoize_second_call_does_not_compute (key : string) (o o1 o2 v2 : T)
    (f f2 : unit → any T * option error) (v : T) (buf : list byte)
    (e : error) (obj : option T) (w w1 w2 : World) (t : time.Time) :
  opened (store w) →
  Load key (Some o) w = Returned ((Some o1, Some e), w1) →
  e = ErrKeyNotFound ∨ e = ErrKeyExpired →
  f tt = (AnyMarshaler v, None) → MarshalBinary v = (buf, None) →
  Memoize key (Some o) f w = Returned ((obj, None), w2) →
  no_fault w2 → UnmarshalBinary o2 buf = (v2, None) →
  ∃ w3, Memoize key (Some o2) f2 (at_time t w2) = Returned ((Some v2, None), w3) ∧
        computes (trace w3) = computes (trace w2).
Proof.
  intros Hop HLoad He Hf Hbuf Hmemo Hnf Hdec.
  pose proof (opened_Load key (Some o) w _ w1 Hop HLoad) as [Hn1 Hl1].
  destruct (Load_frame key o w _ _ w1 HLoad) as (Ho & Hnow & Hb & _).
  unfold Memoize in Hmemo.
  rewrite (Memoize_after_miss key o f 0 w o1 e w1 HLoad He), Hf, Hbuf in Hmemo.
  destruct (PutWithTTL_spec _defaultBucket key buf 0 (computed key w1))
    as (r & w' & Hput & (Ho2 & Hl2 & Hnow2 & Hc2) & Hr); [exact (proj1 Hn1)|].
  rewrite Hput in Hmemo. destruct r as [e'|]; [done|].
  injection Hmemo as _ _ <-. destruct Hr as [Hb2 Hlen].
  cbn [computed store] in Hl2.
  change (record_of (computed key w1) buf 0)
    with (valueT_MarshalBinary (mkValueT buf time.zero)).1 in *.
  pose proof (MarshalBinary_length (mkValueT buf time.zero)) as Hreclen.
  cbn [Value] in Hreclen.
  destruct (Load_reads_back key buf o2
              (with_lru (LRU.Add key (cache_expiry (now w') 0) buf <$> lru (store w')) w') t)
    as (w3 & HLoad2 & Hc3); [| |done| |].
  - unfold stored. cbn [with_lru store db]. rewrite Hb2, lookup_insert_eq. simpl.
    by rewrite lookup_insert_eq.
  - unfold bolt.MaxValueSize in Hlen. lia.
  - cbn [with_lru store lru]. rewrite Hl2.
    destruct (lru (store w1)) as [l|] eqn:Hlw; [|by left].
    right. destruct (Hl1 l eq_refl) as [Hwf Hsize]. by eexists _, _.
  - exists w3. split; [|done]. unfold Memoize, MemoizeWithTTL.
    unfold mbind at 1, M_bind at 1. rewrite HLoad2, Hdec. done.
Qed.

Lemma opened_frame (s s' : Store) :
  opt s' = opt s → lru s' = lru s → opened s → opened s'.
Proof. intros Ho Hl [Hn Hw]. split; [by rewrite Ho|]. intros l. rewrite Hl. apply Hw. Qed.

Lemma opened_tryAdd w key exp buf :
  opened (store w) →
  opened (store (with_lru (LRU.Add key exp buf <$> lru (store w)) w)).
Proof.
  intros [Hn Hw]. split; [done|]. cbn [with_lru store lru]. intros l' Hl'.
  destruct (lru (store w)) as [l|] eqn:Hlw; [|done]. injection Hl' as <-.
  destruct (Hw l eq_refl) as [Hwf Hsize]. split; [by apply wf_Add|by rewrite size_Add].
Qed.

Lemma opened_db_Update fn (g : bolt.Tx → bolt.Tx * option error) w r w' :
  (∀ tx w0, now w0 = now w → fn tx w0 = Returned (g tx, w0)) →
  opened (store w) → db_Update fn w = Returned (r, w') → opened (store w').
Proof.
  intros Hfn Hop. rewrite (db_Update_cases fn g) by done.
  destruct (readOnly _); [by intros [= _ <-]|].
  destruct (hd None _) as [e|]; [intros [= _ <-]; by apply (opened_frame (store w))|].
  destruct (g _) as [tx' [e|]]; intros [= _ <-]; by apply (opened_frame (store w)).
Qed.

(** X23.  Every operation keeps the store as [Open] made it: the number
    of write attempts stays between 1 and 255, and the cache, when there is
    one, keeps its positive capacity, holds one entry per key and no more
    entries than the capacity. *)
Theorem facade_keeps_opened (w w' : World) :
  opened (store w) →
  (∀ ns key value ttl r, PutWithTTL ns key value ttl w = Returned (r, w') → opened (store w')) ∧
  (∀ ns key r, Get ns key w = Returned (r, w') → opened (store w')) ∧
  (∀ ns key r, Delete ns key w = Returned (r, w') → opened (store w')) ∧
  (∀ ns r, DeleteNamespace ns w = Returned (r, w') → opened (store w')) ∧
  (∀ key (value : option T) ttl r,
     UpdateWithTTL key value ttl w = Returned (r, w') → opened (store w')) ∧
  (∀ key (obj : option T) r, Load key obj w = Returned (r, w') → opened (store w')) ∧
  (∀ key r, Remove key w = Returned (r, w') → opened (store w')) ∧
  (∀ key (obj : option T) f ttl r,
     MemoizeWithTTL key obj f ttl w = Returned (r, w') → opened (store w')).
Proof.
  intros Hop. split; [|split; [|split; [|split; [|split; [|split; [|split]]]]]].
  - intros ns key value ttl r Hput.
    destruct (PutWithTTL_spec ns key value ttl w (proj1 (opened_retries _ Hop)))
      as (r1 & w1 & Hput1 & (Ho & Hl & _) & _).
    rewrite Hput in Hput1. injection Hput1 as <- <-. by apply (opened_frame (store w)).
  - intros ns key r. rewrite Get_cases.
    destruct (hd None _) as [e|]; [intros [= _ <-]; by apply (opened_frame (store w))|].
    destruct (stored w ns key) as [rec|];
      [|intros [= _ <-]; by apply (opened_frame (store w))].
    destruct (valueT_UnmarshalBinary _ rec) as [[v uerr]|msg]; [|done].
    intros [= _ <-]. by apply (opened_frame (store w)).
  - intros ns key r. rewrite Delete_pure.
    apply (opened_db_Update _ (delete_tx ns key)); [|done].
    intros; apply Delete_fn_pure.
  - intros ns r. unfold DeleteNamespace.
    by apply (opened_db_Update _ (λ tx, tx_DeleteBucket tx ns)).
  - intros key value ttl r. by apply opened_UpdateWithTTL.
  - intros key obj r. by apply opened_Load.
  - intros key r. rewrite Remove_unfold, Delete_pure.
    apply (opened_db_Update _ (delete_tx _defaultBucket key));
      [intros; apply Delete_fn_pure|].
    destruct Hop as [Hn Hw]. split; [done|]. cbn [with_lru store lru]. intros l' Hl'.
    destruct (lru (store w)) as [l|] eqn:Hlw; [|done]. injection Hl' as <-.
    destruct (Hw l eq_refl) as [Hwf Hsize]. split; [by apply wf_Delete|].
    unfold LRU.Delete. by destruct (LRU.items l !! key).
  - intros key obj f ttl r Hmemo.
    destruct obj as [o|]; [|by injection Hmemo as _ <-].
    destruct (Load key (Some o) w) as [[[obj1 err] w1]|msg] eqn:HLoad;
      [|unfold MemoizeWithTTL in Hmemo; unfold mbind at 1, M_bind at 1 in Hmemo;
        by rewrite HLoad in Hmemo].
    pose proof (opened_Load key (Some o) w _ w1 Hop HLoad) as Hop1.
    destruct (Load_frame key o w _ _ w1 HLoad) as (_ & _ & _ & o1 & ->).
    destruct err as [e|];
      [|unfold MemoizeWithTTL in Hmemo; unfold mbind at 1, M_bind at 1 in Hmemo;
        rewrite HLoad in Hmemo; by injection Hmemo as _ <-].
    destruct (decide (e = ErrKeyNotFound ∨ e = ErrKeyExpired)) as [He|He].
    + rewrite (Memoize_after_miss key o f ttl w o1 e w1 HLoad He) in Hmemo.
      assert (Hopc : opened (store (computed key w1))) by done.
      destruct (f tt) as [data [e'|]];
        [destruct data; cbv beta iota in Hmemo; by injection Hmemo as _ <-|].
      destruct data as [|v|]; cbv beta iota in Hmemo;
        [by injection Hmemo as _ <-| |by injection Hmemo as _ <-].
      destruct (MarshalBinary v) as [buf [e'|]]; [by injection Hmemo as _ <-|].
      destruct (PutWithTTL_spec _defaultBucket key buf ttl (computed key w1)
                  (proj1 (opened_retries _ Hopc)))
        as (r1 & w2 & Hput & (Ho & Hl & _) & _).
      rewrite Hput in Hmemo.
      assert (Hop2 : opened (store w2)) by by apply (opened_frame (store (computed key w1))).
      destruct r1 as [e'|]; injection Hmemo as _ <-; [done|].
      by apply opened_tryAdd.
    + unfold MemoizeWithTTL in Hmemo. unfold mbind at 1, M_bind at 1 in Hmemo.
      rewrite HLoad in Hmemo.
      rewrite (bool_decide_eq_true_2 (e ≠ ErrKeyNotFound)),
              (bool_decide_eq_true_2 (e ≠ ErrKeyExpired)) in Hmemo by tauto.
      by injection Hmemo as _ <-.
Qed.

End facade_more.

(** ** Callers at the same time: the steps and the sequential call *)
Section burst_facts.
Import Store_facts.
Context {T : Type} `{!BinaryMarshaler T} `{!BinaryUnmarshaler T}.

(** A caller alone takes its three steps to what [MemoizeWithTTL] gives
    in one call. *)
Lemma Burst_alone (key : string) (o : T) (f : unit → any T * option error) (ttl : Z)
    (w : World) :
  Burst.run key f ttl [0; 0; 0]%nat (Burst.burst [o] w) =
    match MemoizeWithTTL key (Some o) f ttl w with
    | Returned ((obj, err), w') =>
        Returned (Burst.mkState w' false [Burst.Finished (default o obj) err])
    | Panicked msg => Panicked msg
    end.
Proof.
  unfold Burst.burst. cbn [fmap list_fmap Burst.run].
  unfold Burst.step at 1. cbn [Burst.callers Burst.world Burst.in_flight lookup list_lookup].
  destruct (Load key (Some o) w) as [[[obj err] w1]|msg] eqn:HLoad;
    [|unfold MemoizeWithTTL; unfold mbind at 1, M_bind at 1; by rewrite HLoad].
  destruct (Load_frame key o w _ _ w1 HLoad) as (_ & _ & _ & o1 & ->).
  cbn [default from_option]. destruct err as [e|].
  - destruct (decide (e = ErrKeyNotFound ∨ e = ErrKeyExpired)) as [He|He].
    + rewrite (Memoize_after_miss key o f ttl w o1 e w1 HLoad He).
      assert (bool_decide (e ≠ ErrKeyNotFound) && bool_decide (e ≠ ErrKeyExpired) = false)
        as ->.
      { destruct He as [-> | ->]; [done|].
        by rewrite (bool_decide_eq_false_2 (ErrKeyExpired ≠ ErrKeyExpired)), andb_false_r
          by (intros H; by apply H). }
      cbn [list_insert insert]. unfold Burst.step.
      cbn [Burst.callers Burst.world Burst.in_flight lookup list_lookup list_insert insert].
      unfold Burst.Memoize_fn. unfold mbind at 1, M_bind at 1, emit at 1.
      fold (computed key w1).
      destruct (f tt) as [data [e'|]]; [by destruct data|].
      destruct data as [|v|]; [done| |done].
      destruct (MarshalBinary v) as [buf [e'|]]; [done|].
      unfold mbind at 1, M_bind at 1.
      destruct (PutWithTTL _ _ _ _ _) as [[[e'|] w2]|msg]; [done| |done].
      unfold mbind at 1, M_bind at 1. rewrite tryAddToLRU_spec.
      unfold mret, M_ret, id. by destruct (UnmarshalBinary o1 buf).
    + unfold MemoizeWithTTL. unfold mbind at 1, M_bind at 1. rewrite HLoad.
      rewrite (bool_decide_eq_true_2 (e ≠ ErrKeyNotFound)),
              (bool_decide_eq_true_2 (e ≠ ErrKeyExpired)) by tauto.
      done.
  - unfold MemoizeWithTTL. unfold mbind at 1, M_bind at 1. by rewrite HLoad.
Qed.

(** When the function of the caller in [group.Do] has run, a caller that
    waited returns the error of that call with its target as it was, in
    any state. *)
Lemma Burst_joiner_keeps_target (key : string) (f : unit → any T * option error)
    (ttl : Z) (i j : nat) (oi oj o' : T) (err : option error) (st : Burst.state)
    (w' : World) :
  Burst.callers st !! i = Some (Burst.Owner oi) →
  Burst.callers st !! j = Some (Burst.Joined oj) →
  Burst.Memoize_fn key oi f ttl (Burst.world st) = Returned ((o', err), w') →
  ∃ st', Burst.step key f ttl i st = Returned st' ∧
         Burst.world st' = w' ∧ Burst.in_flight st' = false ∧
         Burst.callers st' !! i = Some (Burst.Finished o' err) ∧
         Burst.callers st' !! j = Some (Burst.Finished oj err).
Proof.
  intros Hi Hj Hfn. unfold Burst.step. rewrite Hi, Hfn.
  eexists. split; [done|]. cbn [Burst.world Burst.in_flight Burst.callers].
  split; [done|]. split; [done|].
  assert (Hne : i ≠ j) by (intros ->; congruence).
  rewrite !list_lookup_fmap. split.
  - rewrite list_lookup_insert_eq by (by eapply lookup_lt_Some). done.
  - rewrite list_lookup_insert_ne by done. by rewrite Hj.
Qed.

End burst_facts.

(** ** Opening a store, and a store opened read-only *)
Section open_more.
Import LRU_facts Store_facts.




Lemma db_Update_refused fn w :
  readOnly (opt (store w)) = true →
  db_Update fn w = Returned (Some ErrDatabaseReadOnly, refused 1 w).
Proof. intros Hro. unfold db_Update. munfold. simpl. by rewrite Hro. Qed.

Lemma retry_refused fn (n : nat) :
  ∀ err0 w, readOnly (opt (store w)) = true →
    retry (S n) (db_Update fn) err0 w =
      Returned (Some ErrDatabaseReadOnly, refused (S n) w).
Proof.
  assert (Hstep : ∀ m err0 w, readOnly (opt (store w)) = true →
            retry (S m) (db_Update fn) err0 w =
              retry m (db_Update fn) (Some ErrDatabaseReadOnly) (refused 1 w)).
  { intros m err0 w Hro. cbn [retry]. unfold mbind at 1, M_bind at 1.
    by rewrite db_Update_refused. }
  induction n as [|n IH]; intros err0 w Hro; rewrite Hstep by done.
  - done.
  - rewrite IH by done. unfold refused. cbn [store now trace]. do 3 f_equal.
    change (EvUpdate :: replicate n EvUpdate ++ ?t) with (replicate (S n) EvUpdate ++ t).
    rewrite app_assoc. f_equal. change [EvUpdate] with (replicate 1 EvUpdate).
    rewrite <- replicate_add. f_equal. lia.
Qed.

(** X26.  A store opened read-only refuses every write and keeps what
    it holds: [PutWithTTL] makes all its attempts and returns the error of
    the engine wrapped with the key, [Delete] and [DeleteNamespace] return
    it as it is, and none changes the store.  [Remove] returns it too, but
    has taken the key out of the cache before. *)
Theorem read_only_store_refuses_writes (namespace key : string) (value : list byte)
    (ttl : Z) (n : nat) (w : World) :
  readOnly (opt (store w)) = true →
  numRetries (opt (store w)) = Z.of_nat (S n) →
  PutWithTTL namespace key value ttl w =
    Returned (Some (ErrPut key ErrDatabaseReadOnly), refused (S n) w) ∧
  Delete namespace key w = Returned (Some ErrDatabaseReadOnly, refused 1 w) ∧
  DeleteNamespace namespace w = Returned (Some ErrDatabaseReadOnly, refused 1 w) ∧
  Remove key w =
    Returned (Some ErrDatabaseReadOnly,
              refused 1 (with_lru (LRU.Delete key <$> lru (store w)) w)).
Proof.
  intros Hro Hn. split; [|split; [|split]].
  - unfold PutWithTTL. unfold get_store, mbind at 1 2, M_bind at 1 2.
    rewrite Hn, Nat2Z.id, retry_refused by done. done.
  - unfold Delete. by apply db_Update_refused.
  - unfold DeleteNamespace. by apply db_Update_refused.
  - rewrite Remove_unfold. unfold Delete. by rewrite db_Update_refused.
Qed.

End open_more.

(** ** The gob revision: [Load] puts its target in the cache *)
Section gob_more.
Import LRU_facts.
Context {T : Type}.
Variable decode_valueT : list byte → valueT * option error.
Variable decode : T → list byte → T * option error.
Variable remaining : time.Time → time.Time → Z.

(** X27.  In the gob revision a [Load] that misses the cache and reads
    the record from the engine puts its target, a pointer, in the cache,
    with the expiry [tryAddToLRU] makes of the whole seconds that remain:
    none when no whole second remains.  A later [Load] for a target of a
    struct type, at a time at which that expiry is not set or not reached,
    hits this entry and panics in [assign], which sets the object of the
    target to the pointer. *)
Theorem Gob_Load_then_Load_panics (now t : time.Time) (key : string) (o o' o2 : T)
    (s : Gob.Store T) (l : LRU.lru (Gob.cached T)) (bucket : gmap string (list byte))
    (val : list byte) (valT : valueT) :
  Gob.lru s = Some l → LRU.wf l → 0 < LRU.size l →
  (LRU.Get now key l).1.2 = false →
  hd None (bolt.faults (Gob.db s)) = None →
  bolt.Bucket (bolt.buckets (Gob.db s)) _defaultBucket = Some bucket →
  bolt.Get bucket key = Some val →
  decode_valueT val = (valT, None) →
  isExpired now valT = false →
  decode o (Value valT) = (o', None) →
  live t (cache_expiry now (remaining (Expire valT) now)) = true →
  ∃ s' l',
    Gob.Load decode_valueT decode Gob.assign remaining now key (Some o) s =
      Returned ((Some o', None), s') ∧
    bolt.buckets (Gob.db s') = bolt.buckets (Gob.db s) ∧
    Gob.lru s' = Some l' ∧
    LRU.Get t key l' = ((Some (Gob.Pointer o'), true), l') ∧
    Gob.Load decode_valueT decode Gob.assign remaining t key (Some o2) s' =
      Panicked "reflect.Set: value of type *T is not assignable to type T".
Proof.
  intros Hl Hwf Hsize Hmiss Hnf Hb Hval Hdv Hexp Hdec Hlive.
  pose proof (Get_miss_absent l now key Hwf Hmiss) as Habs.
  pose proof (wf_Get l now key Hwf) as Hwf1.
  pose proof (size_Get l now key) as Hsize1.
  unfold Gob.Load at 1. rewrite Hl.
  destruct (LRU.Get now key l) as [[v ok] l1]. simpl in Hmiss, Habs, Hwf1, Hsize1.
  subst ok. unfold Gob.get. cbn [Gob.db Gob.opt Gob.lru].
  unfold isExpired in Hexp.
  assert (Hl1 : 0 < LRU.size l1) by lia.
  set (exp := cache_expiry now (remaining (Expire valT) now)) in *.
  pose proof (wf_Add l1 key exp (Gob.Pointer o') Hwf1) as Hwf2.
  destruct (Add_new_front l1 key exp (Gob.Pointer o') Hwf1 Habs Hl1) as [Hi Hh].
  destruct (LRU.evictList (LRU.Add key exp (Gob.Pointer o') l1)) as [|x rest] eqn:Hes;
    [done|].
  injection Hh as ->.
  pose proof (Get_front _ t key _ rest Hwf2 Hes Hi Hlive) as Hhit.
  cbn [LRU.value] in Hhit.
  destruct v as [v|]; rewrite Hnf, Hb, Hval, Hdv, Hexp, Hdec;
    (eexists _, (LRU.Add key exp (Gob.Pointer o') l1); split; [done|]; split; [done|];
     unfold Gob.tryAddToLRU; cbn [Gob.lru Gob.opt Gob.db];
     fold (cache_expiry now (remaining (Expire valT) now)); fold exp;
     split; [done|]; split; [exact Hhit|];
     unfold Gob.Load; cbn [Gob.lru Gob.opt Gob.db];
     rewrite Hhit; done).
Qed.

End gob_more.

(** ** Scenarios for the further properties *)
Section more_scenarios.
Import Ex Ex2 LRU_facts.

Lemma wf_full : LRU.wf full.
Proof. apply wf_adds, wf_newLRU. Qed.

Lemma opened_with_resident : opened (store with_resident).
Proof.
  split; [by vm_compute|]. intros l Hl.
  change (Some resident = Some l) in Hl. injection Hl as <-.
  split; [apply wf_Add, wf_newLRU|by vm_compute].
Qed.

(** A cache of capacity 2 after one [Add]. *)
Lemma reachable_invariant_witness :
  LRU.size (LRU.Add "a" time.zero 1%nat (LRU.newLRU 2)) = 2 ∧
  NoDup (LRU.keys (LRU.Add "a" time.zero 1%nat (LRU.newLRU 2))).
Proof.
  assert (Hr : reachable 2 (LRU.Add "a" time.zero 1%nat (LRU.newLRU 2)))
    by apply reach_Add, reach_newLRU.
  destruct (reachable_invariant 2 _ Hr) as (Hsize & Hnd & _).
  split; [exact Hsize | exact Hnd].
Defined.

(** Capacity 2 holding ["a"] and ["b"]: ["c"] is found right after it
    was added. *)
Lemma Add_Get_roundtrip_witness :
  LRU.Get t0 "c" (LRU.Add "c" time.zero 3%nat full) =
    ((Some 3%nat, true), LRU.Add "c" time.zero 3%nat full).
Proof.
  apply (Add_Get_roundtrip full t0 time.zero "c" 3%nat wf_full).
  - by vm_compute.
  - by vm_compute.
Defined.

(** Capacity 2 holding ["a"] and ["b"]: ["a"], added again, survives the
    [Add] of ["c"]. *)
Lemma recent_survives_Add_witness :
  is_Some (LRU.items (LRU.Add "c" time.zero 3%nat (LRU.Add "a" time.zero 1%nat full))
             !! "a").
Proof.
  assert (H2 : 2 <= LRU.size full) by by vm_compute.
  assert (Hne : "c" ≠ "a") by done.
  exact (proj2 (recent_survives_Add full t0 time.zero time.zero "a" "c" 1%nat 3%nat
                  wf_full H2 Hne)).
Defined.

(** Capacity 2 holding ["a"] and ["b"]: after [Delete] of ["a"] a lookup
    of it misses and ["b"] is what is left. *)
Lemma Delete_removes_key_only_witness :
  fst (LRU.Get t0 "a" (LRU.Delete "a" full)) = (None, false) ∧
  LRU.keys (LRU.Delete "a" full) = ["b"].
Proof.
  destruct (Delete_removes_key_only full t0 "a" wf_full) as (Hmiss & Hkeys & _).
  split; [exact Hmiss|]. rewrite Hkeys. by vm_compute.
Defined.

(** A cache of capacity 0 after an [Add]. *)
Lemma nonpositive_capacity_holds_nothing_witness :
  LRU.evictList (LRU.Add "a" time.zero 1%nat (LRU.newLRU 0)) = [] ∧
  LRU.Get t0 "a" (LRU.Add "a" time.zero 1%nat (LRU.newLRU 0)) =
    ((None, false), LRU.Add "a" time.zero 1%nat (LRU.newLRU 0)).
Proof.
  assert (Hn : 0 <= 0) by lia.
  assert (Hr : reachable 0 (LRU.Add "a" time.zero 1%nat (LRU.newLRU 0)))
    by apply reach_Add, reach_newLRU.
  exact (nonpositive_capacity_holds_nothing 0 _ t0 "a" Hn Hr).
Defined.

(** Capacity 2 holding ["a"] and ["b"]: an [Add] of ["a"] keeps both. *)
Lemma Add_resident_evicts_nothing_witness :
  LRU.list_Len (LRU.evictList (LRU.Add "a" t0 9%nat full)) =
    LRU.list_Len (LRU.evictList full).
Proof.
  assert (Hent : LRU.items full !! "a" = Some (LRU.mkEntry "a" time.zero 1%nat))
    by by vm_compute.
  destruct (Add_resident_evicts_nothing full t0 "a" 9%nat _ wf_full Hent) as (_ & Hlen & _).
  exact Hlen.
Defined.

(** A record of one byte that expires at [t0]. *)
Lemma valueT_roundtrip_witness :
  ∃ v', valueT_UnmarshalBinary (mkValueT [] time.zero)
          (valueT_MarshalBinary (mkValueT [x01] t0)).1 = Returned (v', None) ∧
        Value v' = [x01].
Proof.
  assert (Hlen : Z.of_nat (length (Value (mkValueT [x01] t0))) < 2 ^ 31) by by vm_compute.
  destruct (valueT_roundtrip (mkValueT [] time.zero) (mkValueT [x01] t0) Hlen)
    as (v' & Hdec & _ & Hval & _).
  exists v'. split; [exact Hdec | exact Hval].
Defined.

(** A byte put with [ttl = 0] and read long after. *)
Lemma PutWithTTL_Get_roundtrip_witness :
  Get "default" "k" (at_time t1 put_ttl0) =
    Returned ((Some [x01], None), after_view (at_time t1 put_ttl0)).
Proof.
  assert (Hn : 1 <= numRetries (opt (store (world 0 [])))) by by vm_compute.
  assert (Hput : PutWithTTL "default" "k" [x01] 0 (world 0 []) = Returned (None, put_ttl0))
    by by vm_compute.
  assert (Hnf : no_fault put_ttl0) by by vm_compute.
  exact (proj2 (PutWithTTL_Get_roundtrip "default" "k" [x01] 0 (world 0 []) put_ttl0 t1
                  Hn Hput Hnf) eq_refl).
Defined.

(** A record of one byte: the decoder runs out of input, and [Get]
    returns an empty value without an error. *)
Lemma Get_drops_decode_error_witness :
  Get "default" "k" truncated = Returned ((Some [], None), after_view truncated).
Proof.
  assert (Hnf : no_fault truncated) by by vm_compute.
  assert (Hrec : stored truncated "default" "k" = Some [x01]) by by vm_compute.
  assert (Hdec : valueT_UnmarshalBinary (mkValueT [] time.zero) [x01] =
                 Returned (mkValueT [] time.zero, Some ErrUnexpectedEOF)) by by vm_compute.
  exact (proj2 (Get_drops_decode_error "default" "k" truncated [x01] _ _ Hnf Hrec Hdec)).
Defined.

(** Three attempts, three faults. *)
Lemma PutWithTTL_exhausts_retries_witness :
  PutWithTTL "default" "k" [x01] 0 failing3 =
    Returned (Some (ErrPut "k" disk_full), after_updates 3 failing3).
Proof.
  assert (Hro : readOnly (opt (store failing3)) = false) by by vm_compute.
  assert (Hn : numRetries (opt (store failing3)) =
               Z.of_nat (length [disk_full; disk_full; disk_full])) by by vm_compute.
  assert (Hne : [disk_full; disk_full; disk_full] ≠ []) by done.
  assert (Hfs : bolt.faults (db (store failing3)) =
                (Some <$> [disk_full; disk_full; disk_full]) ++ []) by by vm_compute.
  destruct (PutWithTTL_exhausts_retries "default" "k" [x01] 0 _ [] failing3 Hro Hn Hne Hfs)
    as (e & Hlast & Hput).
  injection Hlast as <-. exact Hput.
Defined.

(** One fault, then a write that goes through, in two attempts. *)
Lemma PutWithTTL_stops_at_first_success_witness :
  PutWithTTL "default" "k" [x01] 0 failing1 =
    Returned (None,
      with_buckets
        (put_record "default" "k" (record_of failing1 [x01] 0)
           (bolt.buckets (db (store failing1))))
        (after_updates 2 failing1)).
Proof.
  assert (Hro : readOnly (opt (store failing1)) = false) by by vm_compute.
  assert (Hn : Z.of_nat (length [disk_full]) < numRetries (opt (store failing1)))
    by by vm_compute.
  assert (Hfs : bolt.faults (db (store failing1)) = (Some <$> [disk_full]) ++ [None])
    by by vm_compute.
  assert (Hk : Z.of_nat (String.length "k") <= bolt.MaxKeySize) by by vm_compute.
  assert (Hv : Z.of_nat (length (record_of failing1 [x01] 0)) <= bolt.MaxValueSize)
    by by vm_compute.
  exact (PutWithTTL_stops_at_first_success "default" "k" [x01] 0 [disk_full] [None]
           failing1 Hro Hn Hfs eq_refl ltac:(done) ltac:(done) Hk Hv).
Defined.

(** A write of ["k"] leaves ["j"] alone. *)
Lemma PutWithTTL_writes_one_key_witness :
  stored put_ttl0 "default" "j" = stored (world 0 []) "default" "j".
Proof.
  assert (Hput : PutWithTTL "default" "k" [x01] 0 (world 0 []) = Returned (None, put_ttl0))
    by by vm_compute.
  destruct (PutWithTTL_writes_one_key "default" "k" [x01] 0 _ _ _ Hput) as [_ Hother].
  apply Hother. done.
Defined.

(** [Remove] of a key the cache holds. *)
Lemma Remove_cache_then_engine_witness :
  ∃ r w', Remove "k" with_resident = Returned (r, w') ∧
          ∀ l', lru (store w') = Some l' → LRU.items l' !! "k" = None.
Proof.
  destruct (Remove_cache_then_engine "k" ([] : list byte) with_resident t0
              opened_with_resident) as (r & w' & Hrem & _ & Habs & _).
  exists r, w'. split; [exact Hrem | exact Habs].
Defined.

(** [Memoize] of an absent key: one call of the compute function. *)
Lemma Memoize_miss_computes_and_stores_witness :
  ∃ obj err w2,
    MemoizeWithTTL "x" (Some []) compute_x 0 (world 0 []) = Returned ((obj, err), w2) ∧
    computes (trace w2) = 1%nat.
Proof.
  assert (Hn : 1 <= numRetries (opt (store (world 0 [])))) by by vm_compute.
  assert (HLoad : Load "x" (Some []) (world 0 []) =
                  Returned ((Some [], Some ErrKeyNotFound), after_view (world 0 [])))
    by by vm_compute.
  destruct (Memoize_miss_computes_and_stores "x" [] [] compute_x [x58] [x58] 0
              ErrKeyNotFound _ _ Hn HLoad (or_introl eq_refl) eq_refl eq_refl)
    as (obj & err & w2 & Hmemo & Hc & _).
  exists obj, err, w2. split; [exact Hmemo | exact Hc].
Defined.

(** [Update] and [Load] with a cache of capacity 1. *)
Lemma Update_Load_roundtrip_cached_witness :
  ∃ w2, Load "k" (Some []) (at_time t1 updated) = Returned ((Some [x01], None), w2).
Proof.
  assert (Hupd : Update "k" (Some [x01]) (world 1 []) = Returned (None, updated))
    by by vm_compute.
  assert (Hnf : no_fault updated) by by vm_compute.
  destruct (Update_Load_roundtrip_cached "k" [x01] [x01] [] (world 1 []) updated t1
              (opened_on_opened _ _) eq_refl Hupd Hnf) as (w2 & HLoad & _).
  exists w2. exact HLoad.
Defined.

(** A compute function that fails: its error comes back and the engine
    holds what it held. *)
Lemma Memoize_failed_compute_stores_nothing_witness :
  MemoizeWithTTL "x" (Some []) compute_fails 0 (world 0 []) =
    Returned ((Some [], Some (ErrUser "no value")),
              computed "x" (after_view (world 0 []))).
Proof.
  assert (HLoad : Load "x" (Some []) (world 0 []) =
                  Returned ((Some [], Some ErrKeyNotFound), after_view (world 0 [])))
    by by vm_compute.
  exact (proj1 (Memoize_failed_compute_stores_nothing "x" [] [] compute_fails 0
                  ErrKeyNotFound (ErrUser "no value") _ _ HLoad (or_introl eq_refl)
                  (or_introl eq_refl))).
Defined.

(** A value cached for a minute, loaded at the time of the write. *)
Lemma Update_then_Load_from_cache_witness :
  Load "k" (Some []) (at_time t0 updated_ttl) =
    Returned ((Some [x01], None), at_time t0 updated_ttl).
Proof.
  assert (Hl : lru (store (world 2 [])) = Some (LRU.newLRU 2)) by by vm_compute.
  assert (Hsize : 0 < LRU.size (LRU.newLRU (V:=list byte) 2)) by by vm_compute.
  assert (Hn : 1 <= numRetries (opt (store (world 2 [])))) by by vm_compute.
  assert (Hupd : UpdateWithTTL "k" (Some [x01]) 60 (world 2 []) = Returned (None, updated_ttl))
    by by vm_compute.
  assert (Hlive : live t0 (cache_expiry (now (world 2 [])) 60) = true) by by vm_compute.
  exact (Update_then_Load_from_cache "k" [x01] [x01] [] 60 (LRU.newLRU 2) (world 2 [])
           updated_ttl t0 Hl (wf_newLRU 2) Hsize eq_refl Hn eq_refl Hupd Hlive).
Defined.

(** A [ttl] of minus five seconds, without a cache: the record has
    expired when it is written. *)
Lemma negative_ttl_expired_in_engine_only_witness :
  Load "k" (Some []) updated_past =
    Returned ((Some [], Some ErrKeyExpired), after_view updated_past).
Proof.
  assert (Httl : -9000000000 < -5 < 0) by lia.
  assert (Hns : 0 <= time.nsec (now (world 0 [])) < 1000000000) by by vm_compute.
  assert (Hlo : time.unixToInternal <= time.sec (now (world 0 [])) + -5) by by vm_compute.
  assert (Hhi : time.sec (now (world 0 [])) < 2 ^ 62) by by vm_compute.
  assert (Hn : 1 <= numRetries (opt (store (world 0 [])))) by by vm_compute.
  assert (Hupd : UpdateWithTTL "k" (Some [x01]) (-5) (world 0 []) =
                 Returned (None, updated_past)) by by vm_compute.
  assert (Hnf : no_fault updated_past) by by vm_compute.
  exact (proj1 (negative_ttl_expired_in_engine_only "k" [x01] [x01] [] (-5) (world 0 [])
                  updated_past Httl Hns Hlo Hhi Hn eq_refl Hupd Hnf) eq_refl).
Defined.

(** The store after an [Update] is as [Open] made it. *)
Lemma facade_keeps_opened_witness : opened (store updated).
Proof.
  assert (Hupd : UpdateWithTTL "k" (Some [x01]) 0 (world 1 []) = Returned (None, updated))
    by by vm_compute.
  destruct (facade_keeps_opened (T:=list byte) (world 1 []) updated (opened_on_opened _ _))
    as (_ & _ & _ & _ & Hkeep & _).
  exact (Hkeep "k" (Some [x01]) 0 None Hupd).
Defined.

(** A second [Memoize] with a compute function that fails: it is not
    called. *)
Lemma Memoize_second_call_does_not_compute_witness :
  ∃ w3, Memoize "x" (Some []) compute_fails (at_time t1 memoized) =
          Returned ((Some [x58], None), w3) ∧
        computes (trace w3) = computes (trace memoized).
Proof.
  assert (HLoad : Load "x" (Some []) (world 0 []) =
                  Returned ((Some [], Some ErrKeyNotFound), after_view (world 0 [])))
    by by vm_compute.
  assert (Hmemo : Memoize "x" (Some []) compute_x (world 0 []) =
                  Returned ((Some [x58], None), memoized)) by by vm_compute.
  assert (Hnf : no_fault memoized) by by vm_compute.
  exact (Memoize_second_call_does_not_compute "x" [] [] [] [x58] compute_x compute_fails
           [x58] [x58] ErrKeyNotFound (Some [x58]) (world 0 []) _ memoized t1
           (opened_on_opened _ _) HLoad (or_introl eq_refl) eq_refl eq_refl Hmemo Hnf
           eq_refl).
Defined.


(** A read-only store with three attempts. *)
Lemma read_only_store_refuses_writes_witness :
  PutWithTTL "default" "k" [x01] 0 read_only =
    Returned (Some (ErrPut "k" ErrDatabaseReadOnly), refused 3 read_only).
Proof.
  exact (proj1 (read_only_store_refuses_writes "default" "k" [x01] 0 2 read_only
                  eq_refl eq_refl)).
Defined.

(** The gob revision on the database with the record of ["k"]: the first
    [Load] reads the engine, the second, long after, panics. *)
Lemma Gob_Load_then_Load_panics_witness :
  ∃ s', Gob.Load gob_decode_valueT gob_decode Gob.assign gob_remaining t0 "k" (Some [])
          gob_store = Returned ((Some [x01], None), s') ∧
        Gob.Load gob_decode_valueT gob_decode Gob.assign gob_remaining t1 "k" (Some [])
          s' = Panicked "reflect.Set: value of type *T is not assignable to type T".
Proof.
  edestruct (Gob_Load_then_Load_panics gob_decode_valueT gob_decode gob_remaining
               t0 t1 "k" [] [x01] [] gob_store (LRU.newLRU 2))
    as (s' & l' & H1 & _ & _ & _ & H2).
  - reflexivity.
  - apply wf_newLRU.
  - by vm_compute.
  - by vm_compute.
  - by vm_compute.
  - vm_compute. reflexivity.
  - vm_compute. reflexivity.
  - vm_compute. reflexivity.
  - by vm_compute.
  - by vm_compute.
  - by vm_compute.
  - exists s'. split; [exact H1 | exact H2].
Defined.

End more_scenarios.
